(** * Fatbuildr patch-queue engine ([fatbuildr/git.py])

    A shallow embedding of [GitRepository] and of the helpers of
    [fatbuildr/git.py], with the statements of the patch-queue
    specification settled against it.

    - Python strings and file contents are [string]; [str.split] with a
      one-character separator is [split_on] / [split_max].
    - A [deb822.Deb822] object is an ordered association list [meta].
    - The patches directory is a two-level tree: [gmap string node].
    - The git repository is an object store (a list of commits addressed
      by position), the tip of the branch [HEAD] points to, the index and
      the working tree.
    - Methods run in a state-and-exception monad [M]: a Python exception
      that nothing catches is a [Raise] carrying the state reached so far. *)

From Stdlib Require Import Ascii String ZArith Lia.
From stdpp Require Import base gmap strings list sorting.

Local Open Scope Z_scope.
Local Open Scope stdpp_scope.

(* ===================================================================== *)
(** * Strings                                                             *)
(* ===================================================================== *)

Module Str.

Definition nl : ascii := "010"%char.
Definition tab : ascii := "009"%char.
Definition NL : string := String nl "".

(** [c in s] for a character *)
Fixpoint mem (c : ascii) (s : string) : bool :=
  match s with
  | "" => false
  | String x s' => Ascii.eqb x c || mem c s'
  end.

(** [s.split(sep, 1)] when [sep] occurs: the text before and after the
    first occurrence. *)
Fixpoint cut (sep : ascii) (s : string) : option (string * string) :=
  match s with
  | "" => None
  | String c s' =>
      if Ascii.eqb c sep then Some ("", s')
      else match cut sep s' with
           | Some (a, b) => Some (String c a, b)
           | None => None
           end
  end.

(** [s.split(sep, n)] *)
Fixpoint split_max (sep : ascii) (n : nat) (s : string) : list string :=
  match n with
  | O => [s]
  | S n' =>
      match cut sep s with
      | None => [s]
      | Some (a, b) => a :: split_max sep n' b
      end
  end.

(** [s.split(sep)] *)
Fixpoint split_on (sep : ascii) (s : string) : list string :=
  match s with
  | "" => [""]
  | String c s' =>
      if Ascii.eqb c sep then "" :: split_on sep s'
      else match split_on sep s' with
           | l :: ls => String c l :: ls
           | [] => [String c ""]
           end
  end.

(** [sep.join(ls)] *)
Fixpoint join (sep : string) (ls : list string) : string :=
  match ls with
  | [] => ""
  | [l] => l
  | l :: ls' => l +:+ sep +:+ join sep ls'
  end.

(** [s.lstrip(" \t")] *)
Definition is_blank (c : ascii) : bool := Ascii.eqb c " " || Ascii.eqb c tab.

Fixpoint lstrip (s : string) : string :=
  match s with
  | String c s' => if is_blank c then lstrip s' else s
  | "" => ""
  end.

Definition starts_blank (s : string) : bool :=
  match s with
  | String c _ => is_blank c
  | "" => false
  end.

Fixpoint all (p : ascii → bool) (s : string) : bool :=
  match s with
  | "" => true
  | String c s' => p c && all p s'
  end.

Fixpoint repeat_char (c : ascii) (n : nat) : string :=
  match n with
  | O => ""
  | S n' => String c (repeat_char c n')
  end.

End Str.


(* ===================================================================== *)
(** * Exceptions                                                          *)
(* ===================================================================== *)

(** The exceptions that can leave the engine. [IndexError] and
    [AttributeError] are Python's own; [GitError] is raised by the git
    binding; [OSError] stands for every filesystem failure;
    [MetadataParseError] is the decoding failure of the metadata codec. *)
Inductive exn : Set :=
  | MetadataParseError
  | IndexError
  | AttributeError
  | GitError
  | OSError.

Inductive res (A : Type) : Type :=
  | Ok (a : A)
  | Raise (e : exn).
Arguments Ok {A} a.
Arguments Raise {A} e.

(* ===================================================================== *)
(** * Metadata codec                                                      *)
(* ===================================================================== *)

Module Deb822.

(** A [Deb822] object: an ordered mapping of string keys to string
    values. *)
Definition meta : Type := list (string * string).

(** [key in meta] *)
Fixpoint has (k : string) (m : meta) : bool :=
  match m with
  | [] => false
  | (k', _) :: m' => if decide (k' = k) then true else has k m'
  end.

(** [meta[key]] *)
Fixpoint get (k : string) (m : meta) : option string :=
  match m with
  | [] => None
  | (k', v) :: m' => if decide (k' = k) then Some v else get k m'
  end.

(** [meta[key] = value]: an existing key keeps its place, a new key goes
    last. *)
Fixpoint set (k v : string) (m : meta) : meta :=
  match m with
  | [] => [(k, v)]
  | (k', v') :: m' =>
      if decide (k' = k) then (k, v) :: m' else (k', v') :: set k v m'
  end.

(** [del meta[key]] *)
Fixpoint del (k : string) (m : meta) : meta :=
  match m with
  | [] => []
  | (k', v') :: m' => if decide (k' = k) then del k m' else (k', v') :: del k m'
  end.

Definition key_char (c : ascii) : bool :=
  negb (Ascii.eqb c ":") && negb (Str.is_blank c) && negb (Ascii.eqb c Str.nl).

Definition key_ok (k : string) : bool :=
  match k with
  | "" => false
  | _ => Str.all key_char k
  end.

(** Modelled from the spec: the metadata codec ([deb822.Deb822] of the
    python-debian package) is not part of the sources. [encode] is the
    canonical serialization [str(meta)]: one [Key: value] line per field,
    in the order of the mapping. *)
Fixpoint encode (m : meta) : string :=
  match m with
  | [] => ""
  | (k, v) :: m' => k +:+ ": " +:+ v +:+ Str.NL +:+ encode m'
  end.

(** One [Key: value] line. *)
Definition split_field (l : string) : option (string * string) :=
  match Str.cut ":" l with
  | None => None
  | Some (k, v) => if key_ok k then Some (k, Str.lstrip v) else None
  end.

Definition flush (cur : option (string * string)) (m : meta) : meta :=
  match cur with
  | None => m
  | Some (k, c) => set k c m
  end.

(** The lines of one block: [m] holds the finished fields, [cur] the
    field being read. An empty line ends the block; an indented line
    continues the field being read; any other line must be a
    [Key: value] line. *)
Fixpoint parse_lines (ls : list string) (m : meta)
    (cur : option (string * string)) : res meta :=
  match ls with
  | [] => Ok (flush cur m)
  | l :: ls' =>
      if decide (l = "") then Ok (flush cur m)
      else if Str.starts_blank l then
        match cur with
        | None => Raise MetadataParseError
        | Some (k, c) => parse_lines ls' m (Some (k, c +:+ Str.NL +:+ l))
        end
      else
        match split_field l with
        | None => Raise MetadataParseError
        | Some (k, v) => parse_lines ls' (flush cur m) (Some (k, v))
        end
  end.

(** Modelled from the spec: the metadata codec is not part of the
    sources. [decode] is [deb822.Deb822(text)]: it parses the deb822-style
    block the text starts with (one [Key: value] per logical field,
    continuation lines indented, the block ends at the first empty line)
    and fails with [MetadataParseError] on malformed input. *)
Definition decode (text : string) : res meta :=
  parse_lines (Str.split_on Str.nl text) [] None.

(** [is_meta_generic] *)
Definition is_meta_generic (m : meta) : bool :=
  has "Generic" m && bool_decide (get "Generic" m = Some "yes").

(** A value that can be written as a field: its first line does not
    start with a blank, every further line is indented. *)
Definition value_ok (v : string) : bool :=
  match Str.split_on Str.nl v with
  | l0 :: conts => negb (Str.starts_blank l0) && forallb Str.starts_blank conts
  | [] => false
  end.

Definition field_ok (kv : string * string) : bool :=
  key_ok kv.1 && value_ok kv.2.

(** The valid metadata mappings: distinct well-formed keys, values that
    fit the line format. *)
Definition valid (m : meta) : Prop :=
  NoDup (m.*1) ∧ forallb field_ok m = true.

Global Instance valid_dec m : Decision (valid m).
Proof. unfold valid. apply _. Defined.

End Deb822.

(* ===================================================================== *)
(** * Integer formatting                                                  *)
(* ===================================================================== *)

Module Fmt.

Definition digit (d : nat) : ascii := ascii_of_nat (48 + d).

Fixpoint dec_go (fuel n : nat) (acc : string) : string :=
  match fuel with
  | O => acc
  | S f =>
      let acc' := String (digit (n mod 10)) acc in
      if (n / 10 =? 0)%nat then acc' else dec_go f (n / 10) acc'
  end.

(** [str(n)] for [n >= 0] *)
Definition str_of_nat (n : nat) : string := dec_go (S n) n "".

(** zero padding on the left up to width [w] *)
Definition pad0 (w : nat) (s : string) : string :=
  Str.repeat_char "0" (w - String.length s) +:+ s.

(** [f"{index:04}"]: the sign counts in the width. *)
Definition fmt04 (i : Z) : string :=
  if i <? 0 then String "-" (pad0 3 (str_of_nat (Z.to_nat (- i))))
  else pad0 4 (str_of_nat (Z.to_nat i)).

Definition is_digit (c : ascii) : bool :=
  (48 <=? nat_of_ascii c)%nat && (nat_of_ascii c <=? 57)%nat.

Fixpoint read_go (s : string) (a : nat) : nat :=
  match s with
  | String c s' =>
      if is_digit c then read_go s' (10 * a + (nat_of_ascii c - 48))%nat else a
  | "" => a
  end.

(** The characters [fmt04] writes. *)
Definition name_char (c : ascii) : bool := is_digit c || Ascii.eqb c "-".

(** The index a patch file carries: the decimal number its name starts
    with. *)
Definition index_of (name : string) : Z := Z.of_nat (read_go name 0).

End Fmt.

(* ===================================================================== *)
(** * The author pattern                                                  *)
(* ===================================================================== *)

Module Re.

(** The fragment of Python's [re] the engine uses: literal characters
    and the greedy capturing group [(.+)], where [.] is any character but
    a newline. *)
Inductive item : Set :=
  | Lit (c : ascii)
  | DotPlus.

Fixpoint run (s : string) : nat :=
  match s with
  | String c s' => if Ascii.eqb c Str.nl then O else S (run s')
  | "" => O
  end.

Fixpoint take (n : nat) (s : string) : string :=
  match n, s with
  | S n', String c s' => String c (take n' s')
  | _, _ => ""
  end.

Fixpoint drop (n : nat) (s : string) : string :=
  match n, s with
  | S n', String _ s' => drop n' s'
  | _, _ => s
  end.

(** Backtracking of a greedy [.+]: the longest candidate first, down to
    one character. *)
Fixpoint try_len (k : string → option (list string)) (s : string) (n : nat)
    : option (list string) :=
  match n with
  | O => None
  | S n' =>
      match k (drop n s) with
      | Some gs => Some (take n s :: gs)
      | None => try_len k s n'
      end
  end.

(** [re.match(p, s)]: anchored at the start of [s] only; the result is
    the list of captured groups. *)
Fixpoint rmatch (p : list item) (s : string) : option (list string) :=
  match p with
  | [] => Some []
  | Lit c :: p' =>
      match s with
      | String x s' => if Ascii.eqb x c then rmatch p' s' else None
      | "" => None
      end
  | DotPlus :: p' => try_len (rmatch p') s (run s)
  end.

(** [r'(?P<author>.+) <(?P<email>.+)>'] *)
Definition author_pattern : list item :=
  [DotPlus; Lit " "; Lit "<"; DotPlus; Lit ">"].

End Re.

(* ===================================================================== *)
(** * State: the repository and the patches directory                     *)
(* ===================================================================== *)

(** A snapshot of files: path to content. *)
Abbreviation files := (gmap string string).

(** [pygit2.Signature] *)
Record signature : Type := Signature {
  sig_name : string;
  sig_email : string;
}.

(** A commit object. The engine only ever creates commits with no parent
    (the root) or one parent (the head at that time): history is linear. *)
Record commit : Type := Commit {
  parents : list nat;
  author : signature;
  committer : signature;
  message : string;
  tree : files;
}.

(** The repository at [self.path]: the object store (a commit's id is its
    position in [odb]), the tip of the branch [HEAD] points to ([None]
    while the branch is unborn), the index and the working tree. *)
Record repository : Type := Repository {
  odb : list commit;
  head : option nat;
  index : files;
  worktree : files;
}.

(** An entry of the patches directory: a regular file, or a subdirectory
    holding regular files. *)
Inductive node : Type :=
  | File (content : string)
  | Dir (entries : files).

(** The world a method runs in. [patches] is the patches directory
    [patches_dir] ([None] when it does not exist); [parent_dir] tells
    whether the directory that would contain it exists. *)
Record world : Type := World {
  repo : repository;
  patches : option (gmap string node);
  parent_dir : bool;
}.

Definition set_repo (r : repository) (w : world) : world :=
  World r (patches w) (parent_dir w).

Definition set_patches (p : option (gmap string node)) (w : world) : world :=
  World (repo w) p (parent_dir w).

(** The entry [patches_dir.joinpath(d)], for a name [d] of one path
    component (["generic"], a version). *)
Definition entry (w : world) (d : string) : option node :=
  patches w ≫= (.!! d).

(** The files of subdirectory [d] of the patches directory. *)
Definition listing (w : world) (d : string) : files :=
  match entry w d with
  | Some (Dir es) => es
  | _ => ∅
  end.

(* ===================================================================== *)
(** * The monad of methods                                                *)
(* ===================================================================== *)

Definition M (A : Type) : Type := world → res A * world.

Global Instance M_ret : MRet M := λ A a w, (Ok a, w).

Global Instance M_bind : MBind M := λ A B f m w,
  match m w with
  | (Ok a, w') => f a w'
  | (Raise e, w') => (Raise e, w')
  end.

Definition raise {A} (e : exn) : M A := λ w, (Raise e, w).
Definition get_world : M world := λ w, (Ok w, w).
Definition lift {A} (r : res A) : M A := λ w, (r, w).

(** [for x in xs: body(x)] *)
Fixpoint for_each {A} (body : A → M unit) (xs : list A) : M unit :=
  match xs with
  | [] => mret tt
  | x :: xs' => body x ;; for_each body xs'
  end.

(** [if x:] for a string that may be [None] *)
Definition truthy (d : option string) : bool :=
  match d with
  | Some (String _ _) => true
  | _ => false
  end.

(** [sorted(patches_subdir.iterdir())]: paths of one directory, ordered by
    name. *)
Definition sorted_entries (es : files) : list (string * string) :=
  merge_sort (λ a b, String.le a.1 b.1) (map_to_list es).

(* ===================================================================== *)
(** * [fatbuildr/git.py]                                                  *)
(* ===================================================================== *)

Section GitRepository.

(** The external [patch] program, run in the working tree with the patch
    file on its standard input: its exit status and the working tree it
    leaves. *)
Variable patch_cmd : string → files → Z * files.

(** [Repository.diff(a, b).patch]: the unified diff between two trees,
    [None] when there is nothing to show. *)
Variable git_diff : files → files → option string.

(** [datetime.today().strftime('%Y-%m-%d')] *)
Variable today : string.

(** ** The git binding *)

(** [self._repo.head.target]; fails while the branch is unborn. *)
Definition head_target : M nat := λ w,
  match head (repo w) with
  | Some h => (Ok h, w)
  | None => (Raise GitError, w)
  end.

(** [self._repo.head.name] *)
Definition head_name : M string :=
  head_target ;; mret "refs/heads/master".

(** [self._repo[oid]] *)
Definition lookup_commit (oid : nat) : M commit := λ w,
  match odb (repo w) !! oid with
  | Some c => (Ok c, w)
  | None => (Raise GitError, w)
  end.

(** [index.add_all()]: the index takes the state of the working tree. *)
Definition index_add_all : M unit := λ w,
  let r := repo w in
  (Ok tt, set_repo (Repository (odb r) (head r) (worktree r) (worktree r)) w).

(** [index.add(path)]: the path must exist in the working tree. *)
Definition index_add (path : string) : M unit := λ w,
  let r := repo w in
  match worktree r !! path with
  | Some c =>
      (Ok tt,
       set_repo (Repository (odb r) (head r) (<[path:=c]> (index r)) (worktree r)) w)
  | None => (Raise OSError, w)
  end.

(** [index.write_tree()] *)
Definition write_tree : M files := λ w, (Ok (index (repo w)), w).

(** [Repository.create_commit(ref, author, committer, message, tree,
    parents)], where [ref] is [HEAD] or the branch it points to. When the
    branch already has a tip, the first parent must be that tip;
    otherwise the commit is refused and nothing is written. The new
    commit becomes the tip. *)
Definition create_commit (ref : string) (a c : signature) (msg : string)
    (t : files) (ps : list nat) : M unit := λ w,
  let r := repo w in
  let accepted :=
    match head r with
    | None => true
    | Some tip =>
        match ps with
        | p :: _ => bool_decide (p = tip)
        | [] => false
        end
    end in
  if accepted then
    (Ok tt,
     set_repo (Repository (odb r ++ [Commit ps a c msg t])
                          (Some (length (odb r))) (index r) (worktree r)) w)
  else (Raise GitError, w).

(** [Repository.walk(oid, GIT_SORT_TOPOLOGICAL)] on a linear history:
    the commits from [oid] back along the first parent. *)
Fixpoint walk (fuel : nat) (db : list commit) (oid : nat) : list commit :=
  match fuel with
  | O => []
  | S f =>
      match db !! oid with
      | None => []
      | Some c =>
          c :: match parents c with
               | [] => []
               | p :: _ => walk f db p
               end
      end
  end.

(** ** [GitRepository] *)

(** [_base_commit] *)
Definition _base_commit (ref : string) (ps : list nat) (a email msg : string)
    (fs : option (list string)) : M unit :=
  match fs with
  | None => index_add_all
  | Some l => for_each index_add l
  end ;;
  t ← write_tree;
  create_commit ref (Signature a email) (Signature a email) msg t ps.

(** [_initial_commit] *)
Definition _initial_commit (a email : string) : M unit :=
  _base_commit "HEAD" [] a email "Initial commit" None.

(** [__init__]: [pygit2.init_repository] creates the repository when
    there is none and otherwise changes nothing in it. *)
Definition init (a email : string) : M unit :=
  _initial_commit a email.

(** [_commit] *)
Definition _commit (a email title : string) (m : Deb822.meta)
    (fs : option (list string)) : M unit :=
  ref ← head_name;
  tip ← head_target;
  _base_commit ref [tip] a email
    (title +:+ Str.NL +:+ Str.NL +:+ Deb822.encode m) fs.

(** [walker] *)
Definition walker : M (list commit) :=
  tip ← head_target;
  w ← get_world;
  mret (walk (length (odb (repo w))) (odb (repo w)) tip).

(** [diff] *)
Definition diff (c : commit) : M (option string) :=
  match parents c with
  | [] => raise IndexError
  | p :: _ =>
      pc ← lookup_commit p;
      mret (git_diff (tree pc) (tree c))
  end.

(** The loop [for key in ['Author', 'From']: if key in meta: author_key
    = key] *)
Definition find_author_key (m : Deb822.meta) : option string :=
  foldl (λ acc key, if Deb822.has key m then Some key else acc)
        None ["Author"; "From"].

(** The author identity and the metadata left for the commit. *)
Definition resolve_author (m : Deb822.meta)
    : res (string * string * Deb822.meta) :=
  match find_author_key m with
  | Some key =>
      match Re.rmatch Re.author_pattern (default "" (Deb822.get key m)) with
      | Some [a; e] => Ok (a, e, Deb822.del key m)
      | _ => Raise AttributeError
      end
  | None => Ok ("Unknown Author", "unknown@email.com", m)
  end.

(** [subprocess.run(cmd, input=content, cwd=self.path)]: the exit status
    comes back in the result, which the caller drops. *)
Definition run_patch (content : string) : M Z := λ w,
  let r := repo w in
  let '(status, wt) := patch_cmd content (worktree r) in
  (Ok status, set_repo (Repository (odb r) (head r) (index r) wt) w).

(** [_apply_patch], for the file [name] of subdirectory [d] *)
Definition _apply_patch (d name content : string) : M unit :=
  title ← match Str.split_max "-" 1 name with
          | [_; t] => mret t
          | _ => raise IndexError
          end;
  m ← lift (Deb822.decode content);
  '(a, email, m) ← lift (resolve_author m);
  let m := if decide (d = "generic") then Deb822.set "Generic" "yes" m else m in
  run_patch content ;;
  _commit a email title m None.

(** [_import_patches_subdir] *)
Definition _import_patches_subdir (d : string) : M unit :=
  w ← get_world;
  match entry w d with
  | None => mret tt
  | Some (File _) => raise OSError
  | Some (Dir es) =>
      for_each (λ p, _apply_patch d p.1 p.2) (sorted_entries es)
  end.

(** [import_patches] *)
Definition import_patches (version : string) : M unit :=
  for_each _import_patches_subdir ["generic"; version].

(** The metadata block of a commit:
    [deb822.Deb822(commit.message.split("\n", 2)[2])] *)
Definition commit_meta (c : commit) : res Deb822.meta :=
  match Str.split_max Str.nl 2 (message c) with
  | [_; _; body] => Deb822.decode body
  | _ => Raise IndexError
  end.

(** [commit.message.split('\n')[0]] *)
Definition commit_title (c : commit) : string :=
  match Str.split_on Str.nl (message c) with
  | t :: _ => t
  | [] => ""
  end.

(** [patches_subdir.mkdir()] when [patches_subdir] does not exist; the
    target is the patches directory itself ([None]) or one of its
    subdirectories. *)
Definition ensure_dir (target : option string) : M unit := λ w,
  match target, patches w with
  | None, None =>
      if parent_dir w then (Ok tt, set_patches (Some ∅) w) else (Raise OSError, w)
  | None, Some _ => (Ok tt, w)
  | Some d, None => (Raise OSError, w)
  | Some d, Some p =>
      match p !! d with
      | None => (Ok tt, set_patches (Some (<[d := Dir ∅]> p)) w)
      | Some _ => (Ok tt, w)
      end
  end.

(** [open(patch_path, 'w+')] and the two [write]s. A name with a slash
    descends into a directory: under a subdirectory there is none, under
    the patches directory itself it must be an existing subdirectory. *)
Definition write_file (target : option string) (name content : string)
    : M unit := λ w,
  match patches w with
  | None => (Raise OSError, w)
  | Some p =>
      match target with
      | Some d =>
          match p !! d with
          | Some (Dir es) =>
              if Str.mem "/" name then (Raise OSError, w)
              else (Ok tt, set_patches (Some (<[d := Dir (<[name := content]> es)]> p)) w)
          | _ => (Raise OSError, w)
          end
      | None =>
          match Str.cut "/" name with
          | None =>
              match p !! name with
              | Some (Dir _) => (Raise OSError, w)
              | _ => (Ok tt, set_patches (Some (<[name := File content]> p)) w)
              end
          | Some (d, f) =>
              match p !! d with
              | Some (Dir es) =>
                  if Str.mem "/" f || bool_decide (f = "") then (Raise OSError, w)
                  else (Ok tt,
                        set_patches (Some (<[d := Dir (<[f := content]> es)]> p)) w)
              | _ => (Raise OSError, w)
              end
          end
      end
  end.

(** [_export_commit] *)
Definition _export_commit (target : option string) (idx : Z) (c : commit)
    (m : Deb822.meta) : M unit :=
  let m := Deb822.set "Author"
             (sig_name (author c) +:+ " <" +:+ sig_email (author c) +:+ ">") m in
  let patch_name := commit_title c in
  let fname := Fmt.fmt04 idx +:+ "-" +:+ patch_name in
  let m := if Deb822.has "Generic" m then Deb822.del "Generic" m else m in
  d ← diff c;
  if truthy d then
    ensure_dir target ;;
    write_file target fname
      (Deb822.encode m +:+ Str.NL +:+ Str.NL +:+ default "" d)
  else mret tt.

(** [for patch in patches_subdir.iterdir(): patch.unlink()] *)
Definition remove_patches (d : string) : M unit := λ w,
  match patches w with
  | None => (Ok tt, w)
  | Some p =>
      match p !! d with
      | None => (Ok tt, w)
      | Some (File _) => (Raise OSError, w)
      | Some (Dir es) =>
          (Ok tt,
           set_patches
             (Some (<[d := Dir (foldl (λ acc n, delete n acc) es
                                      (map_to_list es).*1)]> p)) w)
      end
  end.

(** The first loop over [self.walker()]: it counts the commits of each
    partition and stops at the root. *)
Fixpoint count_loop (cs : list commit) (ig iv : Z) : M (Z * Z) :=
  match cs with
  | [] => mret (ig, iv)
  | c :: cs' =>
      match parents c with
      | [] => mret (ig, iv)
      | _ :: _ =>
          m ← lift (commit_meta c);
          if Deb822.is_meta_generic m then count_loop cs' (ig + 1) iv
          else count_loop cs' ig (iv + 1)
      end
  end.

(** The second loop: it writes the patch files, newest commit first. *)
Fixpoint export_loop (version : string) (cs : list commit) (ig iv : Z)
    : M unit :=
  match cs with
  | [] => mret tt
  | c :: cs' =>
      match parents c with
      | [] => mret tt
      | _ :: _ =>
          m ← lift (commit_meta c);
          if Deb822.is_meta_generic m then
            _export_commit (Some "generic") ig c m ;;
            export_loop version cs' (ig - 1) iv
          else
            _export_commit (Some version) iv c m ;;
            export_loop version cs' ig (iv - 1)
      end
  end.

(** [export_queue] *)
Definition export_queue (version : string) : M unit :=
  ensure_dir None ;;
  for_each remove_patches ["generic"; version] ;;
  cs ← walker;
  '(ig, iv) ← count_loop cs 0 0;
  cs ← walker;
  export_loop version cs ig iv.

(** [patches_dir.mkdir(parents=True)] when it does not exist *)
Definition ensure_dir_parents : M unit := λ w,
  match patches w with
  | None => (Ok tt, World (repo w) (Some ∅) true)
  | Some _ => (Ok tt, w)
  end.

(** [commit_export] *)
Definition commit_export (idx : Z) (title a email description : string)
    (fs : list string) : M unit :=
  let m := Deb822.set "Last-Update" today
             (Deb822.set "Forwarded" "no"
                (Deb822.set "Description" description [])) in
  _commit a email title m (Some fs) ;;
  tip ← head_target;
  last_commit ← lookup_commit tip;
  ensure_dir_parents ;;
  m ← lift (commit_meta last_commit);
  _export_commit None idx last_commit m.

End GitRepository.

(* ===================================================================== *)
(** * The states a step leaves                                            *)
(* ===================================================================== *)

(** The repository after a commit on top of [h]. *)
Definition committed (ps : list nat) (a email msg : string) (t : files)
    (r : repository) : repository :=
  Repository (odb r ++ [Commit ps (Signature a email) (Signature a email) msg t])
             (Some (length (odb r))) t (worktree r).


(** An object store in which every parent is an older object. *)
Definition store_ok (db : list commit) : Prop :=
  ∀ i c p, db !! i = Some c → p ∈ parents c → (p < i)%nat.

(** The index after [index.add] of each path of a list; [None] when a path
    is not in the working tree. *)
Fixpoint stage (wt ix : files) (fs : list string) : option files :=
  match fs with
  | [] => Some ix
  | f :: fs' =>
      match wt !! f with
      | Some c => stage wt (<[f:=c]> ix) fs'
      | None => None
      end
  end.

(** The metadata [commit_export] builds. *)
Definition fresh_meta (today description : string) : Deb822.meta :=
  [("Description", description); ("Forwarded", "no"); ("Last-Update", today)].

Section Outcomes.
Variable patch_cmd : string → files → Z * files.

(** The world after [_apply_patch] went through. *)
Definition applied (d content title a email : string) (m : Deb822.meta)
    (h : nat) (w : world) : world :=
  let wt := (patch_cmd content (worktree (repo w))).2 in
  let m := if decide (d = "generic") then Deb822.set "Generic" "yes" m else m in
  set_repo
    (committed [h] a email (title +:+ Str.NL +:+ Str.NL +:+ Deb822.encode m) wt
       (Repository (odb (repo w)) (head (repo w)) (index (repo w)) wt)) w.

End Outcomes.

Section Exported.
Variable git_diff : files → files → option string.

(** The commits the loops of [export_queue] go through: those the walk
    yields before the first commit without parent. *)
Fixpoint visited (cs : list commit) : list commit :=
  match cs with
  | [] => []
  | c :: cs' =>
      match parents c with
      | [] => []
      | _ :: _ => c :: visited cs'
      end
  end.

(** The partition of a commit: [true] for [generic]. *)
Definition generic_commit (c : commit) : bool :=
  match commit_meta c with
  | Ok m => Deb822.is_meta_generic m
  | Raise _ => false
  end.

Definition partition_dir (version : string) (g : bool) : string :=
  if g then "generic" else version.

(** The number of commits of partition [g] in a list. *)
Definition count_in (g : bool) (cs : list commit) : Z :=
  Z.of_nat (length (filter (λ c, generic_commit c = g) cs)).

(** The diff of a commit against its first parent, when both are in the
    object store. *)
Definition diff_of (db : list commit) (c : commit) : option string :=
  match parents c with
  | p :: _ =>
      match db !! p with
      | Some pc => git_diff (tree pc) (tree c)
      | None => None
      end
  | [] => None
  end.

(** What the export of one commit needs to go through: a metadata block
    that decodes, a first parent in the object store, and no slash in
    the title when there is a diff to write. *)
Definition exportable (db : list commit) (c : commit) : bool :=
  match commit_meta c, parents c with
  | Ok _, p :: _ =>
      match db !! p with
      | Some pc =>
          if truthy (git_diff (tree pc) (tree c))
          then negb (Str.mem "/" (commit_title c)) else true
      | None => false
      end
  | _, _ => false
  end.

(** The metadata, the name and the content of the patch file of a
    commit. *)
Definition export_meta (c : commit) (m : Deb822.meta) : Deb822.meta :=
  let m := Deb822.set "Author"
             (sig_name (author c) +:+ " <" +:+ sig_email (author c) +:+ ">") m in
  if Deb822.has "Generic" m then Deb822.del "Generic" m else m.

Definition patch_name (idx : Z) (c : commit) : string :=
  Fmt.fmt04 idx +:+ "-" +:+ commit_title c.

Definition patch_text (c : commit) (m : Deb822.meta) (d : string) : string :=
  Deb822.encode (export_meta c m) +:+ Str.NL +:+ Str.NL +:+ d.

(** The files of subdirectory [d] in a patches directory. *)
Definition dir_files (p : gmap string node) (d : string) : files :=
  match p !! d with
  | Some (Dir es) => es
  | _ => ∅
  end.

(** Subdirectory [d] is absent or a directory. *)
Definition dir_free (p : gmap string node) (d : string) : bool :=
  match p !! d with
  | Some (File _) => false
  | _ => true
  end.

(** The patches directory after a file was written in subdirectory
    [d], created if missing. *)
Definition write_in (d name content : string) (p : gmap string node)
    : gmap string node :=
  <[d := Dir (<[name := content]> (dir_files p d))]> p.

(** The patches directory after the files of subdirectory [d] were
    removed. *)
Definition cleared (d : string) (p : gmap string node) : gmap string node :=
  match p !! d with
  | Some (Dir _) => <[d := Dir ∅]> p
  | _ => p
  end.

(** The directories [export_queue] starts from, once the patches
    directory exists and the old patches are removed. *)
Definition emptied (version : string) (w : world) : gmap string node :=
  cleared version (cleared "generic" (default ∅ (patches w))).

(** A computation that changes no entry of the patches directory other
    than [generic] and [version], however it ends. *)
Definition keeps (version : string) {A} (m : M A) : Prop :=
  ∀ w r w', m w = (r, w') →
    ∀ d, d ≠ "generic" → d ≠ version → entry w' d = entry w d.

(** The patches directory can be created if it is missing. *)
Definition dir_ready (w : world) : bool :=
  match patches w with
  | None => parent_dir w
  | Some _ => true
  end.

Definition sel (g : bool) (ig iv : Z) : Z := if g then ig else iv.

(** The file a commit of partition [g] contributes at index [idx]. *)
Definition writes (db : list commit) (g : bool) (idx : Z) (c : commit) (name x : string) : Prop :=
  ∃ m d, generic_commit c = g ∧ commit_meta c = Ok m ∧
         diff_of db c = Some d ∧ d ≠ "" ∧
         name = patch_name idx c ∧ x = patch_text c m d.

(** The patches directory after the second loop of [export_queue], when
    every step goes through. *)
Fixpoint export_files (version : string) (db : list commit)
    (cs : list commit) (ig iv : Z) (p : gmap string node)
    : gmap string node :=
  match cs with
  | [] => p
  | c :: cs' =>
      let g := generic_commit c in
      let p' :=
        match commit_meta c, diff_of db c with
        | Ok m, Some (String x d) =>
            write_in (partition_dir version g)
              (patch_name (if g then ig else iv) c)
              (patch_text c m (String x d)) p
        | _, _ => p
        end in
      export_files version db cs' (if g then ig - 1 else ig)
        (if g then iv else iv - 1) p'
  end.

End Exported.

(* ===================================================================== *)
(** * Concrete tools and states                                           *)
(* ===================================================================== *)

Module Example.

(** A run of [patch] in which every hunk is rejected: exit status 1, the
    working tree as it was. *)
Definition patch_reject : string → files → Z * files :=
  λ _ wt, (1, wt).

(** A toy diff format: the last line of the patch file is the new
    content of [a.txt]. *)
Definition patch_last_line : string → files → Z * files :=
  λ content wt,
    (0, <["a.txt" := List.last (Str.split_on Str.nl content) ""]> wt).

(** The diff of that format: the content of [a.txt] in the new tree,
    nothing when the trees are equal. *)
Definition diff_a_txt : files → files → option string :=
  λ t1 t2, if decide (t1 = t2) then None else t2 !! "a.txt".

(** No repository yet, no patches directory. *)
Definition fresh : world :=
  World (Repository [] None ∅ ∅) None true.

(** The repository right after [GitRepository(path, author, email)]. *)
Definition opened : world := (init "Bob" "bob@example.org" fresh).2.

Definition field (k v : string) : string := k +:+ ": " +:+ v +:+ Str.NL.

(** Patch files with different author fields. *)
Definition from_file : string :=
  field "Description" "fix foo" +:+ field "From" "Jane Roe <jane@example.org>"
  +:+ Str.NL +:+ "+foo".
Definition author_file : string :=
  field "Author" "John Doe <john@example.org>" +:+ field "Forwarded" "no"
  +:+ Str.NL +:+ "+foo".
Definition anonymous_file : string :=
  field "Description" "fix foo" +:+ Str.NL +:+ "+foo".
Definition both_file : string :=
  field "Author" "John Doe <john@example.org>"
  +:+ field "From" "Jane Roe <jane@example.org>" +:+ Str.NL +:+ "+foo".
Definition bare_author_file : string :=
  field "Author" "John Doe"
  +:+ field "From" "Jane Roe <jane@example.org>" +:+ Str.NL +:+ "+foo".
Definition bare_file : string :=
  field "Description" "fix foo" +:+ field "Author" "John Doe"
  +:+ Str.NL +:+ "+foo".

(** The opened repository with two patch files queued in [generic]. *)
Definition queued : world :=
  set_patches
    (Some {[ "generic" :=
               Dir {[ "0001-fix-foo" := anonymous_file;
                      "0002-fix-bar" := author_file ]} ]})
    opened.

(** A patch queue in the layout of the exporter: one generic patch and
    one patch for version 1.2.3. *)
Definition foo_meta : Deb822.meta :=
  [("Description", "fix foo"); ("Author", "John Doe <john@example.org>")].

Definition bar_meta : Deb822.meta :=
  [("Description", "fix bar"); ("Author", "Jane Roe <jane@example.org>")].

Definition foo_file : string :=
  Deb822.encode foo_meta +:+ Str.NL +:+ Str.NL +:+ "+foo".

Definition bar_file : string :=
  Deb822.encode bar_meta +:+ Str.NL +:+ Str.NL +:+ "+bar".

Definition start_patches : gmap string node :=
  {[ "generic" := Dir {[ "0001-fix-foo" := foo_file ]};
     "1.2.3" := Dir {[ "0001-fix-bar" := bar_file ]} ]}.

Definition roundtrip_start : world :=
  set_patches (Some start_patches) opened.

(** The root commit of [opened]. *)
Definition root : commit :=
  Commit [] (Signature "Bob" "bob@example.org")
    (Signature "Bob" "bob@example.org") "Initial commit" ∅.

(** That queue imported with a working [patch] ... *)
Definition imported : world :=
  (import_patches patch_last_line "1.2.3" roundtrip_start).2.

(** ... and with a [patch] that rejects every hunk. *)
Definition imported_rejected : world :=
  (import_patches patch_reject "1.2.3" roundtrip_start).2.

(** The imported queue next to the patches of another version. *)
Definition crowded : world :=
  set_patches
    (Some (<["1.0.0" := Dir {[ "0001-old-fix" := foo_file ]}]>
             (default ∅ (patches imported))))
    imported.

(** A patch file whose metadata block has a line without colon, a queue
    that holds it between two good patches, and a history with a commit
    whose message carries such a block. *)
Definition broken_file : string :=
  "no colon here" +:+ Str.NL +:+ "+foo".

Definition broken_queue : world :=
  set_patches
    (Some {[ "generic" :=
               Dir {[ "0001-fix-foo" := anonymous_file;
                      "0002-broken" := broken_file;
                      "0003-fix-bar" := author_file ]} ]})
    opened.

Definition broken_history : world :=
  World
    (Repository
       (odb (repo opened) ++
        [Commit [0%nat] (Signature "Bob" "bob@example.org")
           (Signature "Bob" "bob@example.org")
           ("broken" +:+ Str.NL +:+ Str.NL +:+ "no colon here") ∅])
       (Some 1%nat) ∅ ∅)
    None true.

(** The imported queue with an edit of [a.txt] in the working tree. *)
Definition edited : world :=
  let r := repo imported in
  set_repo (Repository (odb r) (head r) (index r)
              (<["a.txt" := "+feature"]> (worktree r))) imported.

(** The head commit of [edited] and the index once [a.txt] is staged. *)
Definition edited_head : commit :=
  Eval vm_compute in
    default (Commit [] (Signature "" "") (Signature "" "") "" ∅)
            (odb (repo edited) !! 2%nat).

Definition edited_index : files :=
  Eval vm_compute in
    default ∅ (stage (worktree (repo edited)) (index (repo edited)) ["a.txt"]).

(** The world after that edit was committed and exported on 2021-06-01. *)
Definition edited_exported : world :=
  Eval vm_compute in
    (commit_export diff_a_txt "2021-06-01" 5 "add-feature" "A" "a@x.com"
       "adds feature" ["a.txt"] edited).2.

End Example.

(* ===================================================================== *)
(** * Reading patch files, and the invariant of the repository            *)
(* ===================================================================== *)

(** [open(patch, 'rb').read()] for the file [name] of subdirectory [d] of
    the patches directory. *)
Definition read_file (d name : string) : M string := λ w,
  match entry w d with
  | Some (Dir es) =>
      match es !! name with
      | Some content => (Ok content, w)
      | None => (Raise OSError, w)
      end
  | _ => (Raise OSError, w)
  end.

(** [parse_patch] *)
Definition parse_patch (d name : string) : M Deb822.meta :=
  content ← read_file d name;
  lift (Deb822.decode content).

(** A repository whose parents are older objects and whose head, when the
    branch is born, is in the object store. *)
Definition repo_ok (r : repository) : Prop :=
  store_ok (odb r) ∧ ∀ h, head r = Some h → (h < length (odb r))%nat.

(** [store_ok] as a computation. *)
Definition store_okb (db : list commit) : bool :=
  forallb (λ ic : nat * commit, forallb (λ p, p <? ic.1)%nat (parents ic.2))
          (imap (λ i c, (i, c)) db).

(** A computation that leaves a component of the world as it was, however
    it ends. *)
Definition preserves {X A} (f : world → X) (m : M A) : Prop :=
  ∀ w r w', m w = (r, w') → f w' = f w.

(** A computation that only appends to the object store and keeps the
    repository well formed, however it ends. *)
Definition grows {A} (m : M A) : Prop :=
  ∀ w r w', m w = (r, w') →
    odb (repo w) `prefix_of` odb (repo w') ∧
    (repo_ok (repo w) → repo_ok (repo w')).

(** The patches directory, as [import_patches] sees it. *)
Definition patches_state (w : world) : option (gmap string node) * bool :=
  (patches w, parent_dir w).

(** The history, as the index operations see it. *)
Definition history (w : world) : list commit * option nat :=
  (odb (repo w), head (repo w)).

Section Imported.
Variable patch_cmd : string → files → Z * files.

(** The patch files of subdirectory [d], in the order
    [_import_patches_subdir] applies them, each with its subdirectory. *)
Definition queue_of (w : world) (d : string) : list (string * string * string) :=
  (λ p, (d, p.1, p.2)) <$>
    match entry w d with
    | Some (Dir es) => sorted_entries es
    | _ => []
    end.

(** The patch files in the order [import_patches] applies them. *)
Definition import_queue (version : string) (w : world)
    : list (string * string * string) :=
  queue_of w "generic" ++ queue_of w version.

(** Commit [c] is what the import makes of the patch file [f]: the title
    from the file name, the author and the metadata from the file. *)
Definition imports_as (f : string * string * string) (c : commit) : Prop :=
  let '(d, name, content) := f in
  ∃ i title m a e m',
    Str.split_max "-" 1 name = [i; title] ∧
    Deb822.decode content = Ok m ∧
    resolve_author m = Ok (a, e, m') ∧
    author c = Signature a e ∧
    message c =
      title +:+ Str.NL +:+ Str.NL +:+
      Deb822.encode (if decide (d = "generic")
                     then Deb822.set "Generic" "yes" m' else m').

(** [_apply_patch] on a patch file given with its subdirectory. *)
Definition apply_file (f : string * string * string) : M unit :=
  _apply_patch patch_cmd f.1.1 f.1.2 f.2.

(** Each commit of [cs] has one parent: the first [h], the next ones the
    commit before, whose ids start at [base]. *)
Fixpoint chained (h base : nat) (cs : list commit) : Prop :=
  match cs with
  | [] => True
  | c :: cs' => parents c = [h] ∧ chained base (S base) cs'
  end.

End Imported.

(* ===================================================================== *)
(** * More concrete states                                                *)
(* ===================================================================== *)

Module Sample.

(** A queue with a stray file next to a patch. *)
Definition stray_queue : world :=
  set_patches
    (Some {[ "generic" :=
               Dir {[ "0001-fix-foo" := Example.anonymous_file;
                      "README" := Example.author_file ]} ]})
    Example.opened.

(** The opened repository next to stale patch files. *)
Definition stale : world :=
  set_patches (Some (<["1.0.0" := Dir {[ "0001-old-fix" := Example.foo_file ]}]>
                       Example.start_patches))
    Example.opened.

End Sample.

Section Written.
Variable git_diff : files → files → option string.

(** The number of commits of partition [g] in a list that have a
    non-empty diff against their first parent. *)
Definition written_in (db : list commit) (g : bool) (cs : list commit) : nat :=
  length (filter (λ c, generic_commit c = g ∧
                       truthy (diff_of git_diff db c) = true) cs).

End Written.

Module Sample2.

(** A patch file that marks itself generic. *)
Definition marked_file : string :=
  Example.field "Description" "fix foo" +:+ Example.field "Generic" "yes"
  +:+ Str.NL +:+ "+foo".

End Sample2.

(** The field [parse_lines] is reading, when there is one, has a
    well-formed key and a value that fits the line format. *)
Definition field_of (cur : option (string * string)) : Prop :=
  match cur with
  | None => True
  | Some (k, c) => Deb822.key_ok k = true ∧ Deb822.value_ok c = true
  end.

Section ExportList.
Variable git_diff : files → files → option string.

(** The patch file [_export_commit] writes for a commit at index [idx]:
    its name and its content, or nothing when the diff is empty. *)
Definition export_entry (db : list commit) (idx : Z) (c : commit)
    : list (string * string) :=
  match commit_meta c, diff_of git_diff db c with
  | Ok m, Some (String x d) => [(patch_name idx c, patch_text c m (String x d))]
  | _, _ => []
  end.

(** The patch files of partition [g] in the order the second loop of
    [export_queue] writes them: newest commit first, each at the index
    that is the number of commits of the partition not newer than it. *)
Fixpoint export_list (db : list commit) (g : bool) (cs : list commit)
    : list (string * string) :=
  match cs with
  | [] => []
  | c :: cs' =>
      (if decide (generic_commit c = g)
       then export_entry db (count_in g (c :: cs')) c else [])
      ++ export_list db g cs'
  end.

End ExportList.

(** The order of [sorted(patches_subdir.iterdir())] on the entries of a
    directory, and its strict part. *)
Definition name_le (a b : string * string) : Prop := String.le a.1 b.1.

Definition name_lt (a b : string * string) : Prop :=
  String.compare a.1 b.1 = Lt.

Section Reimported.
Variable git_diff : files → files → option string.

(** The commits of partition [g] in a list (newest first) that get a
    patch file, oldest first. *)
Definition written_commits (db : list commit) (g : bool) (cs : list commit)
    : list commit :=
  reverse (filter (λ c, generic_commit c = g ∧
                        truthy (diff_of git_diff db c) = true) cs).

End Reimported.

(** A commit whose patch file gives back its author: the name is not
    empty and does not start with a blank, the email is not empty and has
    no [<], neither has a newline, and the metadata have no field
    [From]. *)
Definition reimportable (c : commit) : bool :=
  let a := sig_name (author c) in
  let e := sig_email (author c) in
  bool_decide (a ≠ "") && bool_decide (e ≠ "") &&
  negb (Str.starts_blank a) && negb (Str.mem Str.nl a) &&
  negb (Str.mem Str.nl e) && negb (Str.mem "<" e) &&
  match commit_meta c with
  | Ok m => negb (Deb822.has "From" m)
  | Raise _ => true
  end.

(** The metadata of the commit that the import of a patch file from
    subdirectory [d] creates, when the file was exported for a commit with
    metadata [m]. *)
Definition reimported_meta (d : string) (m : Deb822.meta) : Deb822.meta :=
  let m0 := Deb822.del "Author" (Deb822.del "Generic" m) in
  if decide (d = "generic") then Deb822.set "Generic" "yes" m0 else m0.

(** Commit [k] is what the import from subdirectory [d] makes of the
    patch file of commit [c]. *)
Definition restores (d : string) (c k : commit) : Prop :=
  author k = author c ∧ commit_title k = commit_title c ∧
  ∃ m, commit_meta c = Ok m ∧ commit_meta k = Ok (reimported_meta d m).

(** A patch file with its subdirectory, as in [import_queue]. *)
Definition in_dir (d : string) (p : string * string)
    : string * string * string := (d, p.1, p.2).



(* ===================================================================== *)
(** * Facts about strings                                                 *)
(* ===================================================================== *)

Module StrFacts.
Import Str.

Lemma sapp_cons c (a b : string) : String c a +:+ b = String c (a +:+ b).
Proof. reflexivity. Qed.

Lemma sapp_nil_l (a : string) : "" +:+ a = a.
Proof. reflexivity. Qed.

Lemma sapp_nil_r (a : string) : a +:+ "" = a.
Proof. induction a as [|c a IH]; [done|]. by rewrite sapp_cons, IH. Qed.

Lemma sapp_assoc (a b c : string) : (a +:+ b) +:+ c = a +:+ (b +:+ c).
Proof. induction a as [|x a IH]; [done|]. by rewrite !sapp_cons, IH. Qed.

Lemma cut_app sep a b :
  mem sep a = false → cut sep (a +:+ String sep b) = Some (a, b).
Proof.
  induction a as [|c a IH]; intros H.
  - rewrite sapp_nil_l. simpl. by rewrite Ascii.eqb_refl.
  - simpl in H. apply orb_false_iff in H as [Hc Ha].
    rewrite sapp_cons. simpl. rewrite Hc, (IH Ha). done.
Qed.

Lemma cut_None sep a : mem sep a = false → cut sep a = None.
Proof.
  induction a as [|c a IH]; simpl; [done|]. intros H.
  apply orb_false_iff in H as [Hc Ha]. by rewrite Hc, (IH Ha).
Qed.

Lemma split_on_ne sep s : split_on sep s ≠ [].
Proof.
  induction s as [|c s IH]; simpl; [done|].
  destruct (Ascii.eqb c sep); [done|]. by destruct (split_on sep s).
Qed.

Lemma split_on_no_sep sep s : mem sep s = false → split_on sep s = [s].
Proof.
  induction s as [|c s IH]; simpl; [done|]. intros H.
  apply orb_false_iff in H as [Hc Hs]. by rewrite Hc, (IH Hs).
Qed.

Lemma split_on_app sep a b :
  split_on sep (a +:+ String sep b) = split_on sep a ++ split_on sep b.
Proof.
  induction a as [|c a IH].
  - rewrite sapp_nil_l. simpl. by rewrite Ascii.eqb_refl.
  - rewrite sapp_cons. simpl. destruct (Ascii.eqb c sep); [by rewrite IH|].
    rewrite IH. pose proof (split_on_ne sep a).
    by destruct (split_on sep a).
Qed.

Lemma split_on_prefix sep p s :
  mem sep p = false →
  split_on sep (p +:+ s) =
    match split_on sep s with
    | l :: ls => (p +:+ l) :: ls
    | [] => [p]
    end.
Proof.
  induction p as [|c p IH]; intros H.
  - rewrite !sapp_nil_l. pose proof (split_on_ne sep s).
    by destruct (split_on sep s).
  - simpl in H. apply orb_false_iff in H as [Hc Hp].
    rewrite sapp_cons. simpl. rewrite Hc, (IH Hp).
    pose proof (split_on_ne sep s). by destruct (split_on sep s).
Qed.

Lemma split_on_mem sep s l :
  l ∈ split_on sep s → mem sep l = false.
Proof.
  revert l. induction s as [|c s IH]; simpl; intros l Hl.
  - apply list_elem_of_singleton in Hl as ->. done.
  - destruct (Ascii.eqb c sep) eqn:Hc.
    + apply elem_of_cons in Hl as [->|Hl]; [done|]. by apply IH.
    + destruct (split_on sep s) as [|l0 ls] eqn:Hs.
      * apply list_elem_of_singleton in Hl as ->. simpl. by rewrite Hc.
      * apply elem_of_cons in Hl as [->|Hl].
        -- simpl. rewrite Hc. simpl. apply IH. by left.
        -- apply IH. by right.
Qed.

Lemma join_split_on sep s : join (String sep "") (split_on sep s) = s.
Proof.
  induction s as [|c s IH]; simpl; [done|].
  destruct (Ascii.eqb_spec c sep) as [->|Hne].
  - pose proof (split_on_ne sep s).
    destruct (split_on sep s) as [|l ls]; [done|].
    change (String sep (join (String sep "") (l :: ls)) = String sep s).
    by rewrite IH.
  - destruct (split_on sep s) as [|l ls] eqn:Hs; [by destruct (split_on_ne sep s)|].
    destruct ls as [|l' ls]; [by simpl in *; rewrite IH|].
    change (String c (join (String sep "") (l :: l' :: ls)) = String c s).
    by rewrite IH.
Qed.

Lemma split_max_2 sep a b c :
  mem sep a = false → mem sep b = false →
  split_max sep 2 (a +:+ String sep (b +:+ String sep c)) = [a; b; c].
Proof. intros Ha Hb. simpl. by rewrite (cut_app _ _ _ Ha), (cut_app _ _ _ Hb). Qed.

Lemma mem_app c a b : mem c (a +:+ b) = mem c a || mem c b.
Proof.
  induction a as [|x a IH]; [done|].
  rewrite sapp_cons. simpl. by rewrite IH, orb_assoc.
Qed.

End StrFacts.

(* ===================================================================== *)
(** * The metadata codec                                                  *)
(* ===================================================================== *)

Module CodecFacts.
Import Str StrFacts Deb822.

Lemma has_elem_of k (m : meta) : has k m = true ↔ k ∈ m.*1.
Proof.
  induction m as [|[k' v] m IH]; simpl.
  - split; [done|]. by intros ?%elem_of_nil.
  - case_decide as Hk; subst.
    + split; [|done]. intros _. by left.
    + rewrite IH. split; [by right|].
      intros [?|?]%elem_of_cons; [by subst|done].
Qed.

Lemma has_false k (m : meta) : has k m = false ↔ k ∉ m.*1.
Proof.
  rewrite <- has_elem_of. destruct (has k m); split; done.
Qed.

Lemma set_fresh k v (m : meta) : k ∉ m.*1 → set k v m = m ++ [(k, v)].
Proof.
  induction m as [|[k' v'] m IH]; simpl; [done|]. intros H.
  apply not_elem_of_cons in H as [Hne Hm].
  case_decide; [by subst|]. by rewrite IH.
Qed.

Lemma foldl_set_fresh (m1 m2 : meta) :
  NoDup ((m1 ++ m2).*1) →
  foldl (λ m kv, set kv.1 kv.2 m) m1 m2 = m1 ++ m2.
Proof.
  revert m1. induction m2 as [|[k v] m2 IH]; intros m1 Hnd; simpl.
  - by rewrite app_nil_r.
  - rewrite set_fresh.
    + rewrite IH; [by rewrite <- app_assoc|]. by rewrite <- app_assoc.
    + rewrite fmap_app in Hnd. apply NoDup_app in Hnd as (_ & Hd & _).
      intros Hin. apply (Hd k Hin). by left.
Qed.

Lemma key_ok_nl k : key_ok k = true → mem nl k = false.
Proof.
  destruct k as [|c k]; [done|]. unfold key_ok.
  generalize (String c k). clear. intros s.
  induction s as [|c s IH]; simpl; [done|].
  intros [Hc Hs]%andb_true_iff. rewrite (IH Hs), orb_false_r.
  unfold key_char in Hc. apply andb_true_iff in Hc as [_ Hc].
  by apply negb_true_iff in Hc.
Qed.

Lemma key_ok_colon k : key_ok k = true → mem ":" k = false.
Proof.
  destruct k as [|c k]; [done|]. unfold key_ok.
  generalize (String c k). clear. intros s.
  induction s as [|c s IH]; simpl; [done|].
  intros [Hc Hs]%andb_true_iff. rewrite (IH Hs), orb_false_r.
  unfold key_char in Hc. apply andb_true_iff in Hc as [Hc _].
  apply andb_true_iff in Hc as [Hc _]. by apply negb_true_iff in Hc.
Qed.

Lemma key_ok_starts k s : key_ok k = true → starts_blank (k +:+ s) = false.
Proof.
  destruct k as [|c k]; [done|]. intros Hk. simpl in Hk.
  apply andb_true_iff in Hk as [Hc _].
  rewrite sapp_cons. simpl. unfold key_char in Hc.
  apply andb_true_iff in Hc as [Hc _]. apply andb_true_iff in Hc as [_ Hc].
  by apply negb_true_iff in Hc.
Qed.

Lemma key_ok_nonempty k s : key_ok k = true → k +:+ s ≠ "".
Proof. destruct k; [done|]. by rewrite sapp_cons. Qed.

Lemma lstrip_id l : starts_blank l = false → lstrip l = l.
Proof. destruct l as [|c l]; [done|]. simpl. by intros ->. Qed.

Lemma split_field_line k l :
  key_ok k = true → starts_blank l = false →
  split_field (k +:+ ": " +:+ l) = Some (k, l).
Proof.
  intros Hk Hl. unfold split_field.
  change (k +:+ ": " +:+ l) with (k +:+ String ":" (String " " l)).
  rewrite (cut_app _ _ _ (key_ok_colon _ Hk)), Hk.
  change (lstrip (String " " l)) with (lstrip l). by rewrite lstrip_id.
Qed.

Lemma join_cons_app a l ls :
  join NL ((a +:+ NL +:+ l) :: ls) = a +:+ NL +:+ join NL (l :: ls).
Proof.
  destruct ls as [|x xs]; [done|].
  change (((a +:+ NL +:+ l) +:+ NL +:+ join NL (x :: xs)) =
          a +:+ NL +:+ (l +:+ NL +:+ join NL (x :: xs))).
  by rewrite !sapp_assoc.
Qed.

(** Continuation lines extend the field being read. *)
Lemma parse_continuations conts R m k c :
  forallb starts_blank conts = true →
  parse_lines (conts ++ R) m (Some (k, c)) =
  parse_lines R m (Some (k, join NL (c :: conts))).
Proof.
  revert c. induction conts as [|l ls IH]; intros c Hc; [done|].
  simpl in Hc. apply andb_true_iff in Hc as [Hl Hls].
  change (join NL (c :: l :: ls)) with (c +:+ NL +:+ join NL (l :: ls)).
  rewrite <- join_cons_app, <- (IH _ Hls).
  change ((l :: ls) ++ R) with (l :: (ls ++ R)).
  simpl. rewrite Hl. case_decide as Hemp; [by subst|]. done.
Qed.

(** The lines of one encoded field are read back as that field. *)
Lemma parse_field k v R m cur :
  key_ok k = true → value_ok v = true →
  parse_lines (split_on nl (k +:+ ": " +:+ v) ++ R) m cur =
  parse_lines R (flush cur m) (Some (k, v)).
Proof.
  intros Hk Hv. unfold value_ok in Hv.
  assert (Hp : mem nl (k +:+ ": ") = false).
  { by rewrite mem_app, (key_ok_nl _ Hk). }
  rewrite <- sapp_assoc, (split_on_prefix _ _ _ Hp).
  pose proof (join_split_on nl v) as Hj.
  destruct (split_on nl v) as [|l0 conts]; [done|].
  apply andb_true_iff in Hv as [Hl0 Hconts]. apply negb_true_iff in Hl0.
  change (((k +:+ ": ") +:+ l0) :: conts ++ R)
    with (((k +:+ ": ") +:+ l0) :: (conts ++ R)).
  rewrite sapp_assoc. simpl.
  case_decide as Hemp; [by apply key_ok_nonempty in Hemp|].
  rewrite (key_ok_starts _ _ Hk), (split_field_line _ _ Hk Hl0).
  rewrite (parse_continuations _ _ _ _ _ Hconts).
  change (String nl "") with NL in Hj. by rewrite Hj.
Qed.

(** Reading an encoded mapping, whatever follows the empty line. *)
Lemma parse_encode (m2 : meta) R m1 cur :
  forallb field_ok m2 = true →
  (R = "" ∨ ∃ R', R = String nl R') →
  parse_lines (split_on nl (encode m2 +:+ R)) m1 cur =
  Ok (foldl (λ m kv, set kv.1 kv.2 m) m1 (option_list cur ++ m2)).
Proof.
  revert m1 cur. induction m2 as [|[k v] m2 IH]; intros m1 cur Hok HR.
  - simpl encode. rewrite sapp_nil_l, app_nil_r.
    assert (∃ ls, split_on nl R = "" :: ls) as [ls ->].
    { destruct HR as [->|[R' ->]]; simpl; eauto. }
    simpl. destruct cur as [[k c]|]; done.
  - simpl in Hok. apply andb_true_iff in Hok as [Hf Hok].
    apply andb_true_iff in Hf as [Hk Hv]. simpl in Hk, Hv.
    simpl encode.
    replace ((k +:+ ": " +:+ v +:+ NL +:+ encode m2) +:+ R)
      with ((k +:+ ": " +:+ v) +:+ String nl (encode m2 +:+ R)).
    2:{ unfold NL. rewrite !sapp_assoc. done. }
    rewrite split_on_app, (parse_field _ _ _ _ _ Hk Hv), (IH _ _ Hok HR).
    f_equal. destruct cur as [[k' c']|]; simpl; done.
Qed.

Lemma decode_encode_rest (m : meta) R :
  valid m → (R = "" ∨ ∃ R', R = String nl R') →
  decode (encode m +:+ R) = Ok m.
Proof.
  intros [Hnd Hok] HR. unfold decode.
  rewrite (parse_encode _ _ _ _ Hok HR). simpl.
  by rewrite foldl_set_fresh.
Qed.

Lemma decode_encode (m : meta) : valid m → decode (encode m) = Ok m.
Proof.
  intros Hv. rewrite <- (sapp_nil_r (encode m)).
  apply decode_encode_rest; auto.
Qed.

End CodecFacts.

(* ===================================================================== *)
(** * Running methods                                                     *)
(* ===================================================================== *)

Section Run.
Context {A B : Type}.

Lemma bind_ok (m : M A) (f : A → M B) w a w' :
  m w = (Ok a, w') → (m ≫= f) w = f a w'.
Proof. unfold mbind, M_bind. by intros ->. Qed.

Lemma bind_raise (m : M A) (f : A → M B) w e w' :
  m w = (Raise e, w') → (m ≫= f) w = (Raise e, w').
Proof. unfold mbind, M_bind. by intros ->. Qed.

Lemma bind_inv_ok (m : M A) (f : A → M B) w b w2 :
  (m ≫= f) w = (Ok b, w2) → ∃ a w1, m w = (Ok a, w1) ∧ f a w1 = (Ok b, w2).
Proof.
  unfold mbind, M_bind. destruct (m w) as [[a|e] w1]; [eauto|done].
Qed.
End Run.

Lemma for_each_app {A} (body : A → M unit) xs ys w w1 :
  for_each body xs w = (Ok tt, w1) →
  for_each body (xs ++ ys) w = for_each body ys w1.
Proof.
  revert w. induction xs as [|x xs IH]; intros w H; simpl in *.
  - by inversion H.
  - apply bind_inv_ok in H as ([] & w0 & Hx & Hxs).
    rewrite (bind_ok _ _ _ _ _ Hx). by apply IH.
Qed.

Lemma for_each_raise {A} (body : A → M unit) x xs e w w1 :
  body x w = (Raise e, w1) → for_each body (x :: xs) w = (Raise e, w1).
Proof. intros H. simpl. by rewrite (bind_raise _ _ _ _ _ H). Qed.

Section Steps.
Variable patch_cmd : string → files → Z * files.
Variable git_diff : files → files → option string.

Lemma commit_all_ok a email title m w h :
  head (repo w) = Some h →
  _commit a email title m None w =
    (Ok tt,
     set_repo (committed [h] a email
                 (title +:+ Str.NL +:+ Str.NL +:+ Deb822.encode m)
                 (worktree (repo w)) (repo w)) w).
Proof.
  intros Hh. unfold _commit, head_name, head_target, _base_commit,
    index_add_all, write_tree, create_commit, mbind, M_bind, mret, M_ret.
  simpl. repeat (rewrite Hh; simpl). rewrite bool_decide_eq_true_2 by done.
  done.
Qed.

Lemma commit_unborn a email title m fs w :
  head (repo w) = None →
  _commit a email title m fs w = (Raise GitError, w).
Proof.
  intros Hh. unfold _commit, head_name, head_target, mbind, M_bind.
  by rewrite Hh.
Qed.

Lemma apply_patch_ok d name content w i title m a email m' h :
  Str.split_max "-" 1 name = [i; title] →
  Deb822.decode content = Ok m →
  resolve_author m = Ok (a, email, m') →
  head (repo w) = Some h →
  _apply_patch patch_cmd d name content w =
    (Ok tt, applied patch_cmd d content title a email m' h w).
Proof.
  intros Hn Hd Ha Hh. unfold _apply_patch. rewrite Hn.
  unfold mbind at 1, M_bind at 1, mret, M_ret.
  unfold lift, mbind at 1, M_bind at 1. rewrite Hd.
  unfold mbind at 1, M_bind at 1. rewrite Ha.
  unfold mbind at 1, M_bind at 1, run_patch.
  destruct (patch_cmd content (worktree (repo w))) as [st wt] eqn:Hp.
  rewrite (commit_all_ok _ _ _ _ _ h) by done.
  unfold applied. rewrite Hp. destruct w as [[] ? ?]; done.
Qed.
End Steps.

(* ===================================================================== *)
(** * C7: the round-trip law of the codec                                 *)
(* ===================================================================== *)

(** C7. For every valid metadata mapping [m], decoding the canonical
    encoding of [m] yields [m] again, and the encoding is stable: equal
    inputs give equal texts, and the mapping read back encodes to the same
    text. *)
Theorem C7_decode_encode (m : Deb822.meta) :
  Deb822.valid m →
  Deb822.decode (Deb822.encode m) = Ok m ∧
  (∀ m1 m2, m1 = m → m2 = m → Deb822.encode m1 = Deb822.encode m2) ∧
  (∀ m', Deb822.decode (Deb822.encode m) = Ok m' →
         Deb822.encode m' = Deb822.encode m).
Proof.
  intros Hv. pose proof (CodecFacts.decode_encode m Hv) as Hd.
  split; [done|]. split; [by intros ?? -> ->|].
  intros m' Hm'. rewrite Hd in Hm'. by inversion Hm'.
Qed.

Lemma C7_decode_encode_witness :
  let m := [("Description", "Fix foo" +:+ Str.NL +:+ " in two lines");
            ("Forwarded", "no"); ("Last-Update", "2021-06-01");
            ("Author", "John Doe <john@example.org>")] in
  Deb822.valid m ∧ Deb822.decode (Deb822.encode m) = Ok m.
Proof.
  intros m.
  assert (Hv : Deb822.valid m) by (split; [by compute_done|reflexivity]).
  split; [exact Hv|]. exact (proj1 (C7_decode_encode m Hv)).
Defined.

(* ===================================================================== *)
(** * C8, C9: the author of an imported patch                             *)
(* ===================================================================== *)

Section Author.
Variable patch_cmd : string → files → Z * files.

Lemma find_author_key_spec (m : Deb822.meta) :
  find_author_key m =
    if Deb822.has "From" m then Some "From"
    else if Deb822.has "Author" m then Some "Author" else None.
Proof.
  unfold find_author_key. simpl.
  by destruct (Deb822.has "From" m), (Deb822.has "Author" m).
Qed.

Lemma apply_patch_raise_author d name content w i title m :
  Str.split_max "-" 1 name = [i; title] →
  Deb822.decode content = Ok m →
  resolve_author m = Raise AttributeError →
  _apply_patch patch_cmd d name content w = (Raise AttributeError, w).
Proof.
  intros Hn Hd Ha. unfold _apply_patch. rewrite Hn.
  unfold mbind at 1, M_bind at 1, mret, M_ret.
  unfold lift, mbind at 1, M_bind at 1. rewrite Hd.
  unfold mbind at 1, M_bind at 1. by rewrite Ha.
Qed.
End Author.

(** C8 (amended). When a patch file is imported, the author identity is
    taken from the [From] key if present, else from the [Author] key if
    present, the value being matched against [Name <email>]; if neither
    key is present the placeholder identity
    ["Unknown Author" <unknown@email.com>] is used without error; the key
    the identity was taken from is removed from the metadata before the
    commit is created. *)
Theorem C8_author_identity (patch_cmd : string → files → Z * files)
    (d name i title content : string) (m : Deb822.meta) (w : world) (h : nat) :
  Str.split_max "-" 1 name = [i; title] →
  Deb822.decode content = Ok m →
  head (repo w) = Some h →
  (∀ a e, Deb822.has "From" m = true →
     Re.rmatch Re.author_pattern (default "" (Deb822.get "From" m)) = Some [a; e] →
     _apply_patch patch_cmd d name content w =
       (Ok tt, applied patch_cmd d content title a e (Deb822.del "From" m) h w)) ∧
  (∀ a e, Deb822.has "From" m = false → Deb822.has "Author" m = true →
     Re.rmatch Re.author_pattern (default "" (Deb822.get "Author" m)) = Some [a; e] →
     _apply_patch patch_cmd d name content w =
       (Ok tt, applied patch_cmd d content title a e (Deb822.del "Author" m) h w)) ∧
  (Deb822.has "From" m = false → Deb822.has "Author" m = false →
     _apply_patch patch_cmd d name content w =
       (Ok tt, applied patch_cmd d content title
                 "Unknown Author" "unknown@email.com" m h w)).
Proof.
  intros Hn Hd Hh. repeat split.
  - intros a e Hf Hm. apply (apply_patch_ok _ _ _ _ _ i _ m); try done.
    unfold resolve_author. by rewrite find_author_key_spec, Hf, Hm.
  - intros a e Hf Ha Hm. apply (apply_patch_ok _ _ _ _ _ i _ m); try done.
    unfold resolve_author. by rewrite find_author_key_spec, Hf, Ha, Hm.
  - intros Hf Ha. apply (apply_patch_ok _ _ _ _ _ i _ m); try done.
    unfold resolve_author. by rewrite find_author_key_spec, Hf, Ha.
Qed.

Lemma C8_author_identity_witness :
  _apply_patch Example.patch_last_line "generic" "0001-fix-foo"
      Example.from_file Example.opened =
    (Ok tt, applied Example.patch_last_line "generic" Example.from_file "fix-foo"
              "Jane Roe" "jane@example.org" [("Description", "fix foo")] 0
              Example.opened) ∧
  _apply_patch Example.patch_last_line "1.2.3" "0001-fix-foo"
      Example.author_file Example.opened =
    (Ok tt, applied Example.patch_last_line "1.2.3" Example.author_file "fix-foo"
              "John Doe" "john@example.org" [("Forwarded", "no")] 0
              Example.opened) ∧
  _apply_patch Example.patch_last_line "1.2.3" "0001-fix-foo"
      Example.anonymous_file Example.opened =
    (Ok tt, applied Example.patch_last_line "1.2.3" Example.anonymous_file "fix-foo"
              "Unknown Author" "unknown@email.com" [("Description", "fix foo")] 0
              Example.opened).
Proof.
  split; [|split].
  - apply (proj1 (C8_author_identity Example.patch_last_line "generic"
      "0001-fix-foo" "0001" "fix-foo" Example.from_file
      [("Description", "fix foo"); ("From", "Jane Roe <jane@example.org>")]
      Example.opened 0 eq_refl eq_refl eq_refl)); reflexivity.
  - apply (proj1 (proj2 (C8_author_identity Example.patch_last_line "1.2.3"
      "0001-fix-foo" "0001" "fix-foo" Example.author_file
      [("Author", "John Doe <john@example.org>"); ("Forwarded", "no")]
      Example.opened 0 eq_refl eq_refl eq_refl))); reflexivity.
  - apply (proj2 (proj2 (C8_author_identity Example.patch_last_line "1.2.3"
      "0001-fix-foo" "0001" "fix-foo" Example.anonymous_file
      [("Description", "fix foo")]
      Example.opened 0 eq_refl eq_refl eq_refl))); reflexivity.
Defined.

(** The claim C8 as stated fails when both keys are present: the identity
    comes from [From], and [Author] stays in the metadata of the commit. *)
Lemma C8_counterexample :
  ∃ m w',
    Deb822.decode Example.both_file = Ok m ∧
    Deb822.get "Author" m = Some "John Doe <john@example.org>" ∧
    _apply_patch Example.patch_last_line "1.2.3" "0001-fix-foo"
      Example.both_file Example.opened = (Ok tt, w') ∧
    (author <$> odb (repo w') !! 1%nat) =
      Some (Signature "Jane Roe" "jane@example.org") ∧
    (message <$> odb (repo w') !! 1%nat) =
      Some ("fix-foo" +:+ Str.NL +:+ Str.NL
            +:+ Example.field "Author" "John Doe <john@example.org>").
Proof.
  eexists _, _. split; [reflexivity|]. split; [reflexivity|].
  split; [vm_compute; reflexivity|]. split; reflexivity.
Qed.

(** C9 (amended). If the author field the import selects (the [From]
    field if present, else the [Author] field) has a value that does not
    match [Name <email>], importing that patch raises an unhandled
    [AttributeError] before anything is applied or committed, instead of
    falling back to the placeholder identity; the placeholder is used when
    both keys are absent. *)
Theorem C9_author_mismatch (patch_cmd : string → files → Z * files)
    (d name i title content key : string) (m : Deb822.meta) (w : world) :
  Str.split_max "-" 1 name = [i; title] →
  Deb822.decode content = Ok m →
  (Deb822.has "From" m = true ∧ key = "From") ∨
  (Deb822.has "From" m = false ∧ Deb822.has "Author" m = true ∧ key = "Author") →
  Re.rmatch Re.author_pattern (default "" (Deb822.get key m)) = None →
  _apply_patch patch_cmd d name content w = (Raise AttributeError, w) ∧
  ∀ m' a e rest, resolve_author m' = Ok (a, e, rest) →
    (Deb822.has "From" m' = false ∧ Deb822.has "Author" m' = false ∧
     (a, e, rest) = ("Unknown Author", "unknown@email.com", m')) ∨
    (∃ k, Deb822.has k m' = true ∧
          Re.rmatch Re.author_pattern (default "" (Deb822.get k m')) = Some [a; e] ∧
          rest = Deb822.del k m').
Proof.
  intros Hn Hd Hkey Hm. split.
  - apply (apply_patch_raise_author _ _ _ _ _ i title m); try done.
    unfold resolve_author. rewrite find_author_key_spec.
    destruct Hkey as [[Hf ->]|(Hf & Ha & ->)].
    + by rewrite Hf, Hm.
    + by rewrite Hf, Ha, Hm.
  - intros m' a e rest. unfold resolve_author. rewrite find_author_key_spec.
    destruct (Deb822.has "From" m') eqn:Hf; [|destruct (Deb822.has "Author" m') eqn:Ha].
    + destruct (Re.rmatch _ (default "" (Deb822.get "From" m')))
        as [[|a' [|e' [|]]]|] eqn:Hr; try done.
      intros ?; simplify_eq. right. by exists "From".
    + destruct (Re.rmatch _ (default "" (Deb822.get "Author" m')))
        as [[|a' [|e' [|]]]|] eqn:Hr; try done.
      intros ?; simplify_eq. right. by exists "Author".
    + intros ?; simplify_eq. by left.
Qed.

Lemma C9_author_mismatch_witness :
  _apply_patch Example.patch_last_line "1.2.3" "0001-fix-foo"
    Example.bare_file Example.opened = (Raise AttributeError, Example.opened).
Proof.
  refine (proj1 (C9_author_mismatch Example.patch_last_line "1.2.3" "0001-fix-foo"
           "0001" "fix-foo" Example.bare_file "Author"
           [("Description", "fix foo"); ("Author", "John Doe")] Example.opened
           eq_refl eq_refl _ _)).
  - right. split; [reflexivity|]. split; reflexivity.
  - reflexivity.
Defined.

(** The claim C9 as stated fails when a malformed [Author] field comes
    with a well-formed [From] field: nothing is raised. *)
Lemma C9_counterexample :
  ∃ m,
    Deb822.decode Example.bare_author_file = Ok m ∧
    Deb822.get "Author" m = Some "John Doe" ∧
    Re.rmatch Re.author_pattern "John Doe" = None ∧
    _apply_patch Example.patch_last_line "1.2.3" "0001-fix-foo"
      Example.bare_author_file Example.opened =
      (Ok tt, applied Example.patch_last_line "1.2.3" Example.bare_author_file
                "fix-foo" "Jane Roe" "jane@example.org"
                [("Author", "John Doe")] 0 Example.opened).
Proof.
  eexists. split; [reflexivity|]. split; [reflexivity|].
  split; [reflexivity|]. vm_compute. reflexivity.
Qed.

(* ===================================================================== *)
(** * C1: a failed patch application                                      *)
(* ===================================================================== *)

(** C1 (amended). During [import_patches] the exit status of the external
    patch application is not looked at: when it is non-zero for a patch
    file, no error is raised on that account; the commit for that file is
    still created, from whatever the working tree then holds, and the
    import goes on with the later patches of the sequence. *)
Theorem C1_exit_status_ignored (patch_cmd : string → files → Z * files)
    (d name i title content a e : string) (m m' : Deb822.meta)
    (w : world) (h : nat) (later : list (string * string)) :
  Str.split_max "-" 1 name = [i; title] →
  Deb822.decode content = Ok m →
  resolve_author m = Ok (a, e, m') →
  head (repo w) = Some h →
  (patch_cmd content (worktree (repo w))).1 ≠ 0 →
  let w' := applied patch_cmd d content title a e m' h w in
  _apply_patch patch_cmd d name content w = (Ok tt, w') ∧
  odb (repo w') =
    odb (repo w) ++
    [Commit [h] (Signature a e) (Signature a e)
       (title +:+ Str.NL +:+ Str.NL +:+
        Deb822.encode (if decide (d = "generic")
                       then Deb822.set "Generic" "yes" m' else m'))
       (patch_cmd content (worktree (repo w))).2] ∧
  for_each (λ p, _apply_patch patch_cmd d p.1 p.2) ((name, content) :: later) w =
  for_each (λ p, _apply_patch patch_cmd d p.1 p.2) later w'.
Proof.
  intros Hn Hd Ha Hh _ w'.
  pose proof (apply_patch_ok patch_cmd d name content w i title m a e m' h
                Hn Hd Ha Hh) as Hrun.
  split; [exact Hrun|]. split; [reflexivity|].
  simpl. by rewrite (bind_ok _ _ _ _ _ Hrun).
Qed.

Lemma C1_exit_status_ignored_witness :
  _apply_patch Example.patch_reject "generic" "0001-fix-foo"
    Example.anonymous_file Example.opened =
  (Ok tt, applied Example.patch_reject "generic" Example.anonymous_file "fix-foo"
            "Unknown Author" "unknown@email.com" [("Description", "fix foo")]
            0 Example.opened).
Proof.
  refine (proj1 (C1_exit_status_ignored Example.patch_reject "generic"
    "0001-fix-foo" "0001" "fix-foo" Example.anonymous_file
    "Unknown Author" "unknown@email.com" [("Description", "fix foo")]
    [("Description", "fix foo")] Example.opened 0 []
    eq_refl eq_refl eq_refl eq_refl _)).
  simpl. lia.
Defined.

(** The claim C1 as stated fails: with a [patch] that rejects every hunk
    and exits with status 1, the import of two queued patches returns
    normally and leaves a commit for each of them after the root. *)
Lemma C1_counterexample :
  (∀ content wt, (Example.patch_reject content wt).1 = 1) ∧
  ∃ w', import_patches Example.patch_reject "1.2.3" Example.queued = (Ok tt, w') ∧
        commit_title <$> odb (repo w') =
          ["Initial commit"; "fix-foo"; "fix-bar"] ∧
        head (repo w') = Some 2%nat.
Proof.
  split; [done|]. eexists. split; [vm_compute; reflexivity|].
  split; reflexivity.
Qed.

(* ===================================================================== *)
(** * Facts about patch file names                                        *)
(* ===================================================================== *)

Module FmtFacts.
Import Str StrFacts Fmt.

Lemma digit_code d : (d < 10)%nat → nat_of_ascii (digit d) = (48 + d)%nat.
Proof. intros H. unfold digit. apply nat_ascii_embedding. lia. Qed.

Lemma digit_is_digit d : (d < 10)%nat → is_digit (digit d) = true.
Proof.
  intros H. unfold is_digit. rewrite (digit_code _ H).
  apply andb_true_iff. split; apply Nat.leb_le; lia.
Qed.

Lemma mod10 n : (n mod 10 < 10)%nat.
Proof. apply Nat.mod_upper_bound. lia. Qed.

Lemma dec_go_S f n acc :
  dec_go (S f) n acc =
    if (n / 10 =? 0)%nat then String (digit (n mod 10)) acc
    else dec_go f (n / 10) (String (digit (n mod 10)) acc).
Proof. reflexivity. Qed.

Lemma read_go_cons c s a :
  read_go (String c s) a =
    if is_digit c then read_go s (10 * a + (nat_of_ascii c - 48))%nat else a.
Proof. reflexivity. Qed.

Lemma read_go_digit d s a :
  (d < 10)%nat → read_go (String (digit d) s) a = read_go s (10 * a + d)%nat.
Proof.
  intros H. rewrite read_go_cons, (digit_is_digit _ H), (digit_code _ H).
  f_equal. lia.
Qed.

(** Reading back what [dec_go] wrote. *)
Lemma read_dec_go fuel n acc :
  (n < fuel)%nat → read_go (dec_go fuel n acc) 0 = read_go acc n.
Proof.
  revert n acc. induction fuel as [|f IH]; intros n acc Hn; [lia|].
  rewrite dec_go_S. destruct (n / 10 =? 0)%nat eqn:Hq.
  - apply Nat.eqb_eq in Hq. rewrite (read_go_digit _ _ _ (mod10 n)).
    f_equal. pose proof (Nat.div_mod_eq n 10). lia.
  - apply Nat.eqb_neq in Hq.
    rewrite IH.
    + rewrite (read_go_digit _ _ _ (mod10 n)).
      f_equal. pose proof (Nat.div_mod_eq n 10). lia.
    + pose proof (Nat.div_mod_eq n 10). lia.
Qed.

Lemma dec_go_app fuel n acc :
  dec_go fuel n acc = dec_go fuel n "" +:+ acc.
Proof.
  revert n acc. induction fuel as [|f IH]; intros n acc; [done|].
  rewrite !dec_go_S. destruct (n / 10 =? 0)%nat; [done|].
  rewrite (IH _ (String _ acc)), (IH _ (String _ "")).
  by rewrite sapp_assoc.
Qed.

Lemma read_zeros k s : read_go (repeat_char "0" k +:+ s) 0 = read_go s 0.
Proof. induction k as [|k IH]; [done|]. simpl repeat_char. by rewrite sapp_cons. Qed.

Lemma read_str_of_nat n rest :
  read_go (str_of_nat n +:+ String "-" rest) 0 = n.
Proof.
  unfold str_of_nat. rewrite <- dec_go_app, read_dec_go by lia. done.
Qed.

(** The index read back from the name of an exported patch. *)
Lemma index_of_fmt04 i title :
  0 ≤ i → index_of (fmt04 i +:+ "-" +:+ title) = i.
Proof.
  intros Hi. unfold index_of, fmt04.
  destruct (i <? 0) eqn:Hneg; [apply Z.ltb_lt in Hneg; lia|].
  unfold pad0. rewrite sapp_assoc, read_zeros.
  change ("-" +:+ title) with (String "-" title).
  rewrite read_str_of_nat. lia.
Qed.

Lemma all_app p a b : all p (a +:+ b) = all p a && all p b.
Proof.
  induction a as [|c a IH]; [done|].
  rewrite sapp_cons. simpl. by rewrite IH, andb_assoc.
Qed.

Lemma all_dec_go fuel n acc :
  all name_char acc = true → all name_char (dec_go fuel n acc) = true.
Proof.
  revert n acc. induction fuel as [|f IH]; intros n acc Hacc; [done|].
  assert (all name_char (String (digit (n mod 10)) acc) = true) as Hs.
  { change (name_char (digit (n mod 10)) && all name_char acc = true).
    rewrite Hacc. unfold name_char.
    by rewrite (digit_is_digit _ (mod10 n)). }
  rewrite dec_go_S. destruct (n / 10 =? 0)%nat; [done|]. by apply IH.
Qed.

Lemma all_zeros k : all name_char (repeat_char "0" k) = true.
Proof. induction k as [|k IH]; [done|]. simpl. by rewrite IH. Qed.

Lemma all_fmt04 i : all name_char (fmt04 i) = true.
Proof.
  unfold fmt04, pad0, str_of_nat. destruct (i <? 0).
  - change (all name_char (String "-" ?s)) with (all name_char s).
    rewrite all_app, all_zeros. by apply all_dec_go.
  - rewrite all_app, all_zeros. by apply all_dec_go.
Qed.

Lemma all_mem p c s : all p s = true → p c = false → mem c s = false.
Proof.
  induction s as [|x s IH]; simpl; [done|].
  intros [Hx Hs]%andb_true_iff Hc. rewrite (IH Hs Hc), orb_false_r.
  destruct (Ascii.eqb_spec x c) as [->|]; [congruence|done].
Qed.

(** A patch name has a slash only if the title has one. *)
Lemma patch_name_slash i title :
  mem "/" title = false → mem "/" (fmt04 i +:+ "-" +:+ title) = false.
Proof.
  intros Ht. rewrite !mem_app, Ht, (all_mem _ _ _ (all_fmt04 i)); done.
Qed.

End FmtFacts.

(* ===================================================================== *)
(** * The export loops                                                    *)
(* ===================================================================== *)

Section ExportFacts.
Variable git_diff : files → files → option string.
Variable version : string.

Lemma set_patches_id w p : patches w = Some p → set_patches (Some p) w = w.
Proof. destruct w as [r q b]. simpl. by intros ->. Qed.

Lemma count_in_cons g c cs :
  count_in g (c :: cs) =
    (if decide (generic_commit c = g) then 1 else 0) + count_in g cs.
Proof.
  unfold count_in. rewrite filter_cons.
  case_decide; simpl length; lia.
Qed.

Lemma count_in_nonneg g cs : 0 ≤ count_in g cs.
Proof. unfold count_in. lia. Qed.

Lemma exportable_meta db c :
  exportable git_diff db c = true → ∃ m, commit_meta c = Ok m.
Proof. unfold exportable. destruct (commit_meta c); [eauto|done]. Qed.

Lemma count_loop_spec db cs ig iv w :
  forallb (exportable git_diff db) (visited cs) = true →
  count_loop cs ig iv w =
    (Ok (ig + count_in true (visited cs), iv + count_in false (visited cs)), w).
Proof.
  revert ig iv. induction cs as [|c cs IH]; intros ig iv Hall; simpl.
  - unfold mret, M_ret, count_in. simpl. by rewrite !Z.add_0_r.
  - simpl in Hall. destruct (parents c) as [|pa ps] eqn:Hp.
    + unfold mret, M_ret, count_in. simpl. by rewrite !Z.add_0_r.
    + simpl in Hall. apply andb_true_iff in Hall as [Hc Hall].
      destruct (exportable_meta _ _ Hc) as [m Hm].
      unfold mbind, M_bind, lift. rewrite Hm.
      assert (generic_commit c = Deb822.is_meta_generic m) as Hgc
        by (unfold generic_commit; by rewrite Hm).
      rewrite !count_in_cons, Hgc.
      destruct (Deb822.is_meta_generic m); rewrite (IH _ _ Hall);
        repeat case_decide; try done;
        apply (f_equal (λ x, (Ok x, w))); f_equal; lia.
Qed.

Lemma dir_free_write_in d name content p d' :
  dir_free p d' = true → dir_free (write_in d name content p) d' = true.
Proof.
  unfold dir_free, write_in. intros H.
  destruct (decide (d = d')) as [->|Hne].
  - by rewrite lookup_insert_eq.
  - by rewrite lookup_insert_ne.
Qed.

Lemma export_commit_spec sub idx c m w p :
  patches w = Some p →
  dir_free p sub = true →
  exportable git_diff (odb (repo w)) c = true →
  _export_commit git_diff (Some sub) idx c m w =
    (Ok tt,
     set_patches
       (Some match diff_of git_diff (odb (repo w)) c with
             | Some (String x d) =>
                 write_in sub (patch_name idx c) (patch_text c m (String x d)) p
             | _ => p
             end) w).
Proof.
  intros Hp Hfree Hex. unfold exportable in Hex.
  destruct (commit_meta c) as [m0|]; [|done].
  unfold _export_commit, diff, diff_of.
  destruct (parents c) as [|pa ps]; [done|].
  unfold mbind at 1, M_bind at 1. unfold mbind at 1, M_bind at 1, lookup_commit.
  destruct (odb (repo w) !! pa) as [pc|]; [|done].
  unfold mret, M_ret.
  destruct (git_diff (tree pc) (tree c)) as [[|x d]|] eqn:Hd; simpl.
  - by rewrite set_patches_id.
  - apply negb_true_iff in Hex.
    unfold mbind, M_bind, ensure_dir, write_file. rewrite Hp.
    unfold dir_free in Hfree. unfold write_in, dir_files.
    destruct (p !! sub) as [[?|es]|] eqn:Hsub; [done| |].
    + rewrite Hp, Hsub.
      rewrite (FmtFacts.patch_name_slash _ _ Hex). done.
    + simpl. rewrite lookup_insert_eq.
      rewrite (FmtFacts.patch_name_slash _ _ Hex).
      by rewrite insert_insert_eq.
  - by rewrite set_patches_id.
Qed.

Lemma export_loop_spec cs ig iv w p :
  patches w = Some p →
  dir_free p "generic" = true →
  dir_free p version = true →
  forallb (exportable git_diff (odb (repo w))) (visited cs) = true →
  export_loop git_diff version cs ig iv w =
    (Ok tt,
     set_patches
       (Some (export_files git_diff version (odb (repo w)) (visited cs) ig iv p)) w).
Proof.
  revert ig iv w p. induction cs as [|c cs IH]; intros ig iv w p Hp Hg Hv Hall.
  - simpl. by rewrite set_patches_id.
  - simpl. simpl in Hall. destruct (parents c) as [|pa ps] eqn:Hpar.
    + simpl. by rewrite set_patches_id.
    + simpl in Hall. apply andb_true_iff in Hall as [Hc Hall].
      destruct (exportable_meta _ _ Hc) as [m Hm].
      unfold mbind at 1, M_bind at 1, lift. rewrite Hm.
      assert (generic_commit c = Deb822.is_meta_generic m) as Hgc
        by (unfold generic_commit; by rewrite Hm).
      simpl export_files. rewrite Hgc, Hm.
      destruct (Deb822.is_meta_generic m); simpl partition_dir.
      * rewrite (bind_ok _ _ _ _ _ (export_commit_spec _ _ _ _ _ _ Hp Hg Hc)).
        erewrite IH; [by destruct w|simpl; reflexivity|..]; try done;
          destruct (diff_of _ _ _) as [[|??]|]; try done;
          by apply dir_free_write_in.
      * rewrite (bind_ok _ _ _ _ _ (export_commit_spec _ _ _ _ _ _ Hp Hv Hc)).
        erewrite IH; [by destruct w|simpl; reflexivity|..]; try done;
          destruct (diff_of _ _ _) as [[|??]|]; try done;
          by apply dir_free_write_in.
Qed.

End ExportFacts.

Section ExportQueueFacts.
Variable git_diff : files → files → option string.
Variable version : string.

Lemma foldl_delete_keys (ns : list string) (es : files) :
  (∀ k, is_Some (es !! k) → k ∈ ns) →
  foldl (λ acc n, delete n acc) es ns = ∅.
Proof.
  revert es. induction ns as [|n ns IH]; intros es Hk; simpl.
  - apply map_empty. intros k. apply eq_None_not_Some.
    intros H. by apply Hk, elem_of_nil in H.
  - apply IH. intros k Hs.
    destruct (decide (n = k)) as [->|Hne].
    + rewrite lookup_delete_eq in Hs. by destruct Hs.
    + rewrite lookup_delete_ne in Hs by done.
      apply Hk, elem_of_cons in Hs as [->|?]; done.
Qed.

Lemma foldl_delete_all (es : files) :
  foldl (λ acc n, delete n acc) es (map_to_list es).*1 = ∅.
Proof.
  apply foldl_delete_keys. intros k [v Hv].
  apply list_elem_of_fmap. exists (k, v). split; [done|].
  by apply elem_of_map_to_list.
Qed.

Lemma remove_patches_spec d w p :
  patches w = Some p → dir_free p d = true →
  remove_patches d w = (Ok tt, set_patches (Some (cleared d p)) w).
Proof.
  intros Hp Hfree. unfold remove_patches, cleared, dir_free in *. rewrite Hp.
  destruct (p !! d) as [[?|es]|]; try done.
  - by rewrite foldl_delete_all.
  - by rewrite set_patches_id.
Qed.

Lemma remove_patches_raise d w p content :
  patches w = Some p → p !! d = Some (File content) →
  remove_patches d w = (Raise OSError, w).
Proof. intros Hp Hd. unfold remove_patches. by rewrite Hp, Hd. Qed.

Lemma dir_free_cleared d p d' :
  dir_free p d' = true → dir_free (cleared d p) d' = true.
Proof.
  unfold dir_free, cleared. intros H.
  destruct (p !! d) as [[?|es]|] eqn:Hd; try done.
  destruct (decide (d = d')) as [->|Hne].
  - by rewrite lookup_insert_eq.
  - by rewrite lookup_insert_ne.
Qed.

Lemma walker_spec w h :
  head (repo w) = Some h →
  walker w = (Ok (walk (length (odb (repo w))) (odb (repo w)) h), w).
Proof.
  intros Hh. unfold walker, head_target, get_world, mbind, M_bind, mret, M_ret.
  by rewrite Hh.
Qed.

Lemma export_prepare w :
  dir_ready w = true →
  dir_free (default ∅ (patches w)) "generic" = true →
  dir_free (default ∅ (patches w)) version = true →
  (ensure_dir None ;; for_each remove_patches ["generic"; version]) w =
    (Ok tt, set_patches (Some (emptied version w)) w).
Proof.
  intros Hr Hg Hv. unfold emptied, dir_ready in *.
  assert (ensure_dir None w =
          (Ok tt, set_patches (Some (default ∅ (patches w))) w)) as He.
  { unfold ensure_dir. destruct (patches w) eqn:Hp; simpl.
    - by rewrite set_patches_id.
    - by rewrite Hr. }
  rewrite (bind_ok _ _ _ _ _ He). simpl for_each.
  set (p0 := default ∅ (patches w)) in *.
  erewrite bind_ok; [|by apply (remove_patches_spec _ _ p0)].
  erewrite bind_ok;
    [|apply (remove_patches_spec _ _ (cleared "generic" p0));
      [done|by apply dir_free_cleared]].
  unfold mret, M_ret. by destruct w.
Qed.

Lemma export_queue_spec w h :
  dir_ready w = true →
  dir_free (default ∅ (patches w)) "generic" = true →
  dir_free (default ∅ (patches w)) version = true →
  head (repo w) = Some h →
  let db := odb (repo w) in
  let cs := visited (walk (length db) db h) in
  forallb (exportable git_diff db) cs = true →
  export_queue git_diff version w =
    (Ok tt,
     set_patches
       (Some (export_files git_diff version db cs
                (count_in true cs) (count_in false cs) (emptied version w))) w).
Proof.
  intros Hr Hg Hv Hh db cs Hall. unfold export_queue.
  pose proof (export_prepare w Hr Hg Hv) as Hprep.
  unfold mbind at 1 2, M_bind at 1 2.
  unfold mbind at 1, M_bind at 1 in Hprep.
  destruct (ensure_dir None w) as [[[]|e] w1]; [|done].
  rewrite Hprep.
  set (w2 := set_patches (Some (emptied version w)) w).
  assert (head (repo w2) = Some h) as Hh2 by done.
  rewrite (bind_ok _ _ _ _ _ (walker_spec w2 h Hh2)).
  change (odb (repo w2)) with db.
  rewrite (bind_ok _ _ _ _ _ (count_loop_spec git_diff db _ 0 0 w2 Hall)).
  rewrite (bind_ok _ _ _ _ _ (walker_spec w2 h Hh2)).
  change (odb (repo w2)) with db.
  rewrite !Z.add_0_l.
  erewrite export_loop_spec; [by destruct w| done | | | done].
  - unfold emptied. by do 2 apply dir_free_cleared.
  - unfold emptied. by do 2 apply dir_free_cleared.
Qed.

End ExportQueueFacts.

(* ===================================================================== *)
(** * The files an export leaves                                          *)
(* ===================================================================== *)

Section ExportedFiles.
Variable git_diff : files → files → option string.
Variable version : string.
Variable db : list commit.
Hypothesis version_name : version ≠ "generic".

Lemma partition_dir_inj g g' :
  partition_dir version g = partition_dir version g' → g = g'.
Proof. destruct g, g'; simpl; congruence. Qed.

Lemma dir_files_write_in d n x p :
  dir_files (write_in d n x p) d = <[n := x]> (dir_files p d).
Proof. unfold dir_files at 1, write_in. by rewrite lookup_insert_eq. Qed.

Lemma dir_files_write_in_ne d d' n x p :
  d ≠ d' → dir_files (write_in d n x p) d' = dir_files p d'.
Proof. intros H. unfold dir_files, write_in. by rewrite lookup_insert_ne. Qed.

Lemma export_files_lookup g cs : ∀ ig iv p,
  count_in g cs ≤ sel g ig iv →
  (∀ name, is_Some (dir_files p (partition_dir version g) !! name) →
           sel g ig iv < Fmt.index_of name) →
  ∀ name x,
    dir_files (export_files git_diff version db cs ig iv p)
              (partition_dir version g) !! name = Some x ↔
    dir_files p (partition_dir version g) !! name = Some x ∨
    ∃ j c, cs !! j = Some c ∧
           writes git_diff db g (sel g ig iv - count_in g (take j cs)) c name x.
Proof.
  induction cs as [|c cs IH]; intros ig iv p Hcnt Hinv name x.
  { simpl. split; [by left|]. intros [?|(j & c & Hj & _)]; [done|].
    by rewrite lookup_nil in Hj. }
  simpl export_files.
  set (g' := generic_commit c).
  set (p' := match commit_meta c, diff_of git_diff db c with
             | Ok m, Some (String y d) =>
                 write_in (partition_dir version g')
                   (patch_name (if g' then ig else iv) c)
                   (patch_text c m (String y d)) p
             | _, _ => p
             end).
  set (ig' := if g' then ig - 1 else ig).
  set (iv' := if g' then iv else iv - 1).
  rewrite count_in_cons in Hcnt. fold g' in Hcnt.
  pose proof (count_in_nonneg g cs) as Hnn.
  assert (Hsel' : sel g ig' iv' =
                  sel g ig iv - (if decide (g' = g) then 1 else 0)).
  { unfold sel, ig', iv'. destruct g, g'; case_decide; try done; lia. }
  (* the state after this commit, seen from partition [g] *)
  assert (Hstep : ∀ n y,
    dir_files p' (partition_dir version g) !! n = Some y ↔
    dir_files p (partition_dir version g) !! n = Some y ∨
    writes git_diff db g (sel g ig iv) c n y).
  { intros n y. unfold p', writes. fold g'.
    destruct (commit_meta c) as [m|e] eqn:Hm.
    2:{ split; [by left|]. intros [?|(m & d & _ & ? & _)]; done. }
    destruct (diff_of git_diff db c) as [[|y0 d]|] eqn:Hd.
    1,3: split; [by left|]; intros [?|(m0 & d0 & _ & _ & ? & ? & _)];
         [done|congruence].
    destruct (decide (g' = g)) as [Heq|Hne].
    - rewrite Heq, dir_files_write_in.
      assert ((if g then ig else iv) = sel g ig iv) as -> by done.
      assert (dir_files p (partition_dir version g)
                !! patch_name (sel g ig iv) c = None) as Hfresh.
      { apply eq_None_not_Some. intros Hs. apply Hinv in Hs.
        unfold patch_name in Hs.
        rewrite FmtFacts.index_of_fmt04 in Hs by lia. lia. }
      destruct (decide (patch_name (sel g ig iv) c = n)) as [<-|Hn].
      + rewrite lookup_insert_eq, Hfresh. split.
        * intros [= <-]. right. exists m, (String y0 d). done.
        * intros [?|(m0 & d0 & _ & Hm0 & Hd0 & _ & _ & ->)]; [done|].
          congruence.
      + rewrite lookup_insert_ne by done. split; [by left|].
        intros [?|(m0 & d0 & _ & _ & _ & _ & ? & _)]; done.
    - rewrite dir_files_write_in_ne
        by (intros Hd'; by apply partition_dir_inj in Hd').
      split; [by left|]. intros [?|(m0 & d0 & ? & _)]; done. }
  rewrite IH.
  - rewrite Hstep, Hsel'. split.
    + intros [[?|Hw]|(j & c' & Hj & Hw)].
      * by left.
      * right. exists 0%nat, c. split; [done|].
        simpl take. unfold count_in at 1. simpl. by rewrite Z.sub_0_r.
      * right. exists (S j), c'. split; [done|].
        simpl take. rewrite count_in_cons. fold g'.
        by rewrite Z.sub_add_distr.
    + intros [?|(j & c' & Hj & Hw)]; [by left; left|].
      destruct j as [|j].
      * simpl in Hj. injection Hj as <-. left. right.
        simpl take in Hw. unfold count_in at 1 in Hw. simpl in Hw.
        by rewrite Z.sub_0_r in Hw.
      * right. exists j, c'. split; [done|].
        simpl take in Hw. rewrite count_in_cons in Hw. fold g' in Hw.
        by rewrite Z.sub_add_distr in Hw.
  - rewrite Hsel'. lia.
  - intros n [y Hy]. apply Hstep in Hy as [Hy|Hw].
    + assert (is_Some (dir_files p (partition_dir version g) !! n)) as Hs by eauto.
      apply Hinv in Hs. rewrite Hsel'. case_decide; lia.
    + destruct Hw as (m & d & Hg & _ & _ & _ & -> & _).
      unfold patch_name. fold g' in Hg. rewrite Hsel'.
      rewrite decide_True in Hcnt |- * by done.
      rewrite FmtFacts.index_of_fmt04 by lia. lia.
Qed.

End ExportedFiles.

Section Ranks.
Variable git_diff : files → files → option string.
Variable version : string.

Lemma count_in_app g a b : count_in g (a ++ b) = count_in g a + count_in g b.
Proof. unfold count_in. rewrite filter_app, length_app. lia. Qed.

Lemma count_take_drop g j cs :
  count_in g cs = count_in g (take j cs) + count_in g (drop j cs).
Proof. by rewrite <- count_in_app, take_drop. Qed.

Lemma count_drop_lookup g j cs c :
  cs !! j = Some c → generic_commit c = g →
  count_in g (drop j cs) = 1 + count_in g (drop (S j) cs).
Proof.
  intros Hj Hg. rewrite (drop_S _ _ _ Hj), count_in_cons.
  by rewrite decide_True.
Qed.

(** Every rank from 1 to the size of the partition is the rank of one
    of its commits. *)
Lemma rank_surjective g cs i :
  1 ≤ i ≤ count_in g cs →
  ∃ j c, cs !! j = Some c ∧ generic_commit c = g ∧ count_in g (drop j cs) = i.
Proof.
  induction cs as [|c cs IH]; intros Hi.
  - unfold count_in in Hi. simpl in Hi. lia.
  - destruct (decide (generic_commit c = g)) as [Hg|Hg].
    + rewrite count_in_cons, decide_True in Hi by done.
      destruct (decide (i = 1 + count_in g cs)) as [->|Hne].
      * exists 0%nat, c. simpl drop.
        rewrite count_in_cons, decide_True by done. done.
      * destruct IH as (j & c' & Hj & Hg' & Hr); [lia|].
        by exists (S j), c'.
    + rewrite count_in_cons, decide_False in Hi by done.
      destruct IH as (j & c' & Hj & Hg' & Hr); [lia|].
      by exists (S j), c'.
Qed.

Lemma dir_files_cleared d p : dir_files (cleared d p) d = ∅.
Proof.
  unfold dir_files, cleared. destruct (p !! d) as [[?|es]|] eqn:Hd.
  - by rewrite Hd.
  - by rewrite lookup_insert_eq.
  - by rewrite Hd.
Qed.

Lemma dir_files_cleared_ne d d' p :
  d ≠ d' → dir_files (cleared d p) d' = dir_files p d'.
Proof.
  intros Hne. unfold dir_files, cleared.
  destruct (p !! d) as [[?|es]|]; try done. by rewrite lookup_insert_ne.
Qed.

Lemma dir_files_emptied g w :
  version ≠ "generic" →
  dir_files (emptied version w) (partition_dir version g) = ∅.
Proof.
  intros Hv. unfold emptied. destruct g; simpl.
  - rewrite dir_files_cleared_ne by done. apply dir_files_cleared.
  - apply dir_files_cleared.
Qed.

Lemma listing_set_patches w p d :
  listing (set_patches (Some p) w) d = dir_files p d.
Proof. done. Qed.

End Ranks.

(* ===================================================================== *)
(** * The walk reaches the root                                           *)
(* ===================================================================== *)

Lemma walk_S f db oid :
  walk (S f) db oid =
    match db !! oid with
    | None => []
    | Some c => c :: match parents c with
                     | [] => []
                     | p :: _ => walk f db p
                     end
    end.
Proof. reflexivity. Qed.

(** In the object stores the engine builds, a parent is always an older
    object and the head is in the store ([store_ok]). There the fuel
    [walker] gives to [walk], the size of the store, is enough: more fuel
    yields the same commits, and the walk ends at a commit without
    parent. *)
Lemma walk_fuel_enough db :
  store_ok db →
  ∀ f f' oid, (oid < f)%nat → (oid < f')%nat → walk f db oid = walk f' db oid.
Proof.
  intros Hok f. induction f as [|f IH]; intros f' oid Hf Hf'; [lia|].
  destruct f' as [|f']; [lia|]. rewrite !walk_S.
  destruct (db !! oid) as [c|] eqn:Hc; [|done].
  destruct (parents c) as [|p ps] eqn:Hp; [done|].
  assert (p < oid)%nat as Hlt.
  { apply (Hok oid c p Hc). rewrite Hp. by left. }
  f_equal. apply IH; lia.
Qed.

Lemma walk_ends_at_root db :
  store_ok db →
  ∀ f oid, (oid < f)%nat → (oid < length db)%nat →
    ∃ cs root, walk f db oid = cs ++ [root] ∧ parents root = [] ∧
               Forall (λ c, parents c ≠ []) cs.
Proof.
  intros Hok f. induction f as [|f IH]; intros oid Hf Hlen; [lia|].
  rewrite walk_S. destruct (lookup_lt_is_Some_2 db oid Hlen) as [c Hc].
  rewrite Hc. destruct (parents c) as [|p ps] eqn:Hp.
  - exists [], c. by repeat split.
  - assert (p < oid)%nat as Hlt.
    { apply (Hok oid c p Hc). rewrite Hp. by left. }
    destruct (IH p) as (cs & root & Hw & Hr & Hcs); [lia|lia|].
    exists (c :: cs), root. rewrite Hw. repeat split; [done|].
    apply Forall_cons. split; [by rewrite Hp|done].
Qed.

Lemma store_ok_nil : store_ok [].
Proof. intros i c p Hc. by rewrite lookup_nil in Hc. Qed.

(** [create_commit] keeps the store well formed when the parents given
    are in the store, which is the case for [_initial_commit] (no parent)
    and for [_commit] (the head). *)
Lemma create_commit_store_ok ref a c msg t ps w w' :
  store_ok (odb (repo w)) →
  Forall (λ p, p < length (odb (repo w)))%nat ps →
  create_commit ref a c msg t ps w = (Ok tt, w') →
  store_ok (odb (repo w')) ∧
  ∃ h, head (repo w') = Some h ∧ (h < length (odb (repo w')))%nat.
Proof.
  intros Hok Hps. unfold create_commit.
  destruct (match head (repo w) with
            | Some tip => match ps with
                          | [] => false
                          | p :: _ => bool_decide (p = tip)
                          end
            | None => true
            end); [|done].
  intros [= <-]. simpl. split.
  - intros i k p Hk Hp.
    destruct (decide (i < length (odb (repo w)))%nat) as [Hi|Hi].
    + rewrite lookup_app_l in Hk by done. by apply (Hok i k p).
    + rewrite lookup_app_r in Hk by lia.
      destruct (i - length (odb (repo w)))%nat as [|n] eqn:Hn; [|done].
      simpl in Hk. injection Hk as <-. simpl in Hp.
      rewrite Forall_forall in Hps. apply Hps in Hp. lia.
  - eexists. split; [done|]. rewrite length_app. simpl. lia.
Qed.

(* ===================================================================== *)
(** * C2: the indices of exported patches                                 *)
(* ===================================================================== *)

(** C2 (amended). After [export_queue(patches_dir, version)] went through,
    for each partition (generic and the given version, a name other than
    [generic]) with [k] non-root commits: the commit at position [j] of
    the walk is assigned the index [k] minus the number of newer commits
    of the partition, which is 1 plus the number of older ones, so that
    the oldest gets 1 and the newest gets [k]; a patch file is written for
    a commit exactly when its diff is not empty, under that index. The
    indices of the files written therefore lie in [1..k], and they are
    exactly [1..k] when no commit of the partition has an empty diff. *)
Theorem C2_export_indices (git_diff : files → files → option string)
    (version : string) (w : world) (h : nat) :
  version ≠ "generic" →
  dir_ready w = true →
  dir_free (default ∅ (patches w)) "generic" = true →
  dir_free (default ∅ (patches w)) version = true →
  head (repo w) = Some h →
  let db := odb (repo w) in
  let cs := visited (walk (length db) db h) in
  forallb (exportable git_diff db) cs = true →
  ∃ w', export_queue git_diff version w = (Ok tt, w') ∧
    ∀ g : bool,
      let k := count_in g cs in
      let dir := listing w' (partition_dir version g) in
      (∀ j c, cs !! j = Some c → generic_commit c = g →
         count_in g (drop j cs) = k - count_in g (take j cs) ∧
         count_in g (drop j cs) = 1 + count_in g (drop (S j) cs)) ∧
      (∀ name x, dir !! name = Some x ↔
         ∃ j c, cs !! j = Some c ∧
                writes git_diff db g (count_in g (drop j cs)) c name x) ∧
      (∀ name, is_Some (dir !! name) → 1 ≤ Fmt.index_of name ≤ k) ∧
      ((∀ c, c ∈ cs → generic_commit c = g →
          truthy (diff_of git_diff db c) = true) →
       ∀ i, 1 ≤ i ≤ k → ∃ name, is_Some (dir !! name) ∧ Fmt.index_of name = i).
Proof.
  intros Hv Hr Hg Hfv Hh db cs Hall.
  eexists. split; [by apply export_queue_spec|].
  intros g k dir. fold db cs in dir.
  assert (Hranks : ∀ j c, cs !! j = Some c → generic_commit c = g →
            count_in g (drop j cs) = k - count_in g (take j cs) ∧
            count_in g (drop j cs) = 1 + count_in g (drop (S j) cs)).
  { intros j c Hj Hgc. split.
    - unfold k. rewrite (count_take_drop g j cs). lia.
    - by apply (count_drop_lookup _ _ _ c). }
  assert (Hfiles : ∀ name x, dir !! name = Some x ↔
            ∃ j c, cs !! j = Some c ∧
                   writes git_diff db g (count_in g (drop j cs)) c name x).
  { intros name x. unfold dir. rewrite listing_set_patches.
    rewrite (export_files_lookup git_diff version db Hv g cs).
    - rewrite dir_files_emptied, lookup_empty by done.
      assert (sel g (count_in true cs) (count_in false cs) = count_in g cs)
        as -> by (by destruct g).
      split.
      + intros [?|(j & c & Hj & Hw)]; [done|]. exists j, c. split; [done|].
        rewrite (count_take_drop g j cs) in Hw.
        by replace (count_in g (take j cs) + count_in g (drop j cs)
                    - count_in g (take j cs)) with (count_in g (drop j cs))
          in Hw by lia.
      + intros (j & c & Hj & Hw). right. exists j, c. split; [done|].
        rewrite (count_take_drop g j cs).
        by replace (count_in g (take j cs) + count_in g (drop j cs)
                    - count_in g (take j cs)) with (count_in g (drop j cs))
          by lia.
    - by destruct g.
    - intros name' Hs. rewrite dir_files_emptied, lookup_empty in Hs by done.
      by destruct Hs. }
  split; [exact Hranks|]. split; [exact Hfiles|]. split.
  - intros name [x Hx]. apply Hfiles in Hx as (j & c & Hj & Hw).
    destruct Hw as (m & d & Hgc & _ & _ & _ & -> & _).
    destruct (Hranks j c Hj Hgc) as [H1 H2].
    pose proof (count_in_nonneg g (take j cs)).
    pose proof (count_in_nonneg g (drop (S j) cs)).
    unfold patch_name. rewrite FmtFacts.index_of_fmt04 by lia. lia.
  - intros Hdiff i Hi.
    destruct (rank_surjective g cs i Hi) as (j & c & Hj & Hgc & Hrank).
    assert (c ∈ cs) as Hin by (by eapply list_elem_of_lookup_2).
    pose proof (Hdiff c Hin Hgc) as Ht.
    assert (exportable git_diff db c = true) as Hex.
    { rewrite forallb_forall in Hall. apply Hall. by apply list_elem_of_In. }
    destruct (exportable_meta _ _ _ Hex) as [m Hm].
    destruct (diff_of git_diff db c) as [[|y d]|] eqn:Hd; try done.
    exists (patch_name i c). split.
    + exists (patch_text c m (String y d)). apply Hfiles.
      exists j, c. split; [done|]. rewrite Hrank.
      exists m, (String y d). done.
    + unfold patch_name. rewrite FmtFacts.index_of_fmt04 by lia. done.
Qed.

Lemma C2_export_indices_witness :
  ∃ w', export_queue Example.diff_a_txt "1.2.3" Example.imported = (Ok tt, w') ∧
        (∀ name, is_Some (listing w' "generic" !! name) →
                 1 ≤ Fmt.index_of name ≤ 1) ∧
        (∀ name, is_Some (listing w' "1.2.3" !! name) →
                 1 ≤ Fmt.index_of name ≤ 1).
Proof.
  destruct (C2_export_indices Example.diff_a_txt "1.2.3" Example.imported 2)
    as (w' & Hrun & Hall).
  - discriminate.
  - reflexivity.
  - reflexivity.
  - reflexivity.
  - reflexivity.
  - reflexivity.
  - exists w'. split; [exact Hrun|]. split.
    + exact (proj1 (proj2 (proj2 (Hall true)))).
    + exact (proj1 (proj2 (proj2 (Hall false)))).
Defined.

(** The claim C2 as stated fails for a commit with an empty diff: the
    partition of version 1.2.3 has one non-root commit, and the export
    writes no file for it, so that no file carries index 1. *)
Lemma C2_counterexample :
  let db := odb (repo Example.imported_rejected) in
  count_in false (visited (walk (length db) db 2)) = 1 ∧
  ∃ w', export_queue Example.diff_a_txt "1.2.3" Example.imported_rejected
          = (Ok tt, w') ∧
        listing w' "1.2.3" = ∅.
Proof.
  split; [reflexivity|]. eexists. split; [vm_compute; reflexivity|].
  reflexivity.
Qed.

(* ===================================================================== *)
(** * C10: what an export leaves alone                                    *)
(* ===================================================================== *)

Section Frame.
Variable git_diff : files → files → option string.
Variable version : string.

Lemma keeps_pure {A} (m : M A) :
  (∀ w, (m w).2 = w) → keeps version m.
Proof. intros H w r w' Hm d _ _. specialize (H w). rewrite Hm in H. by subst. Qed.

Lemma keeps_bind {A B} (m : M A) (f : A → M B) :
  keeps version m → (∀ a, keeps version (f a)) → keeps version (m ≫= f).
Proof.
  intros Hm Hf w r w' Hrun d Hg Hv. unfold mbind, M_bind in Hrun.
  destruct (m w) as [[a|e] w1] eqn:Hmw.
  - rewrite (Hf a _ _ _ Hrun d Hg Hv). by apply (Hm _ _ _ Hmw).
  - injection Hrun as <- <-. by apply (Hm _ _ _ Hmw).
Qed.

Lemma keeps_for_each {A} (body : A → M unit) xs :
  (∀ x, x ∈ xs → keeps version (body x)) → keeps version (for_each body xs).
Proof.
  induction xs as [|x xs IH]; intros Hb; simpl.
  - by apply keeps_pure.
  - apply keeps_bind; [apply Hb; by left|].
    intros _. apply IH. intros y Hy. apply Hb. by right.
Qed.

Lemma keeps_ensure_dir_top : keeps version (ensure_dir None).
Proof.
  intros w r w' Hrun d _ _. unfold ensure_dir in Hrun.
  destruct (patches w) eqn:Hp; [by injection Hrun as <- <-|].
  destruct (parent_dir w); injection Hrun as <- <-; [|done].
  unfold entry. simpl. by rewrite Hp.
Qed.

Lemma keeps_ensure_dir sub :
  sub = "generic" ∨ sub = version → keeps version (ensure_dir (Some sub)).
Proof.
  intros Hsub w r w' Hrun d Hg Hv. unfold ensure_dir in Hrun.
  destruct (patches w) as [p|] eqn:Hp; [|by injection Hrun as <- <-].
  destruct (p !! sub) eqn:Hs; injection Hrun as <- <-; [done|].
  unfold entry. simpl. rewrite Hp. simpl.
  rewrite lookup_insert_ne; [done|]. destruct Hsub; congruence.
Qed.

Lemma keeps_write_file sub name content :
  sub = "generic" ∨ sub = version → keeps version (write_file (Some sub) name content).
Proof.
  intros Hsub w r w' Hrun d Hg Hv. unfold write_file in Hrun.
  destruct (patches w) as [p|] eqn:Hp; [|by injection Hrun as <- <-].
  destruct (p !! sub) as [[?|es]|] eqn:Hs; try by injection Hrun as <- <-.
  destruct (Str.mem "/" name); injection Hrun as <- <-; [done|].
  unfold entry. simpl. rewrite Hp. simpl.
  rewrite lookup_insert_ne; [done|]. destruct Hsub; congruence.
Qed.

Lemma keeps_remove_patches sub :
  sub = "generic" ∨ sub = version → keeps version (remove_patches sub).
Proof.
  intros Hsub w r w' Hrun d Hg Hv. unfold remove_patches in Hrun.
  destruct (patches w) as [p|] eqn:Hp; [|by injection Hrun as <- <-].
  destruct (p !! sub) as [[?|es]|] eqn:Hs; try by injection Hrun as <- <-.
  injection Hrun as <- <-.
  unfold entry. simpl. rewrite Hp. simpl.
  rewrite lookup_insert_ne; [done|]. destruct Hsub; congruence.
Qed.

Lemma keeps_diff c : keeps version (diff git_diff c).
Proof.
  apply keeps_pure. intros w. unfold diff.
  destruct (parents c) as [|p ps]; [done|].
  unfold mbind, M_bind, lookup_commit. by destruct (odb (repo w) !! p).
Qed.

Lemma keeps_export_commit sub idx c m :
  sub = "generic" ∨ sub = version →
  keeps version (_export_commit git_diff (Some sub) idx c m).
Proof.
  intros Hsub. unfold _export_commit.
  apply keeps_bind; [apply keeps_diff|]. intros d.
  destruct (truthy d); [|by apply keeps_pure].
  apply keeps_bind; [by apply keeps_ensure_dir|].
  intros _. by apply keeps_write_file.
Qed.

Lemma keeps_walker : keeps version walker.
Proof.
  apply keeps_pure. intros w.
  unfold walker, head_target, mbind, M_bind.
  by destruct (head (repo w)).
Qed.

Lemma keeps_lift {A} (r : res A) : keeps version (lift r).
Proof. by apply keeps_pure. Qed.

Lemma keeps_count_loop cs : ∀ ig iv, keeps version (count_loop cs ig iv).
Proof.
  induction cs as [|c cs IH]; intros ig iv; simpl; [by apply keeps_pure|].
  destruct (parents c); [by apply keeps_pure|].
  apply keeps_bind; [apply keeps_lift|]. intros m.
  destruct (Deb822.is_meta_generic m); apply IH.
Qed.

Lemma keeps_export_loop cs : ∀ ig iv, keeps version (export_loop git_diff version cs ig iv).
Proof.
  induction cs as [|c cs IH]; intros ig iv; simpl; [by apply keeps_pure|].
  destruct (parents c); [by apply keeps_pure|].
  apply keeps_bind; [apply keeps_lift|]. intros m.
  destruct (Deb822.is_meta_generic m).
  - apply keeps_bind; [apply keeps_export_commit; by left|]. intros _. apply IH.
  - apply keeps_bind; [apply keeps_export_commit; by right|]. intros _. apply IH.
Qed.

Lemma keeps_export_queue : keeps version (export_queue git_diff version).
Proof.
  unfold export_queue.
  apply keeps_bind; [apply keeps_ensure_dir_top|]. intros _.
  apply keeps_bind.
  { apply keeps_for_each. intros x Hx. apply keeps_remove_patches.
    apply elem_of_cons in Hx as [->|Hx]; [by left|].
    apply list_elem_of_singleton in Hx as ->. by right. }
  intros _. apply keeps_bind; [apply keeps_walker|]. intros cs.
  apply keeps_bind; [apply keeps_count_loop|]. intros [ig iv].
  apply keeps_bind; [apply keeps_walker|]. intros cs'.
  apply keeps_export_loop.
Qed.

End Frame.

(** C10. [export_queue(patches_dir, version)] deletes and writes files
    only inside the [generic] subdirectory and the subdirectory of the
    given version: every other entry of [patches_dir], with every file it
    contains, is the same after the call, whether the call returns or
    raises. *)
Theorem C10_export_frame (git_diff : files → files → option string)
    (version : string) (w w' : world) (r : res unit) (d : string) :
  export_queue git_diff version w = (r, w') →
  d ≠ "generic" → d ≠ version →
  entry w' d = entry w d.
Proof. intros Hrun. by apply (keeps_export_queue git_diff version w r w'). Qed.

Lemma C10_export_frame_witness :
  entry (export_queue Example.diff_a_txt "1.2.3" Example.crowded).2 "1.0.0" =
  entry Example.crowded "1.0.0".
Proof.
  apply (C10_export_frame Example.diff_a_txt "1.2.3" Example.crowded _
           (export_queue Example.diff_a_txt "1.2.3" Example.crowded).1 "1.0.0").
  - by destruct (export_queue Example.diff_a_txt "1.2.3" Example.crowded).
  - discriminate.
  - discriminate.
Defined.

(* ===================================================================== *)
(** * C5: a metadata block that does not decode                           *)
(* ===================================================================== *)

Section DecodeErrors.
Import Deb822.

(** A line that is neither empty, nor a continuation, nor a field makes
    the block it belongs to fail. *)
Lemma parse_bad_line ls1 l ls2 : ∀ m cur,
  Forall (λ x, x ≠ "") ls1 →
  l ≠ "" → Str.starts_blank l = false → split_field l = None →
  parse_lines (ls1 ++ l :: ls2) m cur = Raise MetadataParseError.
Proof.
  induction ls1 as [|x ls1 IH]; intros m cur Hne Hl Hb Hf; simpl.
  - rewrite decide_False by done. by rewrite Hb, Hf.
  - apply Forall_cons in Hne as [Hx Hne]. rewrite decide_False by done.
    destruct (Str.starts_blank x).
    + destruct cur as [[k c]|]; [|done]. by apply IH.
    + destruct (split_field x) as [[k v]|]; [|done]. by apply IH.
Qed.

Lemma parse_only_error ls : ∀ m cur e,
  parse_lines ls m cur = Raise e → e = MetadataParseError.
Proof.
  induction ls as [|x ls IH]; intros m cur e; simpl; [done|].
  case_decide; [done|]. destruct (Str.starts_blank x).
  - destruct cur as [[k c]|]; [apply IH|congruence].
  - destruct (split_field x) as [[k v]|]; [apply IH|congruence].
Qed.
End DecodeErrors.

Section Aborts.
Variable patch_cmd : string → files → Z * files.
Variable git_diff : files → files → option string.

Lemma apply_patch_raise_decode d name content w i title e :
  Str.split_max "-" 1 name = [i; title] →
  Deb822.decode content = Raise e →
  _apply_patch patch_cmd d name content w = (Raise e, w).
Proof.
  intros Hn Hd. unfold _apply_patch. rewrite Hn.
  unfold mbind at 1, M_bind at 1, mret, M_ret.
  unfold lift, mbind at 1, M_bind at 1. by rewrite Hd.
Qed.

Lemma import_subdir_raise d es pre name content post w w1 e :
  entry w d = Some (Dir es) →
  sorted_entries es = pre ++ (name, content) :: post →
  for_each (λ p, _apply_patch patch_cmd d p.1 p.2) pre w = (Ok tt, w1) →
  _apply_patch patch_cmd d name content w1 = (Raise e, w1) →
  _import_patches_subdir patch_cmd d w = (Raise e, w1).
Proof.
  intros He Hs Hpre Hp. unfold _import_patches_subdir.
  unfold mbind, M_bind, get_world. rewrite He, Hs.
  rewrite (for_each_app _ _ _ _ _ Hpre).
  by apply for_each_raise.
Qed.

Lemma count_loop_raise cs : ∀ pre c post e ig iv w,
  visited cs = pre ++ c :: post →
  Forall (λ x, ∃ m, commit_meta x = Ok m) pre →
  commit_meta c = Raise e →
  count_loop cs ig iv w = (Raise e, w).
Proof.
  induction cs as [|x cs IH]; intros pre c post e ig iv w Hv Hpre Hc.
  - simpl in Hv. by destruct pre.
  - simpl in Hv. simpl. destruct (parents x) as [|pa ps]; [by destruct pre|].
    destruct pre as [|y pre]; simpl in Hv; simplify_eq.
    + unfold mbind, M_bind, lift. by rewrite Hc.
    + apply Forall_cons in Hpre as [[m Hm] Hpre].
      unfold mbind, M_bind, lift. rewrite Hm.
      destruct (Deb822.is_meta_generic m); by eapply IH.
Qed.
End Aborts.

(** C5. Decoding a malformed metadata block fails with
    [MetadataParseError] (a block with a line that is neither a
    continuation nor a [Key: value] field; no other error comes out of the
    decoder), and that error aborts the call it occurs in: the import
    stops at the patch file whose block does not decode, in the state the
    patches before it left, and the export stops before any patch file is
    written. *)
Theorem C5_metadata_error_aborts :
  (∀ text ls1 l ls2,
     Str.split_on Str.nl text = ls1 ++ l :: ls2 →
     Forall (λ x, x ≠ "") ls1 →
     l ≠ "" → Str.starts_blank l = false → Deb822.split_field l = None →
     Deb822.decode text = Raise MetadataParseError) ∧
  (∀ text e, Deb822.decode text = Raise e → e = MetadataParseError) ∧
  (∀ patch_cmd version d es pre name i title content post w w1,
     entry w d = Some (Dir es) →
     sorted_entries es = pre ++ (name, content) :: post →
     for_each (λ p, _apply_patch patch_cmd d p.1 p.2) pre w = (Ok tt, w1) →
     Str.split_max "-" 1 name = [i; title] →
     Deb822.decode content = Raise MetadataParseError →
     _import_patches_subdir patch_cmd d w = (Raise MetadataParseError, w1) ∧
     (d = "generic" →
      import_patches patch_cmd version w = (Raise MetadataParseError, w1)) ∧
     (∀ w0, d = version →
        _import_patches_subdir patch_cmd "generic" w0 = (Ok tt, w) →
        import_patches patch_cmd version w0 = (Raise MetadataParseError, w1))) ∧
  (∀ git_diff version w h pre c post t b body,
     dir_ready w = true →
     dir_free (default ∅ (patches w)) "generic" = true →
     dir_free (default ∅ (patches w)) version = true →
     head (repo w) = Some h →
     visited (walk (length (odb (repo w))) (odb (repo w)) h) = pre ++ c :: post →
     Forall (λ x, ∃ m, commit_meta x = Ok m) pre →
     Str.split_max Str.nl 2 (message c) = [t; b; body] →
     Deb822.decode body = Raise MetadataParseError →
     export_queue git_diff version w =
       (Raise MetadataParseError, set_patches (Some (emptied version w)) w)).
Proof.
  split; [|split; [|split]].
  - intros text ls1 l ls2 Hs Hne Hl Hb Hf. unfold Deb822.decode.
    rewrite Hs. by apply parse_bad_line.
  - intros text e. apply parse_only_error.
  - intros patch_cmd version d es pre name i title content post w w1
      He Hs Hpre Hn Hd.
    pose proof (apply_patch_raise_decode patch_cmd d name content w1 i title _
                  Hn Hd) as Hp.
    pose proof (import_subdir_raise patch_cmd d es pre name content post w w1 _
                  He Hs Hpre Hp) as Hsub.
    split; [exact Hsub|]. split.
    + intros ->. unfold import_patches. by apply for_each_raise.
    + intros w0 -> Hgen. unfold import_patches. simpl for_each.
      rewrite (bind_ok _ _ _ _ _ Hgen). by rewrite (bind_raise _ _ _ _ _ Hsub).
  - intros git_diff version w h pre c post t b body Hr Hg Hv Hh Hvis Hpre Hm Hd.
    unfold export_queue.
    pose proof (export_prepare version w Hr Hg Hv) as Hprep.
    unfold mbind at 1 2, M_bind at 1 2.
    unfold mbind at 1, M_bind at 1 in Hprep.
    destruct (ensure_dir None w) as [[[]|e] w1]; [|done].
    rewrite Hprep.
    set (w2 := set_patches (Some (emptied version w)) w).
    assert (head (repo w2) = Some h) as Hh2 by done.
    rewrite (bind_ok _ _ _ _ _ (walker_spec w2 h Hh2)).
    apply bind_raise. apply (count_loop_raise _ pre c post); [done|done|].
    unfold commit_meta. by rewrite Hm.
Qed.

Lemma C5_metadata_error_aborts_witness :
  Deb822.decode Example.broken_file = Raise MetadataParseError ∧
  _import_patches_subdir Example.patch_last_line "generic" Example.broken_queue =
    (Raise MetadataParseError,
     applied Example.patch_last_line "generic" Example.anonymous_file "fix-foo"
       "Unknown Author" "unknown@email.com" [("Description", "fix foo")] 0
       Example.broken_queue) ∧
  export_queue Example.diff_a_txt "1.2.3" Example.broken_history =
    (Raise MetadataParseError,
     set_patches (Some (emptied "1.2.3" Example.broken_history))
       Example.broken_history).
Proof.
  destruct C5_metadata_error_aborts as (Hdec & _ & Himp & Hexp).
  split; [|split].
  - apply (Hdec Example.broken_file [] "no colon here" ["+foo"]);
      [reflexivity|constructor|discriminate|reflexivity|reflexivity].
  - refine (proj1 (Himp Example.patch_last_line "1.2.3" "generic"
      {[ "0001-fix-foo" := Example.anonymous_file;
         "0002-broken" := Example.broken_file;
         "0003-fix-bar" := Example.author_file ]}
      [("0001-fix-foo", Example.anonymous_file)] "0002-broken" "0002" "broken"
      Example.broken_file [("0003-fix-bar", Example.author_file)]
      Example.broken_queue _ eq_refl eq_refl _ eq_refl eq_refl)).
    vm_compute. reflexivity.
  - apply (Hexp Example.diff_a_txt "1.2.3" Example.broken_history 1%nat []
             (Commit [0%nat] (Signature "Bob" "bob@example.org")
                (Signature "Bob" "bob@example.org")
                ("broken" +:+ Str.NL +:+ Str.NL +:+ "no colon here") ∅)
             [] "broken" "" "no colon here"); try reflexivity.
    constructor.
Defined.

(* ===================================================================== *)
(** * C6: opening the repository                                          *)
(* ===================================================================== *)

Lemma init_unborn a e w :
  head (repo w) = None →
  init a e w =
    (Ok tt,
     set_repo (committed [] a e "Initial commit" (worktree (repo w)) (repo w)) w).
Proof.
  intros Hh. unfold init, _initial_commit, _base_commit, index_add_all,
    write_tree, create_commit, mbind, M_bind. simpl. by rewrite Hh.
Qed.

Lemma init_born a e w h :
  head (repo w) = Some h →
  init a e w =
    (Raise GitError,
     set_repo (Repository (odb (repo w)) (head (repo w)) (worktree (repo w))
                 (worktree (repo w))) w).
Proof.
  intros Hh. unfold init, _initial_commit, _base_commit, index_add_all,
    write_tree, create_commit, mbind, M_bind. simpl. by rewrite Hh.
Qed.

(** C6 (amended). On a path without repository, opening the handle
    creates a single parentless root commit titled ["Initial commit"]
    that carries no metadata block. Opening it a second time on the same
    path does not go through: the creation of the root commit is attempted
    again and refused, a [GitError] is raised, and the commit history and
    the head stay what they were after the first opening. *)
Theorem C6_open_twice (a e a' e' : string) (w : world) :
  odb (repo w) = [] → head (repo w) = None →
  ∃ w1 w2,
    init a e w = (Ok tt, w1) ∧
    odb (repo w1) =
      [Commit [] (Signature a e) (Signature a e) "Initial commit"
         (worktree (repo w))] ∧
    head (repo w1) = Some 0%nat ∧
    Forall (λ c, commit_meta c = Raise IndexError) (odb (repo w1)) ∧
    init a' e' w1 = (Raise GitError, w2) ∧
    odb (repo w2) = odb (repo w1) ∧
    head (repo w2) = head (repo w1) ∧
    worktree (repo w2) = worktree (repo w1) ∧
    patches w2 = patches w1.
Proof.
  intros Hdb Hh. eexists _, _.
  split; [by apply init_unborn|]. simpl. rewrite Hdb. simpl.
  split; [done|]. split; [done|]. split; [by repeat constructor|].
  split; [apply (init_born _ _ _ 0%nat); simpl; by rewrite Hdb|].
  simpl. by rewrite Hdb.
Qed.

Lemma C6_open_twice_witness :
  ∃ w2, init "Bob" "bob@example.org" Example.fresh = (Ok tt, Example.opened) ∧
        init "Bob" "bob@example.org" Example.opened = (Raise GitError, w2) ∧
        odb (repo w2) = odb (repo Example.opened) ∧
        head (repo w2) = Some 0%nat.
Proof.
  destruct (C6_open_twice "Bob" "bob@example.org" "Bob" "bob@example.org"
              Example.fresh eq_refl eq_refl)
    as (w1 & w2 & H1 & Hdb & Hh & _ & H2 & Hdb2 & Hh2 & _).
  assert (w1 = Example.opened) as ->.
  { unfold Example.opened. by rewrite H1. }
  exists w2. split; [exact H1|]. split; [exact H2|]. split; [exact Hdb2|].
  by rewrite Hh2.
Defined.

(** The claim C6 as stated fails: opening twice is not opening once, the
    second opening raises. *)
Lemma C6_counterexample :
  init "Bob" "bob@example.org" Example.fresh = (Ok tt, Example.opened) ∧
  (init "Bob" "bob@example.org" ;; init "Bob" "bob@example.org") Example.fresh
    = (Raise GitError, Example.opened) ∧
  (init "Bob" "bob@example.org" ;; init "Bob" "bob@example.org") Example.fresh
    ≠ init "Bob" "bob@example.org" Example.fresh.
Proof. split; [reflexivity|]. split; [reflexivity|]. discriminate. Qed.

(* ===================================================================== *)
(** * C4: committing and exporting one change                             *)
(* ===================================================================== *)

Section CommitExport.
Variable git_diff : files → files → option string.
Variable today : string.

Lemma for_each_index_add fs : ∀ w ix',
  stage (worktree (repo w)) (index (repo w)) fs = Some ix' →
  for_each index_add fs w =
    (Ok tt,
     set_repo (Repository (odb (repo w)) (head (repo w)) ix'
                 (worktree (repo w))) w).
Proof.
  induction fs as [|f fs IH]; intros w ix' Hs; simpl in *.
  - injection Hs as <-. by destruct w as [[] ? ?].
  - unfold mbind, M_bind. unfold index_add at 1.
    destruct (worktree (repo w) !! f) as [c|]; [|done].
    rewrite (IH _ ix'); [by destruct w|done].
Qed.

Lemma head_target_ok w h :
  head (repo w) = Some h → head_target w = (Ok h, w).
Proof. intros Hh. unfold head_target. by rewrite Hh. Qed.

Lemma head_name_ok w h :
  head (repo w) = Some h → head_name w = (Ok "refs/heads/master", w).
Proof.
  intros Hh. unfold head_name.
  by rewrite (bind_ok _ _ _ _ _ (head_target_ok _ _ Hh)).
Qed.

Lemma commit_files_ok a email title m fs w h ix' :
  head (repo w) = Some h →
  stage (worktree (repo w)) (index (repo w)) fs = Some ix' →
  _commit a email title m (Some fs) w =
    (Ok tt,
     set_repo (committed [h] a email
                 (title +:+ Str.NL +:+ Str.NL +:+ Deb822.encode m)
                 ix' (repo w)) w).
Proof.
  intros Hh Hs. unfold _commit.
  rewrite (bind_ok _ _ _ _ _ (head_name_ok _ _ Hh)).
  rewrite (bind_ok _ _ _ _ _ (head_target_ok _ _ Hh)).
  unfold _base_commit.
  rewrite (bind_ok _ _ _ _ _ (for_each_index_add _ _ _ Hs)).
  unfold write_tree, create_commit, mbind, M_bind. simpl. rewrite Hh.
  rewrite bool_decide_eq_true_2 by done. by destruct w.
Qed.

Lemma fresh_meta_valid description :
  Deb822.value_ok description = true → Deb822.value_ok today = true →
  Deb822.valid (fresh_meta today description).
Proof.
  intros Hd Ht. split; [by compute_done|].
  unfold fresh_meta. simpl. unfold Deb822.field_ok. simpl. by rewrite Hd, Ht.
Qed.

Lemma commit_meta_message title m ps a c t :
  Str.mem Str.nl title = false → Deb822.valid m →
  commit_meta (Commit ps a c (title +:+ Str.NL +:+ Str.NL +:+ Deb822.encode m) t)
    = Ok m.
Proof.
  intros Ht Hv. unfold commit_meta. simpl message.
  change (title +:+ Str.NL +:+ Str.NL +:+ Deb822.encode m)
    with (title +:+ String Str.nl ("" +:+ String Str.nl (Deb822.encode m))).
  rewrite StrFacts.split_max_2 by done.
  by apply CodecFacts.decode_encode.
Qed.

Lemma commit_title_message title rest ps a c t :
  Str.mem Str.nl title = false →
  commit_title (Commit ps a c (title +:+ Str.NL +:+ rest) t) = title.
Proof.
  intros Ht. unfold commit_title. simpl message.
  change (title +:+ Str.NL +:+ rest) with (title +:+ String Str.nl rest).
  rewrite StrFacts.split_on_app, (StrFacts.split_on_no_sep _ _ Ht). done.
Qed.

End CommitExport.

Section CommitExportSpec.
Variable git_diff : files → files → option string.
Variable today : string.

Lemma export_commit_top idx c m w p pa ps pc :
  patches w = Some p →
  parents c = pa :: ps →
  odb (repo w) !! pa = Some pc →
  Str.mem "/" (commit_title c) = false →
  (∀ es, p !! patch_name idx c ≠ Some (Dir es)) →
  _export_commit git_diff None idx c m w =
    (Ok tt,
     set_patches
       (Some (if truthy (git_diff (tree pc) (tree c))
              then <[patch_name idx c :=
                       File (patch_text c m
                               (default "" (git_diff (tree pc) (tree c))))]> p
              else p)) w).
Proof.
  intros Hp Hpar Hpc Ht Hfree. unfold _export_commit, diff. rewrite Hpar.
  assert (lookup_commit pa w = (Ok pc, w)) as Hl
    by (unfold lookup_commit; by rewrite Hpc).
  unfold mbind at 1, M_bind at 1. rewrite (bind_ok _ _ _ _ _ Hl).
  unfold mret, M_ret.
  destruct (truthy (git_diff (tree pc) (tree c))); [|by rewrite set_patches_id].
  unfold mbind, M_bind, ensure_dir. rewrite Hp.
  unfold write_file. rewrite Hp.
  fold (patch_name idx c).
  assert (Str.cut "/" (patch_name idx c) = None) as ->
    by apply (StrFacts.cut_None _ _ (FmtFacts.patch_name_slash idx _ Ht)).
  destruct (p !! patch_name idx c) as [[?|es]|] eqn:Hn; try done.
  by destruct (Hfree es).
Qed.

End CommitExportSpec.

(** C4 (amended). [commit_export(patches_dir, index, title, author,
    email, description, files)] creates exactly one new commit whose
    parent is the prior head, whose author is the given identity and whose
    metadata block holds [Description] = description, [Forwarded] = [no]
    and [Last-Update] = today's date. When the diff of that commit is not
    empty it writes exactly one patch file, named with the zero-padded
    caller-supplied index and the title, directly in [patches_dir] (not
    in a partition subdirectory), and touches no other entry of
    [patches_dir]; when the diff is empty it writes no file. *)
Theorem C4_commit_export (git_diff : files → files → option string)
    (today : string) (idx : Z) (title a email description : string)
    (fs : list string) (w : world) (h : nat) (pc : commit) (ix' : files) :
  head (repo w) = Some h →
  odb (repo w) !! h = Some pc →
  stage (worktree (repo w)) (index (repo w)) fs = Some ix' →
  Str.mem Str.nl title = false →
  Str.mem "/" title = false →
  Deb822.value_ok description = true →
  Deb822.value_ok today = true →
  (∀ es, default ∅ (patches w) !! (Fmt.fmt04 idx +:+ "-" +:+ title)
         ≠ Some (Dir es)) →
  let m := fresh_meta today description in
  let c := Commit [h] (Signature a email) (Signature a email)
             (title +:+ Str.NL +:+ Str.NL +:+ Deb822.encode m) ix' in
  let d := git_diff (tree pc) ix' in
  ∃ w',
    commit_export git_diff today idx title a email description fs w = (Ok tt, w') ∧
    odb (repo w') = odb (repo w) ++ [c] ∧
    head (repo w') = Some (length (odb (repo w))) ∧
    commit_meta c = Ok m ∧
    patches w' =
      Some (if truthy d
            then <[Fmt.fmt04 idx +:+ "-" +:+ title :=
                     File (Deb822.encode
                             (m ++ [("Author", a +:+ " <" +:+ email +:+ ">")])
                           +:+ Str.NL +:+ Str.NL +:+ default "" d)]>
                   (default ∅ (patches w))
            else default ∅ (patches w)).
Proof.
  intros Hh Hpc Hs Hnl Hsl Hdesc Htoday Hfree m c d.
  pose proof (fresh_meta_valid today description Hdesc Htoday) as Hvalid.
  assert (Hmeta : commit_meta c = Ok m) by (by apply commit_meta_message).
  assert (Htitle : commit_title c = title) by (by apply commit_title_message).
  pose (w1 := set_repo (committed [h] a email
                (title +:+ Str.NL +:+ Str.NL +:+ Deb822.encode m) ix' (repo w)) w).
  pose (w2 := World (repo w1) (Some (default ∅ (patches w)))
               (match patches w with None => true | Some _ => parent_dir w end)).
  assert (Hdb1 : odb (repo w2) = odb (repo w) ++ [c]) by done.
  assert (Hhead1 : head (repo w1) = Some (length (odb (repo w)))) by done.
  assert (Hlast : lookup_commit (length (odb (repo w))) w1 = (Ok c, w1)).
  { unfold lookup_commit. simpl. by rewrite list_lookup_middle. }
  assert (Hdir : ensure_dir_parents w1 = (Ok tt, w2)).
  { unfold ensure_dir_parents, w2.
    change (patches w1) with (patches w).
    destruct (patches w) eqn:Hp; [|done].
    f_equal. unfold w1, set_repo. simpl. by rewrite Hp. }
  assert (Hpc2 : odb (repo w2) !! h = Some pc).
  { rewrite Hdb1. by apply lookup_app_l_Some. }
  exists (set_patches
            (Some (if truthy d
                   then <[patch_name idx c :=
                            File (patch_text c m (default "" d))]>
                          (default ∅ (patches w))
                   else default ∅ (patches w))) w2).
  split; [|split; [done|split; [done|split; [done|]]]].
  - unfold commit_export. fold m.
    rewrite (bind_ok _ _ _ _ _ (commit_files_ok a email title m fs w h ix' Hh Hs)).
    change (set_repo _ w) with w1.
    rewrite (bind_ok _ _ _ _ _ (head_target_ok _ _ Hhead1)).
    rewrite (bind_ok _ _ _ _ _ Hlast).
    rewrite (bind_ok _ _ _ _ _ Hdir).
    unfold mbind at 1, M_bind at 1, lift. rewrite Hmeta.
    apply (export_commit_top git_diff idx c m w2 _ h [] pc); try done.
    + by rewrite Htitle.
    + unfold patch_name. by rewrite Htitle.
  - simpl. unfold patch_name, patch_text. rewrite Htitle.
    destruct (truthy d); [|done]. do 3 f_equal.
Qed.

Lemma C4_commit_export_witness :
  ∃ w',
    commit_export Example.diff_a_txt "2021-06-01" 5 "add-feature" "A" "a@x.com"
      "adds feature" ["a.txt"] Example.edited = (Ok tt, w') ∧
    head (repo w') = Some (length (odb (repo Example.edited))) ∧
    patches w' =
      Some (<["0005-add-feature" :=
                File (Deb822.encode
                        (fresh_meta "2021-06-01" "adds feature"
                         ++ [("Author", "A <a@x.com>")])
                      +:+ Str.NL +:+ Str.NL +:+ "+feature")]>
              (default ∅ (patches Example.edited))).
Proof.
  assert (H1 : head (repo Example.edited) = Some 2%nat)
    by (vm_compute; reflexivity).
  assert (H2 : odb (repo Example.edited) !! 2%nat = Some Example.edited_head)
    by (vm_compute; reflexivity).
  assert (H3 : stage (worktree (repo Example.edited))
                 (index (repo Example.edited)) ["a.txt"]
               = Some Example.edited_index)
    by (vm_compute; reflexivity).
  assert (H8 : ∀ es, default ∅ (patches Example.edited)
                       !! (Fmt.fmt04 5 +:+ "-" +:+ "add-feature") ≠ Some (Dir es))
    by (intros es; vm_compute; discriminate).
  destruct (C4_commit_export Example.diff_a_txt "2021-06-01" 5 "add-feature"
              "A" "a@x.com" "adds feature" ["a.txt"] Example.edited 2
              Example.edited_head Example.edited_index
              H1 H2 H3 eq_refl eq_refl eq_refl eq_refl H8)
    as (w' & Hrun & _ & Hh & _ & Hp).
  exists w'. split; [exact Hrun|]. split; [exact Hh|exact Hp].
Defined.

(** The claim C4 as stated fails: the patch file is written in
    [patches_dir] itself, and no partition subdirectory receives a file. *)
Lemma C4_counterexample :
  commit_export Example.diff_a_txt "2021-06-01" 5 "add-feature" "A" "a@x.com"
    "adds feature" ["a.txt"] Example.edited = (Ok tt, Example.edited_exported) ∧
  entry Example.edited_exported "0005-add-feature" =
    Some (File (Example.field "Description" "adds feature"
                +:+ Example.field "Forwarded" "no"
                +:+ Example.field "Last-Update" "2021-06-01"
                +:+ Example.field "Author" "A <a@x.com>"
                +:+ Str.NL +:+ Str.NL +:+ "+feature")) ∧
  size (default ∅ (patches Example.edited_exported)) = 3%nat ∧
  entry Example.edited_exported "generic" = entry Example.edited "generic" ∧
  entry Example.edited_exported "1.2.3" = entry Example.edited "1.2.3".
Proof.
  split; [vm_compute; reflexivity|].
  split; [vm_compute; reflexivity|].
  split; [vm_compute; reflexivity|].
  split; vm_compute; reflexivity.
Qed.

(* ===================================================================== *)
(** * Validity of the metadata the engine builds                          *)
(* ===================================================================== *)

Module MetaFacts.
Import Deb822 CodecFacts.

Lemma del_keys k (m : meta) k' : k' ∈ (del k m).*1 → k' ∈ m.*1 ∧ k' ≠ k.
Proof.
  induction m as [|[k0 v0] m IH]; simpl; [by intros ?%elem_of_nil|].
  case_decide as Hk.
  - intros [? ?]%IH. split; [by right|done].
  - simpl. intros [->|Hin]%elem_of_cons.
    + split; [by left|done].
    + apply IH in Hin as [? ?]. split; [by right|done].
Qed.

Lemma del_NoDup k (m : meta) : NoDup (m.*1) → NoDup ((del k m).*1).
Proof.
  induction m as [|[k0 v0] m IH]; simpl; [done|].
  intros [Hnin Hnd]%NoDup_cons. case_decide; [by apply IH|].
  simpl. apply NoDup_cons. split; [|by apply IH].
  intros Hin%del_keys. by destruct Hin.
Qed.

Lemma del_fields k (m : meta) :
  forallb field_ok m = true → forallb field_ok (del k m) = true.
Proof.
  induction m as [|[k0 v0] m IH]; simpl; [done|].
  intros [H0 Hm]%andb_true_iff. case_decide; [by apply IH|].
  simpl. by rewrite H0, IH.
Qed.

Lemma valid_del k (m : meta) : valid m → valid (del k m).
Proof. intros [? ?]. split; [by apply del_NoDup|by apply del_fields]. Qed.

Lemma set_keys k v (m : meta) k' : k' ∈ (set k v m).*1 → k' ∈ m.*1 ∨ k' = k.
Proof.
  induction m as [|[k0 v0] m IH]; simpl.
  - intros ?%list_elem_of_singleton. by right.
  - case_decide as Hk; simpl.
    + intros [->|?]%elem_of_cons; [by right|]. left. by right.
    + intros [->|Hin]%elem_of_cons; [left; by left|].
      destruct (IH Hin); [left; by right|by right].
Qed.

Lemma set_NoDup k v (m : meta) : NoDup (m.*1) → NoDup ((set k v m).*1).
Proof.
  induction m as [|[k0 v0] m IH]; simpl; [intros _; apply NoDup_singleton|].
  intros [Hnin Hnd]%NoDup_cons. case_decide as Hk; simpl.
  - subst. by apply NoDup_cons.
  - apply NoDup_cons. split; [|by apply IH].
    intros [?|?]%set_keys; [done|by subst].
Qed.

Lemma set_fields k v (m : meta) :
  key_ok k = true → value_ok v = true →
  forallb field_ok m = true → forallb field_ok (set k v m) = true.
Proof.
  intros Hk Hv. induction m as [|[k0 v0] m IH]; simpl.
  - intros _. unfold field_ok. simpl. by rewrite Hk, Hv.
  - intros [H0 Hm]%andb_true_iff. case_decide; simpl.
    + rewrite Hm, andb_true_r. unfold field_ok. simpl. by rewrite Hk, Hv.
    + by rewrite H0, IH.
Qed.

Lemma valid_set k v (m : meta) :
  key_ok k = true → value_ok v = true → valid m → valid (set k v m).
Proof. intros ?? [? ?]. split; [by apply set_NoDup|by apply set_fields]. Qed.

Lemma has_set k v (m : meta) : has k (set k v m) = true.
Proof.
  induction m as [|[k0 v0] m IH]; simpl.
  - by rewrite decide_True.
  - case_decide as Hk; simpl; [by rewrite decide_True|].
    by rewrite decide_False.
Qed.

Lemma get_set k v (m : meta) : get k (set k v m) = Some v.
Proof.
  induction m as [|[k0 v0] m IH]; simpl.
  - by rewrite decide_True.
  - case_decide as Hk; simpl; [by rewrite decide_True|].
    by rewrite decide_False.
Qed.

Lemma generic_set (m : meta) : is_meta_generic (set "Generic" "yes" m) = true.
Proof.
  unfold is_meta_generic. rewrite has_set, get_set.
  by rewrite bool_decide_eq_true_2.
Qed.

Lemma resolve_author_valid (m : meta) a e m' :
  resolve_author m = Ok (a, e, m') → valid m → valid m'.
Proof.
  unfold resolve_author. destruct (find_author_key m) as [key|].
  - destruct (Re.rmatch _ _) as [[|a' [|e' [|]]]|]; try done.
    intros ? Hv; simplify_eq. by apply valid_del.
  - intros ? Hv; by simplify_eq.
Qed.

End MetaFacts.

(* ===================================================================== *)
(** * C3: importing a queue and exporting it again                        *)
(* ===================================================================== *)

Section RoundTrip.
Variable patch_cmd : string → files → Z * files.
Variable git_diff : files → files → option string.

Lemma sorted_entries_singleton name content :
  sorted_entries {[ name := content ]} = [(name, content)].
Proof. unfold sorted_entries. by rewrite map_to_list_singleton. Qed.

Lemma import_subdir_single d name content w w' :
  entry w d = Some (Dir {[ name := content ]}) →
  _apply_patch patch_cmd d name content w = (Ok tt, w') →
  _import_patches_subdir patch_cmd d w = (Ok tt, w').
Proof.
  intros He Hp. unfold _import_patches_subdir, mbind, M_bind, get_world.
  rewrite He, sorted_entries_singleton. simpl.
  unfold mbind, M_bind. by rewrite Hp.
Qed.

Lemma decode_patch_file (m : Deb822.meta) D :
  Deb822.valid m →
  Deb822.decode (Deb822.encode m +:+ Str.NL +:+ Str.NL +:+ D) = Ok m.
Proof.
  intros Hv. apply CodecFacts.decode_encode_rest; [done|].
  right. by exists (Str.NL +:+ D).
Qed.


End RoundTrip.

Section RoundTripSpec.
Variable patch_cmd : string → files → Z * files.
Variable git_diff : files → files → option string.

Lemma walk_three db f k2 k1 root i2 i1 i0 :
  db !! i2 = Some k2 → parents k2 = [i1] →
  db !! i1 = Some k1 → parents k1 = [i0] →
  db !! i0 = Some root → parents root = [] →
  (3 ≤ f)%nat →
  walk f db i2 = [k2; k1; root].
Proof.
  intros H2 P2 H1 P1 H0 P0 Hf.
  destruct f as [|[|[|f]]]; try lia.
  rewrite walk_S, H2, P2. rewrite walk_S, H1, P1. by rewrite walk_S, H0, P0.
Qed.

Lemma exportable_intro db c m p ps pc :
  commit_meta c = Ok m → parents c = p :: ps → db !! p = Some pc →
  (truthy (git_diff (tree pc) (tree c)) = true →
   Str.mem "/" (commit_title c) = false) →
  exportable git_diff db c = true.
Proof.
  intros Hm Hp Hpc Ht. unfold exportable. rewrite Hm, Hp, Hpc.
  destruct (truthy _); [|done]. by rewrite Ht.
Qed.

End RoundTripSpec.

(** C3 (amended). Start from a repository whose head is the root commit
    and from the patch files [generic/0001-fix-foo] and
    [1.2.3/0001-fix-bar], each a valid metadata block, an empty line and a
    diff body ([D1], [D2]), with a well-formed author field or none, the
    second one not marked generic. If applying each file changes the
    working tree so that the diff of the resulting commit against its
    parent is the diff body of the file ([D1], then [D2], both non-empty),
    then [import_patches(dir, "1.2.3")] followed by
    [export_queue(dir, "1.2.3")] regenerates exactly the files
    [generic/0001-fix-foo] and [1.2.3/0001-fix-bar], whose diff bodies are
    [D1] and [D2] byte for byte. *)
Theorem C3_import_export_roundtrip
    (patch_cmd : string → files → Z * files)
    (git_diff : files → files → option string)
    (m1 m2 m1' m2' : Deb822.meta) (a1 e1 a2 e2 D1 D2 : string)
    (w : world) (p : gmap string node) (h : nat) (root : commit) :
  let f1 := Deb822.encode m1 +:+ Str.NL +:+ Str.NL +:+ D1 in
  let f2 := Deb822.encode m2 +:+ Str.NL +:+ Str.NL +:+ D2 in
  let wt1 := (patch_cmd f1 (worktree (repo w))).2 in
  let wt2 := (patch_cmd f2 wt1).2 in
  let k1 := Commit [h] (Signature a1 e1) (Signature a1 e1)
              ("fix-foo" +:+ Str.NL +:+ Str.NL +:+
               Deb822.encode (Deb822.set "Generic" "yes" m1')) wt1 in
  let k2 := Commit [length (odb (repo w))] (Signature a2 e2) (Signature a2 e2)
              ("fix-bar" +:+ Str.NL +:+ Str.NL +:+ Deb822.encode m2') wt2 in
  patches w = Some p →
  p !! "generic" = Some (Dir {[ "0001-fix-foo" := f1 ]}) →
  p !! "1.2.3" = Some (Dir {[ "0001-fix-bar" := f2 ]}) →
  Deb822.valid m1 → Deb822.valid m2 →
  resolve_author m1 = Ok (a1, e1, m1') →
  resolve_author m2 = Ok (a2, e2, m2') →
  Deb822.is_meta_generic m2' = false →
  head (repo w) = Some h → odb (repo w) !! h = Some root → parents root = [] →
  git_diff (tree root) wt1 = Some D1 → D1 ≠ "" →
  git_diff wt1 wt2 = Some D2 → D2 ≠ "" →
  ∃ w1 w2,
    import_patches patch_cmd "1.2.3" w = (Ok tt, w1) ∧
    export_queue git_diff "1.2.3" w1 = (Ok tt, w2) ∧
    listing w2 "generic" =
      {[ "0001-fix-foo" := patch_text k1 (Deb822.set "Generic" "yes" m1') D1 ]} ∧
    listing w2 "1.2.3" =
      {[ "0001-fix-bar" := patch_text k2 m2' D2 ]} ∧
    (∀ c m D, patch_text c m D =
              Deb822.encode (export_meta c m) +:+ Str.NL +:+ Str.NL +:+ D).
Proof.
  intros f1 f2 wt1 wt2 k1 k2 Hp Hgen Hver Hv1 Hv2 Ha1 Ha2 Hng Hh Hroot Hpr
    Hd1 Hne1 Hd2 Hne2.
  pose proof (MetaFacts.resolve_author_valid _ _ _ _ Ha1 Hv1) as Hv1'.
  pose proof (MetaFacts.resolve_author_valid _ _ _ _ Ha2 Hv2) as Hv2'.
  assert (Hvg : Deb822.valid (Deb822.set "Generic" "yes" m1'))
    by (by apply MetaFacts.valid_set).
  (* the import *)
  pose (wA := applied patch_cmd "generic" f1 "fix-foo" a1 e1 m1' h w).
  pose (wB := applied patch_cmd "1.2.3" f2 "fix-bar" a2 e2 m2'
                (length (odb (repo w))) wA).
  assert (HA : _apply_patch patch_cmd "generic" "0001-fix-foo" f1 w = (Ok tt, wA)).
  { apply (apply_patch_ok _ _ _ _ _ "0001" _ m1); try done.
    by apply decode_patch_file. }
  assert (HB : _apply_patch patch_cmd "1.2.3" "0001-fix-bar" f2 wA = (Ok tt, wB)).
  { apply (apply_patch_ok _ _ _ _ _ "0001" _ m2); try done.
    by apply decode_patch_file. }
  assert (Himp : import_patches patch_cmd "1.2.3" w = (Ok tt, wB)).
  { unfold import_patches. simpl for_each.
    erewrite bind_ok;
      [|apply (import_subdir_single patch_cmd "generic" "0001-fix-foo" f1 w wA);
        [|exact HA]].
    2:{ unfold entry. rewrite Hp. exact Hgen. }
    erewrite bind_ok;
      [|apply (import_subdir_single patch_cmd "1.2.3" "0001-fix-bar" f2 wA wB);
        [|exact HB]].
    2:{ unfold entry. change (patches wA) with (patches w). rewrite Hp. exact Hver. }
    done. }
  (* the history after the import *)
  set (len := length (odb (repo w))) in *.
  assert (Hdb : odb (repo wB) = (odb (repo w) ++ [k1]) ++ [k2]) by done.
  assert (HheadB : head (repo wB) = Some (S len)).
  { simpl. rewrite length_app. simpl. f_equal. fold len. lia. }
  assert (HpB : patches wB = Some p) by done.
  assert (Hlen : (h < len)%nat) by (by apply lookup_lt_Some in Hroot).
  clearbody wB.
  assert (Hk2 : odb (repo wB) !! S len = Some k2).
  { rewrite Hdb. replace (S len) with (length (odb (repo w) ++ [k1]))
      by (rewrite length_app; simpl; fold len; lia).
    apply list_lookup_middle. done. }
  assert (Hk1 : odb (repo wB) !! len = Some k1).
  { rewrite Hdb, <- app_assoc. by apply list_lookup_middle. }
  assert (Hk0 : odb (repo wB) !! h = Some root).
  { rewrite Hdb, <- app_assoc. by apply lookup_app_l_Some. }
  assert (Hwalk : walk (length (odb (repo wB))) (odb (repo wB)) (S len)
                  = [k2; k1; root]).
  { apply (walk_three _ _ _ _ _ _ len h); try done.
    rewrite Hdb, !length_app. simpl. lia. }
  assert (Hm1 : commit_meta k1 = Ok (Deb822.set "Generic" "yes" m1'))
    by (by apply commit_meta_message).
  assert (Hm2 : commit_meta k2 = Ok m2') by (by apply commit_meta_message).
  assert (Ht1 : commit_title k1 = "fix-foo") by (by apply commit_title_message).
  assert (Ht2 : commit_title k2 = "fix-bar") by (by apply commit_title_message).
  assert (Hg1 : generic_commit k1 = true).
  { unfold generic_commit. rewrite Hm1. apply MetaFacts.generic_set. }
  assert (Hg2 : generic_commit k2 = false).
  { unfold generic_commit. by rewrite Hm2. }
  assert (Hdiff1 : diff_of git_diff (odb (repo wB)) k1 = Some D1).
  { unfold diff_of. change (parents k1) with [h]. cbv beta iota.
    by rewrite Hk0. }
  assert (Hdiff2 : diff_of git_diff (odb (repo wB)) k2 = Some D2).
  { unfold diff_of. change (parents k2) with [len]. cbv beta iota.
    by rewrite Hk1. }
  assert (Hvis : visited [k2; k1; root] = [k2; k1]).
  { simpl. by rewrite Hpr. }
  (* the export *)
  exists wB. eexists. split; [exact Himp|]. split.
  { apply (export_queue_spec git_diff "1.2.3" wB (S len)).
    - unfold dir_ready. by rewrite HpB.
    - rewrite HpB. simpl. unfold dir_free. by rewrite Hgen.
    - rewrite HpB. simpl. unfold dir_free. by rewrite Hver.
    - exact HheadB.
    - rewrite Hwalk, Hvis. simpl. apply andb_true_iff. split.
      + apply (exportable_intro _ _ _ m2' len [] k1); try done;
          intros _; by rewrite Ht2.
      + rewrite andb_true_r.
        apply (exportable_intro _ _ _ (Deb822.set "Generic" "yes" m1') h [] root);
          try done; intros _; by rewrite Ht1. }
  rewrite !listing_set_patches, Hwalk, Hvis.
  assert (Hcg : count_in true [k2; k1] = 1).
  { rewrite !count_in_cons, Hg1, Hg2. by rewrite decide_False, decide_True. }
  assert (Hcv : count_in false [k2; k1] = 1).
  { rewrite !count_in_cons, Hg1, Hg2. by rewrite decide_True, decide_False. }
  rewrite Hcg, Hcv. simpl export_files.
  rewrite Hg1, Hg2, Hm1, Hm2, Hdiff1, Hdiff2. simpl partition_dir.
  destruct D1 as [|x1 D1']; [done|]. destruct D2 as [|x2 D2']; [done|].
  unfold patch_name. rewrite Ht1, Ht2.
  change (Fmt.fmt04 1 +:+ "-" +:+ "fix-foo") with "0001-fix-foo".
  change (Fmt.fmt04 1 +:+ "-" +:+ "fix-bar") with "0001-fix-bar".
  split; [|split; [|done]].
  - rewrite dir_files_write_in, dir_files_write_in_ne by done.
    rewrite (dir_files_emptied "1.2.3" true) by done.
    by rewrite insert_empty.
  - rewrite dir_files_write_in_ne, dir_files_write_in by done.
    rewrite (dir_files_emptied "1.2.3" false) by done.
    by rewrite insert_empty.
Qed.

Lemma C3_import_export_roundtrip_witness :
  ∃ w1 w2 hd1 hd2,
    import_patches Example.patch_last_line "1.2.3" Example.roundtrip_start
      = (Ok tt, w1) ∧
    export_queue Example.diff_a_txt "1.2.3" w1 = (Ok tt, w2) ∧
    listing w2 "generic" =
      {[ "0001-fix-foo" := hd1 +:+ Str.NL +:+ Str.NL +:+ "+foo" ]} ∧
    listing w2 "1.2.3" =
      {[ "0001-fix-bar" := hd2 +:+ Str.NL +:+ Str.NL +:+ "+bar" ]}.
Proof.
  assert (Hv1 : Deb822.valid Example.foo_meta)
    by (split; [by compute_done|reflexivity]).
  assert (Hv2 : Deb822.valid Example.bar_meta)
    by (split; [by compute_done|reflexivity]).
  assert (Hgen : Example.start_patches !! "generic" =
                 Some (Dir {[ "0001-fix-foo" :=
                   Deb822.encode Example.foo_meta +:+ Str.NL +:+ Str.NL +:+ "+foo" ]}))
    by (vm_compute; reflexivity).
  assert (Hver : Example.start_patches !! "1.2.3" =
                 Some (Dir {[ "0001-fix-bar" :=
                   Deb822.encode Example.bar_meta +:+ Str.NL +:+ Str.NL +:+ "+bar" ]}))
    by (vm_compute; reflexivity).
  assert (Hd1 : Example.diff_a_txt (tree Example.root)
            (Example.patch_last_line
               (Deb822.encode Example.foo_meta +:+ Str.NL +:+ Str.NL +:+ "+foo")
               (worktree (repo Example.roundtrip_start))).2 = Some "+foo")
    by (vm_compute; reflexivity).
  assert (Hd2 : Example.diff_a_txt
            (Example.patch_last_line
               (Deb822.encode Example.foo_meta +:+ Str.NL +:+ Str.NL +:+ "+foo")
               (worktree (repo Example.roundtrip_start))).2
            (Example.patch_last_line
               (Deb822.encode Example.bar_meta +:+ Str.NL +:+ Str.NL +:+ "+bar")
               (Example.patch_last_line
                  (Deb822.encode Example.foo_meta +:+ Str.NL +:+ Str.NL +:+ "+foo")
                  (worktree (repo Example.roundtrip_start))).2).2 = Some "+bar")
    by (vm_compute; reflexivity).
  destruct (C3_import_export_roundtrip Example.patch_last_line Example.diff_a_txt
              Example.foo_meta Example.bar_meta
              [("Description", "fix foo")] [("Description", "fix bar")]
              "John Doe" "john@example.org" "Jane Roe" "jane@example.org"
              "+foo" "+bar" Example.roundtrip_start Example.start_patches
              0%nat Example.root
              eq_refl Hgen Hver Hv1 Hv2 eq_refl eq_refl eq_refl eq_refl eq_refl
              eq_refl Hd1 ltac:(discriminate) Hd2 ltac:(discriminate))
    as (w1 & w2 & Himp & Hexp & Hg & Hv & Htext).
  exists w1, w2. eexists _, _.
  split; [exact Himp|]. split; [exact Hexp|]. split.
  - rewrite Hg, Htext. reflexivity.
  - rewrite Hv, Htext. reflexivity.
Defined.

(** The claim C3 as stated fails when the patches do not apply: with a
    [patch] that rejects every hunk the commits of the import have empty
    diffs, and the export regenerates neither file. *)
Lemma C3_counterexample :
  import_patches Example.patch_reject "1.2.3" Example.roundtrip_start
    = (Ok tt, Example.imported_rejected) ∧
  ∃ w2, export_queue Example.diff_a_txt "1.2.3" Example.imported_rejected
          = (Ok tt, w2) ∧
        listing w2 "generic" = ∅ ∧ listing w2 "1.2.3" = ∅.
Proof.
  split; [vm_compute; reflexivity|].
  eexists. split; [vm_compute; reflexivity|]. split; reflexivity.
Qed.

(* ===================================================================== *)
(** * What the entry points leave alone                                   *)
(* ===================================================================== *)

Section Preserves.
Context {X : Type} (f : world → X).

Lemma preserves_pure {A} (m : M A) : (∀ w, (m w).2 = w) → preserves f m.
Proof. intros H w r w' Hm. specialize (H w). rewrite Hm in H. by subst. Qed.

Lemma preserves_step {A} (m : M A) : (∀ w, f (m w).2 = f w) → preserves f m.
Proof. intros H w r w' Hm. specialize (H w). by rewrite Hm in H. Qed.

Lemma preserves_bind {A B} (m : M A) (k : A → M B) :
  preserves f m → (∀ a, preserves f (k a)) → preserves f (m ≫= k).
Proof.
  intros Hm Hk w r w' Hrun. unfold mbind, M_bind in Hrun.
  destruct (m w) as [[a|e] w1] eqn:Hmw.
  - rewrite (Hk a _ _ _ Hrun). by apply (Hm _ _ _ Hmw).
  - injection Hrun as <- <-. by apply (Hm _ _ _ Hmw).
Qed.

Lemma preserves_for_each {A} (body : A → M unit) xs :
  (∀ x, preserves f (body x)) → preserves f (for_each body xs).
Proof.
  intros Hb. induction xs as [|x xs IH]; simpl.
  - by apply preserves_pure.
  - apply preserves_bind; [apply Hb|]. by intros _.
Qed.
End Preserves.

Section ImportFrame.
Variable patch_cmd : string → files → Z * files.

Lemma preserves_head_target : preserves patches_state head_target.
Proof.
  apply preserves_pure. intros w. unfold head_target.
  by destruct (head (repo w)).
Qed.

Lemma preserves_base_commit ref ps a e msg fs :
  preserves patches_state (_base_commit ref ps a e msg fs).
Proof.
  unfold _base_commit. apply preserves_bind.
  - destruct fs as [l|]; [|by apply preserves_step].
    apply preserves_for_each. intros x. apply preserves_step. intros w.
    unfold index_add. by destruct (worktree (repo w) !! x).
  - intros _. apply preserves_bind; [by apply preserves_pure|].
    intros t. apply preserves_step. intros w. unfold create_commit.
    by destruct (match head (repo w) with
                 | Some tip => match ps with
                               | [] => false
                               | p :: _ => bool_decide (p = tip)
                               end
                 | None => true
                 end).
Qed.

Lemma preserves_commit a e title m fs :
  preserves patches_state (_commit a e title m fs).
Proof.
  unfold _commit, head_name. apply preserves_bind.
  - apply preserves_bind; [apply preserves_head_target|].
    intros _. by apply preserves_pure.
  - intros ref. apply preserves_bind; [apply preserves_head_target|].
    intros tip. apply preserves_base_commit.
Qed.

Lemma preserves_apply_patch d name content :
  preserves patches_state (_apply_patch patch_cmd d name content).
Proof.
  unfold _apply_patch. apply preserves_bind.
  { destruct (Str.split_max "-" 1 name) as [|? [|? [|]]]; by apply preserves_pure. }
  intros title. apply preserves_bind; [by apply preserves_pure|].
  intros m. apply preserves_bind; [by apply preserves_pure|].
  intros [[a e] m']. apply preserves_bind.
  - apply preserves_step. intros w. unfold run_patch.
    by destruct (patch_cmd content (worktree (repo w))).
  - intros _. apply preserves_commit.
Qed.

Lemma preserves_import_subdir d :
  preserves patches_state (_import_patches_subdir patch_cmd d).
Proof.
  unfold _import_patches_subdir. apply preserves_bind; [by apply preserves_pure|].
  intros w0. destruct (entry w0 d) as [[?|es]|]; try by apply preserves_pure.
  apply preserves_for_each. intros p. apply preserves_apply_patch.
Qed.

Lemma preserves_import_patches version :
  preserves patches_state (import_patches patch_cmd version).
Proof.
  unfold import_patches. apply preserves_for_each. intros d.
  apply preserves_import_subdir.
Qed.

End ImportFrame.

(** X1. [import_patches] only reads the patches directory: whether it returns
    or raises, and whatever [patch] does to the working tree, the patches
    directory holds the same entries with the same contents afterwards. *)
Theorem import_leaves_patches (patch_cmd : string → files → Z * files)
    (version : string) (w w' : world) (r : res unit) :
  import_patches patch_cmd version w = (r, w') →
  patches w' = patches w ∧ parent_dir w' = parent_dir w.
Proof.
  intros Hrun.
  pose proof (preserves_import_patches patch_cmd version w r w' Hrun) as H.
  unfold patches_state in H. by injection H as -> ->.
Qed.

Lemma import_leaves_patches_witness :
  patches (import_patches Example.patch_last_line "1.2.3"
             Example.broken_queue).2 = patches Example.broken_queue.
Proof.
  refine (proj1 (import_leaves_patches Example.patch_last_line "1.2.3"
            Example.broken_queue _
            (import_patches Example.patch_last_line "1.2.3"
               Example.broken_queue).1 _)).
  by destruct (import_patches Example.patch_last_line "1.2.3"
                 Example.broken_queue).
Defined.

Section ExportFrame.
Variable git_diff : files → files → option string.

Lemma preserves_repo_diff c : preserves repo (diff git_diff c).
Proof.
  apply preserves_pure. intros w. unfold diff.
  destruct (parents c) as [|p ps]; [done|].
  unfold mbind, M_bind, lookup_commit. by destruct (odb (repo w) !! p).
Qed.

Lemma preserves_repo_ensure_dir target : preserves repo (ensure_dir target).
Proof.
  apply preserves_step. intros w. unfold ensure_dir.
  destruct target as [d|], (patches w) as [p|]; try done.
  - by destruct (p !! d).
  - by destruct (parent_dir w).
Qed.

Lemma preserves_repo_write_file target name content :
  preserves repo (write_file target name content).
Proof.
  apply preserves_step. intros w. unfold write_file.
  destruct (patches w) as [p|]; [|done]. destruct target as [d|].
  - destruct (p !! d) as [[?|es]|]; try done. by destruct (Str.mem "/" name).
  - destruct (Str.cut "/" name) as [[d f]|].
    + destruct (p !! d) as [[?|es]|]; try done.
      by destruct (Str.mem "/" f || bool_decide (f = "")).
    + by destruct (p !! name) as [[?|?]|].
Qed.

Lemma preserves_repo_export_commit target idx c m :
  preserves repo (_export_commit git_diff target idx c m).
Proof.
  unfold _export_commit.
  apply preserves_bind; [apply preserves_repo_diff|]. intros d.
  destruct (truthy d); [|by apply preserves_pure].
  apply preserves_bind; [apply preserves_repo_ensure_dir|].
  intros _. apply preserves_repo_write_file.
Qed.

Lemma preserves_repo_remove_patches d : preserves repo (remove_patches d).
Proof.
  apply preserves_step. intros w. unfold remove_patches.
  destruct (patches w) as [p|]; [|done]. by destruct (p !! d) as [[?|?]|].
Qed.

Lemma preserves_repo_walker : preserves repo walker.
Proof.
  apply preserves_pure. intros w.
  unfold walker, head_target, mbind, M_bind. by destruct (head (repo w)).
Qed.

Lemma preserves_repo_count_loop cs : ∀ ig iv, preserves repo (count_loop cs ig iv).
Proof.
  induction cs as [|c cs IH]; intros ig iv; simpl; [by apply preserves_pure|].
  destruct (parents c); [by apply preserves_pure|].
  apply preserves_bind; [by apply preserves_pure|]. intros m.
  destruct (Deb822.is_meta_generic m); apply IH.
Qed.

Lemma preserves_repo_export_loop version cs :
  ∀ ig iv, preserves repo (export_loop git_diff version cs ig iv).
Proof.
  induction cs as [|c cs IH]; intros ig iv; simpl; [by apply preserves_pure|].
  destruct (parents c); [by apply preserves_pure|].
  apply preserves_bind; [by apply preserves_pure|]. intros m.
  destruct (Deb822.is_meta_generic m);
    (apply preserves_bind; [apply preserves_repo_export_commit|]);
    intros _; apply IH.
Qed.

Lemma preserves_repo_export_queue version :
  preserves repo (export_queue git_diff version).
Proof.
  unfold export_queue.
  apply preserves_bind; [apply preserves_repo_ensure_dir|]. intros _.
  apply preserves_bind.
  { apply preserves_for_each. intros d. apply preserves_repo_remove_patches. }
  intros _. apply preserves_bind; [apply preserves_repo_walker|]. intros cs.
  apply preserves_bind; [apply preserves_repo_count_loop|]. intros [ig iv].
  apply preserves_bind; [apply preserves_repo_walker|]. intros cs'.
  apply preserves_repo_export_loop.
Qed.

End ExportFrame.

(** X2. [export_queue] only reads the repository: whether it returns or
    raises, the object store, the head, the index and the working tree are
    what they were before the call. *)
Theorem export_leaves_repository (git_diff : files → files → option string)
    (version : string) (w w' : world) (r : res unit) :
  export_queue git_diff version w = (r, w') → repo w' = repo w.
Proof. apply preserves_repo_export_queue. Qed.

Lemma export_leaves_repository_witness :
  repo (export_queue Example.diff_a_txt "1.2.3" Example.broken_history).2 =
  repo Example.broken_history.
Proof.
  apply (export_leaves_repository Example.diff_a_txt "1.2.3"
           Example.broken_history _
           (export_queue Example.diff_a_txt "1.2.3" Example.broken_history).1).
  by destruct (export_queue Example.diff_a_txt "1.2.3" Example.broken_history).
Defined.

(* ===================================================================== *)
(** * The history only grows                                              *)
(* ===================================================================== *)

Lemma grows_same {A} (m : M A) : (∀ w, odb (repo (m w).2) = odb (repo w) ∧
                                      head (repo (m w).2) = head (repo w)) →
  grows m.
Proof.
  intros H w r w' Hm. specialize (H w). rewrite Hm in H. simpl in H.
  destruct H as [Hdb Hh]. split; [by rewrite Hdb|].
  intros [Hs Hhd]. split; [by rewrite Hdb|]. intros h. rewrite Hh, Hdb. apply Hhd.
Qed.

Lemma grows_bind {A B} (m : M A) (k : A → M B) :
  grows m → (∀ a, grows (k a)) → grows (m ≫= k).
Proof.
  intros Hm Hk w r w' Hrun. unfold mbind, M_bind in Hrun.
  destruct (m w) as [[a|e] w1] eqn:Hmw.
  - destruct (Hm _ _ _ Hmw) as [Hp1 Hok1]. destruct (Hk a _ _ _ Hrun) as [Hp2 Hok2].
    split; [by etrans|]. auto.
  - injection Hrun as <- <-. by apply (Hm _ _ _ Hmw).
Qed.

Lemma grows_for_each {A} (body : A → M unit) xs :
  (∀ x, grows (body x)) → grows (for_each body xs).
Proof.
  intros Hb. induction xs as [|x xs IH]; simpl.
  - by apply grows_same.
  - apply grows_bind; [apply Hb|]. by intros _.
Qed.

Lemma grows_head_target : grows head_target.
Proof.
  apply grows_same. intros w. unfold head_target.
  by destruct (head (repo w)) eqn:Hh.
Qed.

Lemma grows_history {A} (m : M A) : preserves history m → grows m.
Proof.
  intros H. apply grows_same. intros w.
  specialize (H w (m w).1 (m w).2). unfold history in H.
  destruct (m w) as [r w']. simpl in *. by injection (H eq_refl) as -> ->.
Qed.

Lemma preserves_history_stage fs :
  preserves history
    (match fs with
     | None => index_add_all
     | Some l => for_each index_add l
     end).
Proof.
  destruct fs as [l|]; [|by apply preserves_step].
  apply preserves_for_each. intros x. apply preserves_step. intros w.
  unfold index_add. by destruct (worktree (repo w) !! x).
Qed.

(** [create_commit] appends one commit; the store stays well formed when
    the parents given are the head. *)
Lemma create_commit_grows ref a c msg t ps w r w' :
  create_commit ref a c msg t ps w = (r, w') →
  (∀ p, p ∈ ps → head (repo w) = Some p) →
  odb (repo w) `prefix_of` odb (repo w') ∧
  (repo_ok (repo w) → repo_ok (repo w')).
Proof.
  intros Hrun Hps. unfold create_commit in Hrun.
  destruct (match head (repo w) with
            | Some tip => match ps with
                          | [] => false
                          | p :: _ => bool_decide (p = tip)
                          end
            | None => true
            end) eqn:Hacc.
  2:{ injection Hrun as <- <-. split; [done|auto]. }
  injection Hrun as <- <-. simpl. split; [by apply prefix_app_r|].
  intros [Hs Hhd]. split; simpl.
  - intros i k p Hk Hp.
    destruct (decide (i < length (odb (repo w)))%nat) as [Hi|Hi].
    + rewrite lookup_app_l in Hk by done. by apply (Hs i k p).
    + rewrite lookup_app_r in Hk by lia.
      destruct (i - length (odb (repo w)))%nat as [|n] eqn:Hn; [|done].
      simpl in Hk. injection Hk as <-. simpl in Hp.
      pose proof (Hhd p (Hps p Hp)). lia.
  - intros h [= <-]. rewrite length_app. simpl. lia.
Qed.

Lemma base_commit_grows ref ps a e msg fs w r w' :
  _base_commit ref ps a e msg fs w = (r, w') →
  (∀ p, p ∈ ps → head (repo w) = Some p) →
  odb (repo w) `prefix_of` odb (repo w') ∧
  (repo_ok (repo w) → repo_ok (repo w')).
Proof.
  intros Hrun Hps. unfold _base_commit in Hrun.
  unfold mbind at 1, M_bind at 1 in Hrun.
  destruct (match fs with
            | None => index_add_all
            | Some l => for_each index_add l
            end w) as [[[]|err] w1] eqn:Hstage.
  - pose proof (preserves_history_stage fs w _ _ Hstage) as Hh.
    unfold history in Hh. injection Hh as Hdb Hhead.
    unfold mbind, M_bind, write_tree in Hrun.
    destruct (create_commit_grows _ _ _ _ _ _ _ _ _ Hrun) as [Hp Hok].
    { intros p Hp. rewrite Hhead. by apply Hps. }
    rewrite Hdb in Hp. split; [done|].
    intros [Hs Hhd]. apply Hok. split; [by rewrite Hdb|].
    intros h. rewrite Hhead, Hdb. apply Hhd.
  - injection Hrun as <- <-.
    by apply (grows_history _ (preserves_history_stage fs) w (Raise err) w1).
Qed.

Lemma grows_initial_commit a e : grows (_initial_commit a e).
Proof.
  intros w r w' Hrun. unfold _initial_commit in Hrun.
  apply (base_commit_grows _ _ _ _ _ _ _ _ _ Hrun).
  by intros p ?%elem_of_nil.
Qed.

Lemma grows_commit a e title m fs : grows (_commit a e title m fs).
Proof.
  intros w r w' Hrun. unfold _commit, head_name, head_target in Hrun.
  unfold mbind, M_bind in Hrun.
  destruct (head (repo w)) as [tip|] eqn:Hh.
  - simpl in Hrun. rewrite Hh in Hrun.
    apply (base_commit_grows _ _ _ _ _ _ _ _ _ Hrun).
    by intros p ->%list_elem_of_singleton.
  - simpl in Hrun. injection Hrun as <- <-. split; [done|auto].
Qed.

Section GrowsImport.
Variable patch_cmd : string → files → Z * files.

Lemma grows_apply_patch d name content :
  grows (_apply_patch patch_cmd d name content).
Proof.
  unfold _apply_patch. apply grows_bind.
  { destruct (Str.split_max "-" 1 name) as [|? [|? [|]]];
      by apply grows_same. }
  intros title. apply grows_bind; [by apply grows_same|].
  intros m. apply grows_bind; [by apply grows_same|].
  intros [[a e] m']. apply grows_bind.
  - apply grows_same. intros w. unfold run_patch.
    by destruct (patch_cmd content (worktree (repo w))).
  - intros _. apply grows_commit.
Qed.

Lemma grows_import_patches version : grows (import_patches patch_cmd version).
Proof.
  unfold import_patches. apply grows_for_each. intros d.
  unfold _import_patches_subdir. apply grows_bind; [by apply grows_same|].
  intros w0. destruct (entry w0 d) as [[?|es]|]; try by apply grows_same.
  apply grows_for_each. intros p. apply grows_apply_patch.
Qed.

End GrowsImport.

(** X3. [import_patches] never rewrites history: whether it returns or
    raises, the commits that were in the object store are still there
    under the same ids, new commits come after them, and a store in which
    parents are older objects and the head is present stays so. *)
Theorem import_history_grows (patch_cmd : string → files → Z * files)
    (version : string) (w w' : world) (r : res unit) :
  import_patches patch_cmd version w = (r, w') →
  odb (repo w) `prefix_of` odb (repo w') ∧
  (repo_ok (repo w) → repo_ok (repo w')).
Proof. apply grows_import_patches. Qed.

Lemma import_history_grows_witness :
  odb (repo Example.broken_queue) `prefix_of`
  odb (repo (import_patches Example.patch_last_line "1.2.3"
               Example.broken_queue).2).
Proof.
  refine (proj1 (import_history_grows Example.patch_last_line "1.2.3"
            Example.broken_queue _
            (import_patches Example.patch_last_line "1.2.3"
               Example.broken_queue).1 _)).
  by destruct (import_patches Example.patch_last_line "1.2.3"
                 Example.broken_queue).
Defined.

(* ===================================================================== *)
(** * The commits of an import                                            *)
(* ===================================================================== *)

Section ImportSequence.
Variable patch_cmd : string → files → Z * files.

Lemma apply_patch_inv d name content w w' :
  _apply_patch patch_cmd d name content w = (Ok tt, w') →
  ∃ i title m a e m' h,
    Str.split_max "-" 1 name = [i; title] ∧
    Deb822.decode content = Ok m ∧
    resolve_author m = Ok (a, e, m') ∧
    head (repo w) = Some h ∧
    w' = applied patch_cmd d content title a e m' h w.
Proof.
  intros Hrun.
  destruct (Str.split_max "-" 1 name) as [|i [|title [|]]] eqn:Hn;
    try (unfold _apply_patch in Hrun; rewrite Hn in Hrun; discriminate).
  destruct (Deb822.decode content) as [m|] eqn:Hd.
  2:{ unfold _apply_patch in Hrun. rewrite Hn in Hrun.
      unfold mbind, M_bind, mret, M_ret, lift in Hrun.
      rewrite Hd in Hrun. discriminate. }
  destruct (resolve_author m) as [[[a e] m']|] eqn:Ha.
  2:{ unfold _apply_patch in Hrun. rewrite Hn in Hrun.
      unfold mbind, M_bind, mret, M_ret, lift in Hrun.
      rewrite Hd, Ha in Hrun. discriminate. }
  destruct (head (repo w)) as [h|] eqn:Hh.
  - exists i, title, m, a, e, m', h. repeat split; try done.
    rewrite (apply_patch_ok patch_cmd d name content w i title m a e m' h
               Hn Hd Ha Hh) in Hrun.
    by injection Hrun.
  - unfold _apply_patch in Hrun. rewrite Hn in Hrun.
    unfold mbind at 1, M_bind at 1, mret, M_ret in Hrun.
    unfold lift, mbind at 1, M_bind at 1 in Hrun. rewrite Hd in Hrun.
    unfold mbind at 1, M_bind at 1 in Hrun. rewrite Ha in Hrun.
    unfold mbind at 1, M_bind at 1, run_patch in Hrun.
    destruct (patch_cmd content (worktree (repo w))) as [st wt].
    rewrite commit_unborn in Hrun by done. discriminate.
Qed.

Lemma for_each_apply_inv fs : ∀ w w' h,
  for_each (apply_file patch_cmd) fs w = (Ok tt, w') →
  head (repo w) = Some h →
  ∃ new,
    odb (repo w') = odb (repo w) ++ new ∧
    Forall2 imports_as fs new ∧
    chained h (length (odb (repo w))) new ∧
    head (repo w') = Some (if new is [] then h
                           else (length (odb (repo w)) + length new - 1)%nat).
Proof.
  induction fs as [|[[d name] content] fs IH]; intros w w' h Hrun Hh.
  - simpl in Hrun. injection Hrun as <-. exists []. rewrite app_nil_r.
    repeat split; [constructor|done].
  - simpl in Hrun. apply bind_inv_ok in Hrun as ([] & w1 & H1 & Hrest).
    unfold apply_file in H1. simpl in H1.
    apply apply_patch_inv in H1
      as (i & title & m & a & e & m' & h0 & Hn & Hd & Ha & Hh0 & ->).
    assert (h0 = h) as -> by congruence.
    destruct (IH _ _ (length (odb (repo w))) Hrest)
      as (new & Hdb & Hall & Hch & Hhead); [done|].
    eexists (_ :: new). split; [|split; [|split]].
    + rewrite Hdb. simpl. by rewrite <- app_assoc.
    + apply Forall2_cons. split; [|exact Hall].
      exists i, title, m, a, e, m'. done.
    + simpl. split; [done|]. simpl in Hch. rewrite length_app in Hch.
      simpl in Hch. by rewrite Nat.add_1_r in Hch.
    + rewrite Hhead. simpl. rewrite length_app. simpl. f_equal.
      destruct new; simpl; lia.
Qed.

Lemma import_subdir_queue d w :
  _import_patches_subdir patch_cmd d w =
    match entry w d with
    | Some (File _) => (Raise OSError, w)
    | _ => for_each (apply_file patch_cmd) (queue_of w d) w
    end.
Proof.
  unfold _import_patches_subdir, queue_of, mbind, M_bind, get_world.
  destruct (entry w d) as [[?|es]|]; try done.
  generalize (sorted_entries es). intros l. revert w.
  induction l as [|p l IH]; intros w; [done|].
  simpl. unfold mbind, M_bind, apply_file. simpl.
  destruct (_apply_patch patch_cmd d p.1 p.2 w) as [[[]|?] w1]; [|done].
  apply IH.
Qed.

Lemma import_patches_queue version w w' :
  import_patches patch_cmd version w = (Ok tt, w') →
  for_each (apply_file patch_cmd) (import_queue version w) w = (Ok tt, w').
Proof.
  unfold import_patches, import_queue. simpl for_each. intros Hrun.
  apply bind_inv_ok in Hrun as ([] & w1 & Hg & Hrun).
  apply bind_inv_ok in Hrun as ([] & w2 & Hv & Hrun).
  injection Hrun as <-.
  pose proof (preserves_import_subdir patch_cmd "generic" _ _ _ Hg) as Hp.
  unfold patches_state in Hp. injection Hp as Hp _.
  rewrite import_subdir_queue in Hg, Hv.
  assert (entry w1 version = entry w version) as He
    by (unfold entry; by rewrite Hp).
  assert (queue_of w1 version = queue_of w version) as Hq
    by (unfold queue_of; by rewrite He).
  rewrite He, Hq in Hv.
  rewrite (for_each_app _ _ _ _ w1).
  - by destruct (entry w version) as [[?|?]|].
  - by destruct (entry w "generic") as [[?|?]|].
Qed.

End ImportSequence.

(** X4. A successful [import_patches] appends exactly one commit per patch
    file, in the order generic first, then the version, each subdirectory
    by file name: each commit takes its title from the file name and its
    author and metadata from the file, the first one has the former head
    as parent and each next one the commit before it, and the head ends on
    the last one. *)
Theorem import_commits_in_order (patch_cmd : string → files → Z * files)
    (version : string) (w w' : world) (h : nat) :
  import_patches patch_cmd version w = (Ok tt, w') →
  head (repo w) = Some h →
  ∃ new,
    odb (repo w') = odb (repo w) ++ new ∧
    Forall2 imports_as (import_queue version w) new ∧
    chained h (length (odb (repo w))) new ∧
    head (repo w') = Some (if new is [] then h
                           else (length (odb (repo w)) + length new - 1)%nat).
Proof.
  intros Hrun Hh. apply import_patches_queue in Hrun.
  by apply (for_each_apply_inv patch_cmd _ _ _ h Hrun).
Qed.

Lemma import_commits_in_order_witness :
  ∃ new,
    odb (repo Example.imported) = odb (repo Example.roundtrip_start) ++ new ∧
    Forall2 imports_as (import_queue "1.2.3" Example.roundtrip_start) new ∧
    chained 0 (length (odb (repo Example.roundtrip_start))) new.
Proof.
  assert (Hrun : import_patches Example.patch_last_line "1.2.3"
                   Example.roundtrip_start = (Ok tt, Example.imported))
    by (vm_compute; reflexivity).
  destruct (import_commits_in_order Example.patch_last_line "1.2.3"
              Example.roundtrip_start Example.imported 0 Hrun eq_refl)
    as (new & Hdb & Hall & Hch & _).
  exists new. split; [exact Hdb|]. split; [exact Hall|exact Hch].
Defined.

(* ===================================================================== *)
(** * The walk over a well-formed history                                 *)
(* ===================================================================== *)

Lemma store_okb_ok db : store_okb db = true → store_ok db.
Proof.
  unfold store_okb. rewrite forallb_forall. intros H i c p Hc Hp.
  assert (In (i, c) (imap (λ i c, (i, c)) db)) as Hin.
  { apply list_elem_of_In, list_elem_of_lookup. exists i.
    by rewrite list_lookup_imap, Hc. }
  apply H in Hin. simpl in Hin. rewrite forallb_forall in Hin.
  apply Nat.ltb_lt, Hin. by apply list_elem_of_In.
Qed.

Lemma visited_app_root cs root :
  Forall (λ c, parents c ≠ []) cs → parents root = [] →
  visited (cs ++ [root]) = cs.
Proof.
  intros Hcs Hr. induction Hcs as [|c cs Hc _ IH]; simpl.
  - by rewrite Hr.
  - destruct (parents c); [done|]. by rewrite IH.
Qed.

(** X5. In a repository whose parents are older objects and whose head is in
    the object store, [walker] yields a finite chain that starts at the
    head and ends with a commit without parent, the only one of the
    chain: the loops of [export_queue] go through every commit before it
    and stop there. More fuel than the size of the store gives the same
    chain. *)
Theorem walker_ends_at_root (w : world) (h : nat) :
  repo_ok (repo w) → head (repo w) = Some h →
  ∃ cs root,
    walker w = (Ok (cs ++ [root]), w) ∧
    parents root = [] ∧
    Forall (λ c, parents c ≠ []) cs ∧
    visited (cs ++ [root]) = cs ∧
    (hd_error (cs ++ [root]) = odb (repo w) !! h) ∧
    ∀ f, (length (odb (repo w)) ≤ f)%nat →
         walk f (odb (repo w)) h = cs ++ [root].
Proof.
  intros [Hs Hhd] Hh. pose proof (Hhd h Hh) as Hlt.
  destruct (walk_ends_at_root _ Hs (length (odb (repo w))) h Hlt Hlt)
    as (cs & root & Hw & Hr & Hcs).
  exists cs, root. split; [by rewrite (walker_spec w h Hh), Hw|].
  split; [done|]. split; [done|]. split; [by apply visited_app_root|]. split.
  - rewrite <- Hw. destruct (length (odb (repo w))) as [|n]; [lia|].
    rewrite walk_S. by destruct (odb (repo w) !! h).
  - intros f Hf. rewrite <- Hw. apply walk_fuel_enough; [done|lia|lia].
Qed.

Lemma walker_ends_at_root_witness :
  ∃ cs root,
    walker Example.imported = (Ok (cs ++ [root]), Example.imported) ∧
    parents root = [] ∧ visited (cs ++ [root]) = cs.
Proof.
  assert (Hok : repo_ok (repo Example.imported)).
  { split.
    - apply store_okb_ok. vm_compute. reflexivity.
    - intros h Hh. vm_compute in Hh. injection Hh as <-. vm_compute. lia. }
  destruct (walker_ends_at_root Example.imported 2 Hok)
    as (cs & root & Hw & Hr & _ & Hv & _).
  - vm_compute. reflexivity.
  - exists cs, root. split; [exact Hw|]. split; [exact Hr|exact Hv].
Defined.

(* ===================================================================== *)
(** * Empty inputs and stray files                                        *)
(* ===================================================================== *)

Lemma sorted_entries_empty : sorted_entries ∅ = [].
Proof. unfold sorted_entries. by rewrite map_to_list_empty. Qed.

Lemma import_subdir_nothing patch_cmd d w :
  entry w d = None ∨ entry w d = Some (Dir ∅) →
  _import_patches_subdir patch_cmd d w = (Ok tt, w).
Proof.
  intros He. unfold _import_patches_subdir, mbind, M_bind, get_world.
  destruct He as [->| ->]; [done|]. by rewrite sorted_entries_empty.
Qed.

(** X6. With no patch to import, [import_patches] does nothing and returns:
    a subdirectory that does not exist (or a patches directory that does
    not exist) is skipped like an empty one, and no commit is attempted,
    so that this holds even for a repository without any commit. *)
Theorem import_nothing_to_do (patch_cmd : string → files → Z * files)
    (version : string) (w : world) :
  entry w "generic" = None ∨ entry w "generic" = Some (Dir ∅) →
  entry w version = None ∨ entry w version = Some (Dir ∅) →
  import_patches patch_cmd version w = (Ok tt, w).
Proof.
  intros Hg Hv. unfold import_patches. simpl for_each.
  rewrite (bind_ok _ _ _ _ _ (import_subdir_nothing patch_cmd _ _ Hg)).
  by rewrite (bind_ok _ _ _ _ _ (import_subdir_nothing patch_cmd _ _ Hv)).
Qed.

Lemma import_nothing_to_do_witness :
  import_patches Example.patch_reject "1.2.3" Example.fresh
    = (Ok tt, Example.fresh).
Proof.
  apply (import_nothing_to_do Example.patch_reject "1.2.3" Example.fresh);
    left; reflexivity.
Defined.

Section Undashed.
Variable patch_cmd : string → files → Z * files.

Lemma apply_patch_undashed d name content w :
  Str.mem "-" name = false →
  _apply_patch patch_cmd d name content w = (Raise IndexError, w).
Proof.
  intros Hn. unfold _apply_patch. simpl Str.split_max.
  by rewrite (StrFacts.cut_None _ _ Hn).
Qed.

End Undashed.

(** X7. A file of a patches subdirectory whose name has no dash stops the
    import with an [IndexError]: the title cannot be taken from the name.
    This happens before the file is decoded or applied, so the state is
    the one the files sorted before it left, and the files sorted after it
    are not imported. *)
Theorem import_stops_at_undashed_name
    (patch_cmd : string → files → Z * files) (d name content : string)
    (es : files) (pre post : list (string * string)) (w w1 : world) :
  entry w d = Some (Dir es) →
  sorted_entries es = pre ++ (name, content) :: post →
  for_each (λ p, _apply_patch patch_cmd d p.1 p.2) pre w = (Ok tt, w1) →
  Str.mem "-" name = false →
  _import_patches_subdir patch_cmd d w = (Raise IndexError, w1).
Proof.
  intros He Hs Hpre Hn.
  apply (import_subdir_raise patch_cmd d es pre name content post); try done.
  by apply apply_patch_undashed.
Qed.

Lemma import_stops_at_undashed_name_witness :
  _import_patches_subdir Example.patch_last_line "generic" Sample.stray_queue =
    (Raise IndexError,
     applied Example.patch_last_line "generic" Example.anonymous_file "fix-foo"
       "Unknown Author" "unknown@email.com" [("Description", "fix foo")] 0
       Sample.stray_queue).
Proof.
  apply (import_stops_at_undashed_name Example.patch_last_line "generic"
           "README" Example.author_file
           {[ "0001-fix-foo" := Example.anonymous_file;
              "README" := Example.author_file ]}
           [("0001-fix-foo", Example.anonymous_file)] []).
  - reflexivity.
  - vm_compute. reflexivity.
  - vm_compute. reflexivity.
  - reflexivity.
Defined.

(* ===================================================================== *)
(** * Exporting a history without patches                                 *)
(* ===================================================================== *)

Lemma dir_files_emptied_any version w d :
  d = "generic" ∨ d = version → dir_files (emptied version w) d = ∅.
Proof.
  intros Hd. unfold emptied. destruct (decide (d = version)) as [->|Hne].
  - apply dir_files_cleared.
  - destruct Hd as [->|?]; [|done].
    rewrite dir_files_cleared_ne by done. apply dir_files_cleared.
Qed.

(** X8. When the head is the root commit, [export_queue] removes every file
    of the [generic] subdirectory and of the subdirectory of the version,
    and writes none: the root commit is never exported. *)
Theorem export_root_only (git_diff : files → files → option string)
    (version : string) (w : world) (h : nat) (root : commit) :
  dir_ready w = true →
  dir_free (default ∅ (patches w)) "generic" = true →
  dir_free (default ∅ (patches w)) version = true →
  head (repo w) = Some h →
  odb (repo w) !! h = Some root →
  parents root = [] →
  ∃ w', export_queue git_diff version w = (Ok tt, w') ∧
        repo w' = repo w ∧
        listing w' "generic" = ∅ ∧ listing w' version = ∅ ∧
        ∀ d, d ≠ "generic" → d ≠ version → entry w' d = entry w d.
Proof.
  intros Hr Hg Hv Hh Hroot Hpar.
  assert (Hwalk : walk (length (odb (repo w))) (odb (repo w)) h = [root]).
  { pose proof (lookup_lt_Some _ _ _ Hroot) as Hlt.
    destruct (length (odb (repo w))) as [|n]; [lia|].
    by rewrite walk_S, Hroot, Hpar. }
  pose proof (export_queue_spec git_diff version w h Hr Hg Hv Hh) as Hrun.
  simpl in Hrun. rewrite Hwalk in Hrun. simpl in Hrun. rewrite Hpar in Hrun.
  specialize (Hrun eq_refl). simpl in Hrun.
  eexists. split; [exact Hrun|]. split; [done|].
  rewrite !listing_set_patches.
  split; [apply dir_files_emptied_any; by left|].
  split; [apply dir_files_emptied_any; by right|].
  intros d Hd1 Hd2.
  by apply (keeps_export_queue git_diff version w _ _ Hrun).
Qed.

Lemma export_root_only_witness :
  ∃ w', export_queue Example.diff_a_txt "1.2.3" Sample.stale = (Ok tt, w') ∧
        listing w' "generic" = ∅ ∧ listing w' "1.2.3" = ∅ ∧
        entry w' "1.0.0" = entry Sample.stale "1.0.0".
Proof.
  destruct (export_root_only Example.diff_a_txt "1.2.3" Sample.stale 0
              Example.root)
    as (w' & Hrun & _ & Hg & Hv & Hother);
    [reflexivity|reflexivity|reflexivity|reflexivity|reflexivity|reflexivity|].
  exists w'. split; [exact Hrun|]. split; [exact Hg|]. split; [exact Hv|].
  apply Hother; discriminate.
Defined.

(* ===================================================================== *)
(** * From an exported file back to a commit                              *)
(* ===================================================================== *)

Module ReFacts.
Import Str StrFacts Re.

Lemma run_no_nl s : mem nl s = false → run s = String.length s.
Proof.
  induction s as [|c s IH]; simpl; [done|].
  intros [Hc Hs]%orb_false_iff. by rewrite Hc, IH.
Qed.

Lemma slength_app (a b : string) :
  String.length (a +:+ b) = (String.length a + String.length b)%nat.
Proof. induction a as [|c a IH]; [done|]. rewrite sapp_cons. simpl. by rewrite IH. Qed.

Lemma stake_app a b : take (String.length a) (a +:+ b) = a.
Proof.
  induction a as [|c a IH]; [by destruct b|]. rewrite sapp_cons. simpl.
  by rewrite IH.
Qed.

Lemma sdrop_app a b : drop (String.length a) (a +:+ b) = b.
Proof. induction a as [|c a IH]; [by destruct b|]. by rewrite sapp_cons. Qed.

Lemma sdrop_app_more a b n :
  drop (String.length a + n) (a +:+ b) = drop n b.
Proof.
  induction a as [|c a IH]; [done|]. by rewrite sapp_cons.
Qed.

Lemma mem_drop c n s : mem c s = false → mem c (drop n s) = false.
Proof.
  revert s. induction n as [|n IH]; intros s Hs; [by destruct s|].
  destruct s as [|x s]; [done|]. simpl in *.
  apply orb_false_iff in Hs as [_ Hs]. by apply IH.
Qed.

(** No match of [ <...] where no [<] is left. *)
Lemma rmatch_no_lt p u :
  mem "<" u = false → rmatch (Lit " " :: Lit "<" :: p) u = None.
Proof.
  intros Hu. destruct u as [|x [|y u]]; simpl; try done.
  - by destruct (Ascii.eqb x " ").
  - destruct (Ascii.eqb x " "); [|done]. simpl in Hu.
    apply orb_false_iff in Hu as [_ Hu]. apply orb_false_iff in Hu as [Hy _].
    by rewrite Hy.
Qed.

(** The group [(.+)] before a closing [>] takes everything up to it. *)
Lemma rmatch_email email :
  email ≠ "" → mem nl email = false →
  rmatch [DotPlus; Lit ">"] (email +:+ ">") = Some [email].
Proof.
  intros Hne Hnl. simpl rmatch.
  assert (run (email +:+ ">") = S (String.length email)) as ->.
  { rewrite run_no_nl by (by rewrite mem_app, Hnl).
    rewrite slength_app. simpl. lia. }
  destruct email as [|c email]; [done|].
  remember (String c email) as e.
  assert (String.length e = S (String.length email)) as Hlen by (by subst).
  change (try_len ?k ?s (S ?n)) with
    (match k (drop (S n) s) with
     | Some gs => Some (take (S n) s :: gs)
     | None => try_len k s n
     end).
  replace (S (String.length e)) with (String.length e + 1)%nat by lia.
  rewrite sdrop_app_more. simpl drop at 1. cbv beta iota.
  rewrite Hlen.
  change (try_len ?k ?s (S ?n)) with
    (match k (drop (S n) s) with
     | Some gs => Some (take (S n) s :: gs)
     | None => try_len k s n
     end).
  rewrite <- Hlen, sdrop_app, stake_app. done.
Qed.

Lemma try_len_S k s n :
  try_len k s (S n) =
    match k (drop (S n) s) with
    | Some gs => Some (take (S n) s :: gs)
    | None => try_len k s n
    end.
Proof. reflexivity. Qed.

Lemma try_len_skip k s n m :
  (∀ j, (m < j ≤ n)%nat → k (drop j s) = None) → (m ≤ n)%nat →
  try_len k s n = try_len k s m.
Proof.
  intros Hk Hmn. induction n as [|n IH]; [by replace m with 0%nat by lia|].
  destruct (decide (m = S n)) as [->|Hne]; [done|].
  rewrite try_len_S, Hk by lia. apply IH; [|lia]. intros j Hj. apply Hk. lia.
Qed.

(** The author pattern reads [name <email>] back as [name] and [email]. *)
Lemma rmatch_author name email :
  name ≠ "" → email ≠ "" →
  mem nl name = false → mem nl email = false → mem "<" email = false →
  rmatch author_pattern (name +:+ " <" +:+ email +:+ ">") = Some [name; email].
Proof.
  intros Hn He Hnn Hne Hlt. unfold author_pattern.
  set (s := name +:+ " <" +:+ email +:+ ">").
  set (k := rmatch [Lit " "; Lit "<"; DotPlus; Lit ">"]).
  change (rmatch (DotPlus :: ?p) s) with (try_len k s (run s)).
  assert (Hrun : run s = (String.length name + (String.length email + 3))%nat).
  { unfold s. rewrite run_no_nl.
    - rewrite !slength_app. simpl. lia.
    - rewrite !mem_app, Hnn, Hne. done. }
  rewrite Hrun.
  rewrite (try_len_skip k s _ (String.length name)); [|intros j Hj|lia].
  - destruct name as [|c name]; [done|].
    remember (String c name) as nm. 
    replace (String.length nm) with (S (String.length name)) by (by subst).
    change (try_len k s (S ?n)) with
      (match k (drop (S n) s) with
       | Some gs => Some (take (S n) s :: gs)
       | None => try_len k s n
       end).
    replace (S (String.length name)) with (String.length nm) by (by subst).
    unfold s. rewrite sdrop_app, stake_app. unfold k.
    change (rmatch [Lit " "; Lit "<"; DotPlus; Lit ">"] (" <" +:+ email +:+ ">"))
      with (rmatch [DotPlus; Lit ">"] (email +:+ ">")).
    by rewrite rmatch_email.
  - replace j with (String.length name + (j - String.length name))%nat by lia.
    unfold s. rewrite sdrop_app_more.
    destruct (j - String.length name)%nat as [|[|[|i]]] eqn:Hj'; [lia|done| |].
    + unfold k. apply rmatch_no_lt.
      change (drop 2 (" <" +:+ email +:+ ">")) with (email +:+ ">").
      by rewrite mem_app, Hlt.
    + unfold k. apply rmatch_no_lt.
      change (drop (S (S (S i))) (" <" +:+ email +:+ ">"))
        with (drop (S i) (email +:+ ">")).
      apply mem_drop. by rewrite mem_app, Hlt.
Qed.

End ReFacts.

Module BackFacts.
Import Str StrFacts Fmt FmtFacts Deb822 CodecFacts.

Lemma digits_dec_go fuel n acc :
  all is_digit acc = true → all is_digit (dec_go fuel n acc) = true.
Proof.
  revert n acc. induction fuel as [|f IH]; intros n acc Hacc; [done|].
  assert (all is_digit (String (digit (n mod 10)) acc) = true) as Hs.
  { change (is_digit (digit (n mod 10)) && all is_digit acc = true).
    by rewrite Hacc, (digit_is_digit _ (mod10 n)). }
  rewrite dec_go_S. destruct (n / 10 =? 0)%nat; [done|]. by apply IH.
Qed.

Lemma digits_zeros k : all is_digit (repeat_char "0" k) = true.
Proof. induction k as [|k IH]; [done|]. simpl. by rewrite IH. Qed.

Lemma digits_fmt04 i : 0 ≤ i → all is_digit (fmt04 i) = true.
Proof.
  intros Hi. unfold fmt04, pad0, str_of_nat.
  destruct (i <? 0) eqn:Hneg; [apply Z.ltb_lt in Hneg; lia|].
  rewrite all_app, digits_zeros. by apply digits_dec_go.
Qed.

(** The name of an exported patch splits at the dash after the index. *)
Lemma split_patch_name i title :
  0 ≤ i → split_max "-" 1 (fmt04 i +:+ "-" +:+ title) = [fmt04 i; title].
Proof.
  intros Hi. simpl split_max.
  change (fmt04 i +:+ "-" +:+ title) with (fmt04 i +:+ String "-" title).
  rewrite cut_app; [done|]. by apply (all_mem _ _ _ (digits_fmt04 i Hi)).
Qed.

Lemma has_app k (a b : meta) : has k (a ++ b) = has k a || has k b.
Proof.
  induction a as [|[k0 v0] a IH]; simpl; [done|]. by case_decide.
Qed.

Lemma get_app_fresh k (a b : meta) : has k a = false → get k (a ++ b) = get k b.
Proof.
  induction a as [|[k0 v0] a IH]; simpl; [done|]. by case_decide.
Qed.

Lemma del_app k (a b : meta) : del k (a ++ b) = del k a ++ del k b.
Proof.
  induction a as [|[k0 v0] a IH]; simpl; [done|].
  case_decide; simpl; by rewrite IH.
Qed.

Lemma del_fresh k (m : meta) : has k m = false → del k m = m.
Proof.
  induction m as [|[k0 v0] m IH]; simpl; [done|].
  case_decide; [done|]. intros Hm. by rewrite IH.
Qed.

Lemma set_append k v (m : meta) : has k m = false → set k v m = m ++ [(k, v)].
Proof. intros H. apply set_fresh. by apply has_false. Qed.

Lemma valid_append k v (m : meta) :
  valid m → has k m = false → key_ok k = true → value_ok v = true →
  valid (m ++ [(k, v)]).
Proof.
  intros Hv Hk Hkey Hval. rewrite <- set_append by done.
  by apply MetaFacts.valid_set.
Qed.

(** An author line does not start with a blank when the name does not. *)
Lemma author_value_ok name email :
  name ≠ "" → starts_blank name = false →
  mem nl name = false → mem nl email = false →
  value_ok (name +:+ " <" +:+ email +:+ ">") = true.
Proof.
  intros Hn Hb Hnn Hne. unfold value_ok.
  rewrite split_on_no_sep by (by rewrite !mem_app, Hnn, Hne).
  simpl. rewrite andb_true_r. apply negb_true_iff.
  destruct name as [|c name]; [done|]. by rewrite sapp_cons.
Qed.

End BackFacts.

(* ===================================================================== *)
(** * From an exported patch file back to a commit                        *)
(* ===================================================================== *)

Module ExportFacts.
Import Str StrFacts Deb822 CodecFacts MetaFacts BackFacts.

Lemma has_set_ne k k' v (m : meta) : k ≠ k' → has k (set k' v m) = has k m.
Proof.
  intros Hne. induction m as [|[k0 v0] m IH]; simpl.
  - by rewrite decide_False.
  - destruct (decide (k0 = k')) as [->|H0]; simpl.
    + by rewrite !decide_False.
    + by rewrite IH.
Qed.

Lemma has_del_ne k k' (m : meta) : k ≠ k' → has k (del k' m) = has k m.
Proof.
  intros Hne. induction m as [|[k0 v0] m IH]; simpl; [done|].
  destruct (decide (k0 = k')) as [->|H0]; simpl.
  - by rewrite decide_False.
  - by rewrite IH.
Qed.

Lemma get_del_ne k k' (m : meta) : k ≠ k' → get k (del k' m) = get k m.
Proof.
  intros Hne. induction m as [|[k0 v0] m IH]; simpl; [done|].
  destruct (decide (k0 = k')) as [->|H0]; simpl.
  - by rewrite decide_False.
  - by rewrite IH.
Qed.

Lemma has_del k (m : meta) : has k (del k m) = false.
Proof.
  induction m as [|[k0 v0] m IH]; simpl; [done|].
  destruct (decide (k0 = k)) as [->|H0]; simpl; [done|].
  by rewrite decide_False.
Qed.

Lemma del_set k v (m : meta) : del k (set k v m) = del k m.
Proof.
  induction m as [|[k0 v0] m IH]; simpl.
  - by rewrite decide_True.
  - destruct (decide (k0 = k)) as [->|H0]; simpl.
    + by rewrite decide_True.
    + by rewrite decide_False, IH.
Qed.

Lemma del_comm k k' (m : meta) : del k (del k' m) = del k' (del k m).
Proof.
  induction m as [|[k0 v0] m IH]; simpl; [done|].
  destruct (decide (k0 = k')) as [H0|H0], (decide (k0 = k)) as [H1|H1]; simpl;
    rewrite ?(decide_True _ _ H0), ?(decide_True _ _ H1),
            ?(decide_False _ _ H0), ?(decide_False _ _ H1);
    by rewrite ?IH.
Qed.

(** The metadata of a patch file: the author field set, no [Generic]
    field. *)
Lemma export_meta_del c (m : meta) :
  export_meta c m =
    del "Generic"
      (set "Author" (sig_name (author c) +:+ " <" +:+ sig_email (author c) +:+ ">") m).
Proof.
  unfold export_meta. destruct (has "Generic" _) eqn:H; [done|].
  by rewrite del_fresh.
Qed.

Lemma export_meta_valid c (m : meta) a e :
  author c = Signature a e →
  a ≠ "" → starts_blank a = false → mem nl a = false → mem nl e = false →
  valid m → valid (export_meta c m).
Proof.
  intros Ha Hne Hb Hna Hnl Hv. rewrite export_meta_del, Ha. simpl.
  apply valid_del, valid_set; [done| |done]. by apply author_value_ok.
Qed.

Lemma export_meta_author c (m : meta) :
  get "Author" (export_meta c m) =
    Some (sig_name (author c) +:+ " <" +:+ sig_email (author c) +:+ ">").
Proof. rewrite export_meta_del, get_del_ne by done. apply get_set. Qed.

Lemma export_meta_generic c (m : meta) : has "Generic" (export_meta c m) = false.
Proof. rewrite export_meta_del. apply has_del. Qed.

Lemma export_meta_resolve c (m : meta) a e :
  author c = Signature a e →
  a ≠ "" → e ≠ "" → mem nl a = false → mem nl e = false → mem "<" e = false →
  has "From" m = false →
  resolve_author (export_meta c m) =
    Ok (a, e, del "Author" (del "Generic" m)).
Proof.
  intros Ha Hna Hne Hla Hle Hlt Hfrom. unfold resolve_author, find_author_key.
  simpl foldl.
  assert (has "From" (export_meta c m) = false) as ->.
  { by rewrite export_meta_del, has_del_ne, has_set_ne. }
  assert (has "Author" (export_meta c m) = true) as ->.
  { rewrite export_meta_del, has_del_ne by done. apply has_set. }
  rewrite export_meta_author, Ha.
  change (default "" (Some ?x)) with x. cbn [sig_name sig_email].
  rewrite ReFacts.rmatch_author by done.
  by rewrite export_meta_del, del_comm, del_set, del_comm.
Qed.

Lemma commit_title_nl c : mem nl (commit_title c) = false.
Proof.
  unfold commit_title. destruct (split_on nl (message c)) as [|t ts] eqn:H.
  - done.
  - apply (split_on_mem nl (message c)). rewrite H. by left.
Qed.

Lemma reimported_valid d (m : meta) :
  valid m →
  valid (if decide (d = "generic")
         then set "Generic" "yes" (del "Author" (del "Generic" m))
         else del "Author" (del "Generic" m)).
Proof.
  intros Hv. case_decide.
  - apply valid_set; [done|done|]. by do 2 apply valid_del.
  - by do 2 apply valid_del.
Qed.

Lemma reimported_generic d (m : meta) :
  is_meta_generic (if decide (d = "generic")
                   then set "Generic" "yes" (del "Author" (del "Generic" m))
                   else del "Author" (del "Generic" m))
  = bool_decide (d = "generic").
Proof.
  case_decide as Hd.
  - by rewrite generic_set, bool_decide_eq_true_2.
  - rewrite bool_decide_eq_false_2 by done. unfold is_meta_generic.
    by rewrite has_del_ne, has_del.
Qed.

End ExportFacts.

Section Reimport.
Variable patch_cmd : string → files → Z * files.

Lemma apply_exported d idx c (m : Deb822.meta) D a e w h :
  0 ≤ idx →
  author c = Signature a e →
  a ≠ "" → e ≠ "" → Str.starts_blank a = false →
  Str.mem Str.nl a = false → Str.mem Str.nl e = false → Str.mem "<" e = false →
  Deb822.valid m → Deb822.has "From" m = false →
  head (repo w) = Some h →
  _apply_patch patch_cmd d (patch_name idx c) (patch_text c m D) w =
    (Ok tt,
     applied patch_cmd d (patch_text c m D) (commit_title c) a e
       (Deb822.del "Author" (Deb822.del "Generic" m)) h w).
Proof.
  intros Hi Ha Hna Hne Hb Hla Hle Hlt Hv Hfrom Hh.
  apply (apply_patch_ok patch_cmd d _ _ w (Fmt.fmt04 idx) (commit_title c)
           (export_meta c m)).
  - by apply BackFacts.split_patch_name.
  - apply decode_patch_file. by apply (ExportFacts.export_meta_valid c m a e).
  - by apply ExportFacts.export_meta_resolve.
  - done.
Qed.

End Reimport.

(** X9. A patch file written for a commit, applied again on top of a head
    [h] from subdirectory [d], gives one new commit with parent [h], the
    author and the title of the exported commit, and its metadata without
    the fields [Author] and [Generic], marked generic exactly when [d] is
    [generic]. The author has a name that is not empty and does not start
    with a blank, an email that is not empty and has no [<], neither has
    a newline, and the metadata is valid and has no field [From]. *)
Theorem exported_patch_applies_back
    (patch_cmd : string → files → Z * files)
    (d : string) (idx : Z) (c : commit) (m : Deb822.meta) (D a e : string)
    (w : world) (h : nat) :
  0 ≤ idx →
  author c = Signature a e →
  a ≠ "" → e ≠ "" → Str.starts_blank a = false →
  Str.mem Str.nl a = false → Str.mem Str.nl e = false → Str.mem "<" e = false →
  Deb822.valid m → Deb822.has "From" m = false →
  head (repo w) = Some h →
  let m' := if decide (d = "generic")
            then Deb822.set "Generic" "yes"
                   (Deb822.del "Author" (Deb822.del "Generic" m))
            else Deb822.del "Author" (Deb822.del "Generic" m) in
  ∃ k w',
    _apply_patch patch_cmd d (patch_name idx c) (patch_text c m D) w = (Ok tt, w') ∧
    odb (repo w') = odb (repo w) ++ [k] ∧
    head (repo w') = Some (length (odb (repo w))) ∧
    parents k = [h] ∧
    author k = author c ∧
    commit_title k = commit_title c ∧
    commit_meta k = Ok m' ∧
    Deb822.is_meta_generic m' = bool_decide (d = "generic").
Proof.
  intros Hi Ha Hna Hne Hb Hla Hle Hlt Hv Hfrom Hh m'.
  eexists _, _. split.
  { by apply (apply_exported patch_cmd d idx c m D a e w h). }
  unfold applied, committed. simpl.
  split; [done|]. split; [done|]. split; [done|]. split; [by rewrite Ha|].
  split; [apply commit_title_message, ExportFacts.commit_title_nl|].
  split.
  - apply commit_meta_message; [apply ExportFacts.commit_title_nl|].
    by apply ExportFacts.reimported_valid.
  - apply ExportFacts.reimported_generic.
Qed.

Lemma exported_patch_applies_back_witness :
  ∃ k w',
    _apply_patch Example.patch_last_line "1.2.3"
      (patch_name 1 Example.edited_head)
      (patch_text Example.edited_head [("Description", "fix bar")] "+bar")
      Example.opened = (Ok tt, w') ∧
    odb (repo w') = odb (repo Example.opened) ++ [k] ∧
    parents k = [0%nat] ∧
    author k = author Example.edited_head ∧
    commit_title k = commit_title Example.edited_head ∧
    commit_meta k = Ok [("Description", "fix bar")].
Proof.
  assert (Hv : Deb822.valid [("Description", "fix bar")])
    by (split; [by compute_done|done]).
  destruct (exported_patch_applies_back Example.patch_last_line "1.2.3" 1
              Example.edited_head [("Description", "fix bar")] "+bar"
              "Jane Roe" "jane@example.org" Example.opened 0%nat
              ltac:(lia) eq_refl ltac:(done) ltac:(done) eq_refl eq_refl eq_refl
              eq_refl Hv eq_refl eq_refl)
    as (k & w' & Hrun & Hdb & _ & Hp & Ha & Ht & Hm & _).
  exists k, w'. repeat split; [exact Hrun|exact Hdb|exact Hp|exact Ha|exact Ht|exact Hm].
Defined.

(* ===================================================================== *)
(** * Reading a patch file that was written                               *)
(* ===================================================================== *)

Section ReadBack.
Variable git_diff : files → files → option string.

Lemma get_set_ne k k' v (m : Deb822.meta) :
  k ≠ k' → Deb822.get k (Deb822.set k' v m) = Deb822.get k m.
Proof.
  intros Hne. induction m as [|[k0 v0] m IH]; simpl.
  - by rewrite decide_False.
  - destruct (decide (k0 = k')) as [->|H0]; simpl.
    + by rewrite !decide_False.
    + by rewrite IH.
Qed.

Lemma export_commit_writes sub idx c m w p D :
  patches w = Some p → dir_free p sub = true →
  diff_of git_diff (odb (repo w)) c = Some D → D ≠ "" →
  Str.mem "/" (commit_title c) = false →
  _export_commit git_diff (Some sub) idx c m w =
    (Ok tt,
     set_patches
       (Some (write_in sub (patch_name idx c) (patch_text c m D) p)) w).
Proof.
  intros Hp Hfree Hd HD Ht. unfold diff_of in Hd.
  unfold _export_commit, diff.
  destruct (parents c) as [|pa ps]; [done|].
  unfold mbind at 1, M_bind at 1. unfold mbind at 1, M_bind at 1, lookup_commit.
  destruct (odb (repo w) !! pa) as [pc|]; [|done].
  unfold mret, M_ret. rewrite Hd. destruct D as [|x D]; [done|]. simpl.
  unfold mbind, M_bind, ensure_dir, write_file. rewrite Hp.
  unfold dir_free in Hfree. unfold write_in, dir_files.
  destruct (p !! sub) as [[?|es]|] eqn:Hsub; [done| |].
  - rewrite Hp, Hsub. by rewrite (FmtFacts.patch_name_slash _ _ Ht).
  - simpl. rewrite lookup_insert_eq.
    rewrite (FmtFacts.patch_name_slash _ _ Ht).
    by rewrite insert_insert_eq.
Qed.

Lemma parse_patch_written sub name text (m : Deb822.meta) w p :
  Deb822.decode text = Ok m →
  let w' := set_patches (Some (write_in sub name text p)) w in
  parse_patch sub name w' = (Ok m, w').
Proof.
  intros Hd w'. unfold parse_patch, mbind, M_bind, read_file, entry.
  simpl. unfold write_in. rewrite lookup_insert_eq, lookup_insert_eq.
  unfold lift. by rewrite Hd.
Qed.

End ReadBack.

(** X10. [_export_commit] followed by [parse_patch]: when a commit with a
    non-empty diff and a title without slash is exported to a
    subdirectory, reading the written file back gives the metadata that
    was passed, with the field [Author] set to the author of the commit
    in the form [name <email>], without field [Generic], every other
    field as it was. The metadata is valid; the name of the author is not
    empty, does not start with a blank, and neither name nor email has a
    newline. *)
Theorem parse_patch_reads_exported
    (git_diff : files → files → option string)
    (sub : string) (idx : Z) (c : commit) (m : Deb822.meta) (a e D : string)
    (w : world) (p : gmap string node) :
  patches w = Some p → dir_free p sub = true →
  diff_of git_diff (odb (repo w)) c = Some D → D ≠ "" →
  Str.mem "/" (commit_title c) = false →
  author c = Signature a e →
  a ≠ "" → Str.starts_blank a = false →
  Str.mem Str.nl a = false → Str.mem Str.nl e = false →
  Deb822.valid m →
  ∃ w' m',
    _export_commit git_diff (Some sub) idx c m w = (Ok tt, w') ∧
    parse_patch sub (patch_name idx c) w' = (Ok m', w') ∧
    Deb822.get "Author" m' = Some (a +:+ " <" +:+ e +:+ ">") ∧
    Deb822.has "Generic" m' = false ∧
    ∀ k, k ≠ "Author" → k ≠ "Generic" → Deb822.get k m' = Deb822.get k m.
Proof.
  intros Hp Hfree Hd HD Ht Ha Hna Hb Hla Hle Hv.
  exists (set_patches
            (Some (write_in sub (patch_name idx c) (patch_text c m D) p)) w),
         (export_meta c m).
  split; [by apply export_commit_writes|].
  split.
  { apply parse_patch_written, decode_patch_file.
    by apply (ExportFacts.export_meta_valid c m a e). }
  split; [by rewrite ExportFacts.export_meta_author, Ha|].
  split; [apply ExportFacts.export_meta_generic|].
  intros k Hk1 Hk2.
  by rewrite ExportFacts.export_meta_del, ExportFacts.get_del_ne, get_set_ne.
Qed.

Lemma parse_patch_reads_exported_witness :
  ∃ w' m',
    _export_commit Example.diff_a_txt (Some "1.2.3") 1 Example.edited_head
      [("Description", "fix bar")] Example.imported = (Ok tt, w') ∧
    parse_patch "1.2.3" (patch_name 1 Example.edited_head) w' = (Ok m', w') ∧
    Deb822.get "Author" m' = Some "Jane Roe <jane@example.org>" ∧
    Deb822.has "Generic" m' = false.
Proof.
  assert (Hp : patches Example.imported = Some Example.start_patches)
    by (vm_compute; reflexivity).
  assert (Hf : dir_free Example.start_patches "1.2.3" = true)
    by (vm_compute; reflexivity).
  assert (Hd : diff_of Example.diff_a_txt (odb (repo Example.imported))
                 Example.edited_head = Some "+bar")
    by (vm_compute; reflexivity).
  assert (Hv : Deb822.valid [("Description", "fix bar")])
    by (split; [by compute_done|done]).
  destruct (parse_patch_reads_exported Example.diff_a_txt "1.2.3" 1
              Example.edited_head [("Description", "fix bar")]
              "Jane Roe" "jane@example.org" "+bar" Example.imported
              Example.start_patches Hp Hf Hd ltac:(done) eq_refl eq_refl
              ltac:(done) eq_refl eq_refl eq_refl Hv)
    as (w' & m' & Hrun & Hread & Ha & Hg & _).
  exists w', m'. repeat split; [exact Hrun|exact Hread|exact Ha|exact Hg].
Defined.

(* ===================================================================== *)
(** * Exporting twice                                                     *)
(* ===================================================================== *)

Section ExportTwice.
Variable git_diff : files → files → option string.
Variable version : string.
Variable db : list commit.
Hypothesis version_name : version ≠ "generic".

Lemma dir_free_entry p d :
  dir_free p d = true → p !! d = None ∨ p !! d = Some (Dir (dir_files p d)).
Proof.
  unfold dir_free, dir_files. destruct (p !! d) as [[?|es]|]; auto. done.
Qed.

Lemma cleared_other d d' p : d ≠ d' → cleared d p !! d' = p !! d'.
Proof.
  intros Hne. unfold cleared. destruct (p !! d) as [[?|es]|]; try done.
  by rewrite lookup_insert_ne.
Qed.

Lemma cleared_entry d p :
  dir_free p d = true →
  cleared d p !! d = match p !! d with Some _ => Some (Dir ∅) | None => None end.
Proof.
  unfold dir_free, cleared. destruct (p !! d) as [[?|es]|] eqn:Hd; try done.
  intros _. by rewrite lookup_insert_eq.
Qed.

Lemma emptied_entry w d :
  d = "generic" ∨ d = version →
  dir_free (default ∅ (patches w)) d = true →
  emptied version w !! d =
    match default ∅ (patches w) !! d with
    | Some _ => Some (Dir ∅)
    | None => None
    end.
Proof.
  intros Hd Hfree. unfold emptied.
  destruct (decide (d = version)) as [->|Hne].
  - rewrite cleared_entry by (by apply dir_free_cleared).
    destruct (decide (version = "generic")) as [e|Hg]; [done|].
    by rewrite cleared_other.
  - destruct Hd as [->|?]; [|done].
    rewrite cleared_other by done. by apply cleared_entry.
Qed.

Lemma emptied_other w d :
  d ≠ "generic" → d ≠ version →
  emptied version w !! d = default ∅ (patches w) !! d.
Proof. intros Hg Hv. unfold emptied. by rewrite !cleared_other. Qed.

Lemma export_files_other cs d : ∀ ig iv p,
  d ≠ "generic" → d ≠ version →
  export_files git_diff version db cs ig iv p !! d = p !! d.
Proof.
  induction cs as [|c cs IH]; intros ig iv p Hg Hv; [done|].
  simpl export_files. rewrite IH by done.
  destruct (commit_meta c) as [m|]; [|done].
  destruct (diff_of git_diff db c) as [[|x D]|]; try done.
  unfold write_in. rewrite lookup_insert_ne; [done|].
  unfold partition_dir. by destruct (generic_commit c).
Qed.

Lemma dir_free_export_files cs d : ∀ ig iv p,
  dir_free p d = true →
  dir_free (export_files git_diff version db cs ig iv p) d = true.
Proof.
  induction cs as [|c cs IH]; intros ig iv p Hfree; [done|].
  simpl export_files. apply IH.
  destruct (commit_meta c) as [m|]; [|done].
  destruct (diff_of git_diff db c) as [[|x D]|]; try done.
  by apply dir_free_write_in.
Qed.

(** An entry of the patches directory after the second loop is the one
    before it, or a directory that holds a file. *)
Lemma export_files_entry cs d : ∀ ig iv p,
  export_files git_diff version db cs ig iv p !! d = p !! d ∨
  (export_files git_diff version db cs ig iv p !! d =
     Some (Dir (dir_files (export_files git_diff version db cs ig iv p) d)) ∧
   dir_files (export_files git_diff version db cs ig iv p) d ≠ ∅).
Proof.
  induction cs as [|c cs IH]; intros ig iv p; [by left|].
  simpl export_files.
  set (g := generic_commit c).
  set (p' := match commit_meta c, diff_of git_diff db c with
             | Ok m, Some (String y D) =>
                 write_in (partition_dir version g)
                   (patch_name (if g then ig else iv) c)
                   (patch_text c m (String y D)) p
             | _, _ => p
             end).
  set (ig' := if g then ig - 1 else ig).
  set (iv' := if g then iv else iv - 1).
  destruct (IH ig' iv' p') as [Hsame|Hnew]; [|by right].
  assert (p' !! d = p !! d ∨
          ∃ n x, p' !! d = Some (Dir (<[n := x]> (dir_files p d)))) as [Hp|Hp].
  { unfold p'. destruct (commit_meta c) as [m|]; [|by left].
    destruct (diff_of git_diff db c) as [[|y D]|]; try by left.
    unfold write_in. destruct (decide (partition_dir version g = d)) as [<-|Hne].
    - right. rewrite lookup_insert_eq. by eexists _, _.
    - left. by rewrite lookup_insert_ne. }
  - left. by rewrite Hsame.
  - right. destruct Hp as (n & x & Hp). rewrite Hp in Hsame.
    assert (dir_files (export_files git_diff version db cs ig' iv' p') d =
            <[n := x]> (dir_files p d)) as Hdf.
    { unfold dir_files at 1. by rewrite Hsame. }
    rewrite Hdf. split; [done|]. apply insert_non_empty.
Qed.

(** The files of the two subdirectories after the second loop do not
    depend on what was there before the export. *)
Lemma export_files_fresh cs w1 w2 d :
  d = "generic" ∨ d = version →
  dir_files (export_files git_diff version db cs (count_in true cs)
               (count_in false cs) (emptied version w1)) d =
  dir_files (export_files git_diff version db cs (count_in true cs)
               (count_in false cs) (emptied version w2)) d.
Proof.
  intros Hd.
  assert (∃ g, d = partition_dir version g) as [g ->].
  { destruct Hd as [->| ->]; [by exists true|by exists false]. }
  apply map_eq. intros name. apply option_eq. intros x.
  rewrite !(export_files_lookup git_diff version db version_name g cs);
    rewrite ?dir_files_emptied, ?lookup_empty by done;
    try (by destruct g; simpl; lia);
    try (by intros n [? Hn]; rewrite lookup_empty in Hn).
  done.
Qed.

Lemma export_files_again cs w w' :
  dir_free (default ∅ (patches w)) "generic" = true →
  dir_free (default ∅ (patches w)) version = true →
  patches w' =
    Some (export_files git_diff version db cs (count_in true cs)
            (count_in false cs) (emptied version w)) →
  export_files git_diff version db cs (count_in true cs) (count_in false cs)
    (emptied version w') =
  export_files git_diff version db cs (count_in true cs) (count_in false cs)
    (emptied version w).
Proof.
  intros Hg Hv Hp.
  set (res1 := export_files git_diff version db cs (count_in true cs)
                 (count_in false cs) (emptied version w)) in *.
  set (res2 := export_files git_diff version db cs (count_in true cs)
                 (count_in false cs) (emptied version w')).
  apply map_eq. intros d.
  destruct (decide (d = "generic" ∨ d = version)) as [Hd|Hd].
  - assert (dir_free res1 d = true) as Hfree.
    { apply dir_free_export_files. unfold emptied.
      do 2 apply dir_free_cleared. by destruct Hd as [->| ->]. }
    assert (dir_files res2 d = dir_files res1 d) as Hfiles
      by (by apply export_files_fresh).
    assert (emptied version w' !! d =
            match res1 !! d with Some _ => Some (Dir ∅) | None => None end)
      as Hstart.
    { rewrite emptied_entry by (by rewrite ?Hp). by rewrite Hp. }
    destruct (export_files_entry cs d (count_in true cs) (count_in false cs)
                (emptied version w')) as [Hsame|[Hnew Hne]]; fold res2 in Hsame || fold res2 in Hnew, Hne.
    + rewrite Hsame, Hstart.
      destruct (dir_free_entry _ _ Hfree) as [H1|H1]; rewrite H1; [done|].
      f_equal. f_equal. rewrite <- Hfiles. unfold dir_files.
      by rewrite Hsame, Hstart, H1.
    + rewrite Hnew, Hfiles.
      destruct (dir_free_entry _ _ Hfree) as [H1|H1]; [|done].
      exfalso. apply Hne. rewrite Hfiles. unfold dir_files. by rewrite H1.
  - assert (d ≠ "generic" ∧ d ≠ version) as [H1 H2] by (split; intros ->; tauto).
    unfold res1, res2. rewrite !export_files_other by done.
    rewrite emptied_other by done. rewrite Hp. simpl.
    fold res1. unfold res1. rewrite export_files_other by done. done.
Qed.

End ExportTwice.

Section ExportTwiceSpec.
Variable git_diff : files → files → option string.

Lemma export_queue_again version w h :
  version ≠ "generic" →
  dir_ready w = true →
  dir_free (default ∅ (patches w)) "generic" = true →
  dir_free (default ∅ (patches w)) version = true →
  head (repo w) = Some h →
  forallb (exportable git_diff (odb (repo w)))
    (visited (walk (length (odb (repo w))) (odb (repo w)) h)) = true →
  ∃ w', export_queue git_diff version w = (Ok tt, w') ∧
        export_queue git_diff version w' = (Ok tt, w').
Proof.
  intros Hv Hr Hg Hfv Hh Hall.
  eexists. split; [by apply export_queue_spec|].
  set (db := odb (repo w)) in *.
  set (cs := visited (walk (length db) db h)) in *.
  set (res := export_files git_diff version db cs (count_in true cs)
                (count_in false cs) (emptied version w)).
  set (w' := set_patches (Some res) w).
  assert (dir_free res "generic" = true) as Hg'.
  { apply dir_free_export_files. unfold emptied. by do 2 apply dir_free_cleared. }
  assert (dir_free res version = true) as Hv'.
  { apply dir_free_export_files. unfold emptied. by do 2 apply dir_free_cleared. }
  rewrite (export_queue_spec git_diff version w' h); try done.
  change (odb (repo w')) with db. fold cs.
  rewrite (export_files_again git_diff version db Hv cs w w') by done.
  by destruct w.
Qed.

End ExportTwiceSpec.

(** X11. [export_queue] is idempotent: when the export of a history goes
    through, a second export right after it goes through as well and
    leaves the repository and the whole patches directory exactly as the
    first one left them. *)
Theorem export_twice_same (git_diff : files → files → option string)
    (version : string) (w : world) (h : nat) :
  version ≠ "generic" →
  dir_ready w = true →
  dir_free (default ∅ (patches w)) "generic" = true →
  dir_free (default ∅ (patches w)) version = true →
  head (repo w) = Some h →
  forallb (exportable git_diff (odb (repo w)))
    (visited (walk (length (odb (repo w))) (odb (repo w)) h)) = true →
  ∃ w', export_queue git_diff version w = (Ok tt, w') ∧
        export_queue git_diff version w' = (Ok tt, w').
Proof. apply export_queue_again. Qed.

Lemma export_twice_same_witness :
  ∃ w', export_queue Example.diff_a_txt "1.2.3" Example.crowded = (Ok tt, w') ∧
        export_queue Example.diff_a_txt "1.2.3" w' = (Ok tt, w').
Proof.
  apply (export_twice_same Example.diff_a_txt "1.2.3" Example.crowded 2%nat);
    [done|vm_compute; reflexivity..].
Defined.

(* ===================================================================== *)
(** * [commit_export] when a step fails                                   *)
(* ===================================================================== *)

Section CommitExportErrors.
Variable git_diff : files → files → option string.
Variable today : string.

Lemma for_each_index_add_fail fs : ∀ w,
  stage (worktree (repo w)) (index (repo w)) fs = None →
  ∃ fs1 f fs2 ix1,
    fs = fs1 ++ f :: fs2 ∧
    worktree (repo w) !! f = None ∧
    stage (worktree (repo w)) (index (repo w)) fs1 = Some ix1 ∧
    for_each index_add fs w =
      (Raise OSError,
       set_repo (Repository (odb (repo w)) (head (repo w)) ix1
                   (worktree (repo w))) w).
Proof.
  induction fs as [|f fs IH]; intros w Hs; simpl in Hs; [done|].
  destruct (worktree (repo w) !! f) as [c|] eqn:Hf.
  - set (w1 := set_repo (Repository (odb (repo w)) (head (repo w))
                           (<[f:=c]> (index (repo w))) (worktree (repo w))) w).
    destruct (IH w1 Hs) as (fs1 & f' & fs2 & ix1 & -> & Hf' & Hs1 & Hrun).
    exists (f :: fs1), f', fs2, ix1. split; [done|]. split; [done|].
    split; [simpl; by rewrite Hf|].
    simpl. unfold mbind, M_bind. unfold index_add at 1. rewrite Hf.
    fold w1. rewrite Hrun. by destruct w.
  - exists [], f, fs, (index (repo w)). split; [done|]. split; [done|].
    split; [done|]. simpl. unfold mbind, M_bind, index_add. rewrite Hf.
    by destruct w as [[] ? ?].
Qed.

Lemma commit_export_unstaged idx title a email description fs w h :
  head (repo w) = Some h →
  stage (worktree (repo w)) (index (repo w)) fs = None →
  ∃ fs1 f fs2 ix1,
    fs = fs1 ++ f :: fs2 ∧
    worktree (repo w) !! f = None ∧
    stage (worktree (repo w)) (index (repo w)) fs1 = Some ix1 ∧
    commit_export git_diff today idx title a email description fs w =
      (Raise OSError,
       set_repo (Repository (odb (repo w)) (head (repo w)) ix1
                   (worktree (repo w))) w).
Proof.
  intros Hh Hs.
  destruct (for_each_index_add_fail fs w Hs)
    as (fs1 & f & fs2 & ix1 & Hfs & Hf & Hs1 & Hrun).
  exists fs1, f, fs2, ix1. split; [done|]. split; [done|]. split; [done|].
  unfold commit_export. apply bind_raise. unfold _commit.
  rewrite (bind_ok _ _ _ _ _ (head_name_ok _ _ Hh)).
  rewrite (bind_ok _ _ _ _ _ (head_target_ok _ _ Hh)).
  unfold _base_commit. by apply bind_raise.
Qed.

Lemma export_commit_top_slash idx c m w p pa ps pc d0 f :
  patches w = Some p →
  parents c = pa :: ps →
  odb (repo w) !! pa = Some pc →
  truthy (git_diff (tree pc) (tree c)) = true →
  Str.cut "/" (patch_name idx c) = Some (d0, f) →
  (∀ es, p !! d0 ≠ Some (Dir es)) →
  _export_commit git_diff None idx c m w = (Raise OSError, w).
Proof.
  intros Hp Hpar Hpc Ht Hcut Hfree. unfold _export_commit, diff. rewrite Hpar.
  assert (lookup_commit pa w = (Ok pc, w)) as Hl
    by (unfold lookup_commit; by rewrite Hpc).
  rewrite (bind_ok _ _ _ _ _ (bind_ok _ _ _ _ _ Hl)).
  unfold mret, M_ret. rewrite Ht.
  unfold mbind, M_bind, ensure_dir, write_file. rewrite Hp.
  cbv beta iota. rewrite Hp.
  unfold patch_name in Hcut. rewrite Hcut.
  destruct (p !! d0) as [[?|es]|] eqn:Hd0; try done.
  by destruct (Hfree es).
Qed.

End CommitExportErrors.

(** X12. [commit_export] with a path that is not in the working tree: the
    call raises at [index.add] of the first such path, no commit is
    created, the head, the working tree and the patches directory are as
    before, and the paths listed before the missing one stay staged in the
    index. *)
Theorem commit_export_missing_file (git_diff : files → files → option string)
    (today : string) (idx : Z) (title a email description : string)
    (fs : list string) (w : world) (h : nat) :
  head (repo w) = Some h →
  stage (worktree (repo w)) (index (repo w)) fs = None →
  ∃ fs1 f fs2 ix1 w',
    fs = fs1 ++ f :: fs2 ∧
    worktree (repo w) !! f = None ∧
    stage (worktree (repo w)) (index (repo w)) fs1 = Some ix1 ∧
    commit_export git_diff today idx title a email description fs w =
      (Raise OSError, w') ∧
    odb (repo w') = odb (repo w) ∧ head (repo w') = head (repo w) ∧
    worktree (repo w') = worktree (repo w) ∧ index (repo w') = ix1 ∧
    patches w' = patches w ∧ parent_dir w' = parent_dir w.
Proof.
  intros Hh Hs.
  destruct (commit_export_unstaged git_diff today idx title a email description
              fs w h Hh Hs) as (fs1 & f & fs2 & ix1 & Hfs & Hf & Hs1 & Hrun).
  exists fs1, f, fs2, ix1. eexists. split; [done|]. split; [done|].
  split; [done|]. split; [exact Hrun|]. done.
Qed.

Lemma commit_export_missing_file_witness :
  ∃ w',
    commit_export Example.diff_a_txt "2021-06-01" 5 "add-feature" "A" "a@x.com"
      "adds feature" ["a.txt"; "b.txt"] Example.edited = (Raise OSError, w') ∧
    odb (repo w') = odb (repo Example.edited) ∧
    head (repo w') = head (repo Example.edited) ∧
    patches w' = patches Example.edited.
Proof.
  assert (Hs : stage (worktree (repo Example.edited))
                 (index (repo Example.edited)) ["a.txt"; "b.txt"] = None)
    by (vm_compute; reflexivity).
  assert (Hh : head (repo Example.edited) = Some 2%nat)
    by (vm_compute; reflexivity).
  destruct (commit_export_missing_file Example.diff_a_txt "2021-06-01" 5
              "add-feature" "A" "a@x.com" "adds feature" ["a.txt"; "b.txt"]
              Example.edited 2%nat Hh Hs)
    as (fs1 & f & fs2 & ix1 & w' & _ & _ & _ & Hrun & Hdb & Hhd & _ & _ & Hp & _).
  exists w'. split; [exact Hrun|]. split; [exact Hdb|]. split; [exact Hhd|exact Hp].
Defined.

(** X13. [commit_export] with a title that makes the file name descend into a
    directory that does not exist: when the diff of the new commit is not
    empty, the call raises when it opens the patch file, after the commit
    was created. The commit stays at the head of the history and no file
    is written. *)
Theorem commit_export_unwritable (git_diff : files → files → option string)
    (today : string) (idx : Z) (title a email description d0 f : string)
    (fs : list string) (w : world) (h : nat) (pc : commit) (ix' : files) :
  head (repo w) = Some h →
  odb (repo w) !! h = Some pc →
  stage (worktree (repo w)) (index (repo w)) fs = Some ix' →
  Str.mem Str.nl title = false →
  Deb822.value_ok description = true →
  Deb822.value_ok today = true →
  truthy (git_diff (tree pc) ix') = true →
  Str.cut "/" (Fmt.fmt04 idx +:+ "-" +:+ title) = Some (d0, f) →
  (∀ es, default ∅ (patches w) !! d0 ≠ Some (Dir es)) →
  let m := fresh_meta today description in
  let c := Commit [h] (Signature a email) (Signature a email)
             (title +:+ Str.NL +:+ Str.NL +:+ Deb822.encode m) ix' in
  ∃ w',
    commit_export git_diff today idx title a email description fs w =
      (Raise OSError, w') ∧
    odb (repo w') = odb (repo w) ++ [c] ∧
    head (repo w') = Some (length (odb (repo w))) ∧
    patches w' = Some (default ∅ (patches w)).
Proof.
  intros Hh Hpc Hs Hnl Hdesc Htoday Hd Hcut Hfree m c.
  pose proof (fresh_meta_valid today description Hdesc Htoday) as Hvalid.
  assert (Hmeta : commit_meta c = Ok m) by (by apply commit_meta_message).
  assert (Htitle : commit_title c = title) by (by apply commit_title_message).
  pose (w1 := set_repo (committed [h] a email
                (title +:+ Str.NL +:+ Str.NL +:+ Deb822.encode m) ix' (repo w)) w).
  pose (w2 := World (repo w1) (Some (default ∅ (patches w)))
               (match patches w with None => true | Some _ => parent_dir w end)).
  assert (Hdb1 : odb (repo w2) = odb (repo w) ++ [c]) by done.
  assert (Hhead1 : head (repo w1) = Some (length (odb (repo w)))) by done.
  assert (Hlast : lookup_commit (length (odb (repo w))) w1 = (Ok c, w1)).
  { unfold lookup_commit. simpl. by rewrite list_lookup_middle. }
  assert (Hdir : ensure_dir_parents w1 = (Ok tt, w2)).
  { unfold ensure_dir_parents, w2.
    change (patches w1) with (patches w).
    destruct (patches w) eqn:Hp; [|done].
    f_equal. unfold w1, set_repo. simpl. by rewrite Hp. }
  assert (Hpc2 : odb (repo w2) !! h = Some pc).
  { rewrite Hdb1. by apply lookup_app_l_Some. }
  exists w2. split; [|done].
  unfold commit_export. fold m.
  rewrite (bind_ok _ _ _ _ _ (commit_files_ok a email title m fs w h ix' Hh Hs)).
  change (set_repo _ w) with w1.
  rewrite (bind_ok _ _ _ _ _ (head_target_ok _ _ Hhead1)).
  rewrite (bind_ok _ _ _ _ _ Hlast).
  rewrite (bind_ok _ _ _ _ _ Hdir).
  unfold mbind at 1, M_bind at 1, lift. rewrite Hmeta.
  apply (export_commit_top_slash git_diff idx c m w2 (default ∅ (patches w))
           h [] pc d0 f); try done.
  unfold patch_name. by rewrite Htitle.
Qed.

Lemma commit_export_unwritable_witness :
  ∃ w',
    commit_export Example.diff_a_txt "2021-06-01" 5 "add/feature" "A" "a@x.com"
      "adds feature" ["a.txt"] Example.edited = (Raise OSError, w') ∧
    length (odb (repo w')) = S (length (odb (repo Example.edited))) ∧
    head (repo w') = Some (length (odb (repo Example.edited))) ∧
    patches w' = Some (default ∅ (patches Example.edited)).
Proof.
  assert (Hh : head (repo Example.edited) = Some 2%nat)
    by (vm_compute; reflexivity).
  assert (Hpc : odb (repo Example.edited) !! 2%nat = Some Example.edited_head)
    by (vm_compute; reflexivity).
  assert (Hs : stage (worktree (repo Example.edited))
                 (index (repo Example.edited)) ["a.txt"] = Some Example.edited_index)
    by (vm_compute; reflexivity).
  assert (Hd : truthy (Example.diff_a_txt (tree Example.edited_head)
                         Example.edited_index) = true)
    by (vm_compute; reflexivity).
  assert (Hfree : ∀ es, default ∅ (patches Example.edited) !! "0005-add"
                        ≠ Some (Dir es))
    by (intros es; vm_compute; discriminate).
  destruct (commit_export_unwritable Example.diff_a_txt "2021-06-01" 5
              "add/feature" "A" "a@x.com" "adds feature" "0005-add" "feature"
              ["a.txt"] Example.edited 2%nat Example.edited_head
              Example.edited_index Hh Hpc Hs eq_refl eq_refl eq_refl Hd
              eq_refl Hfree)
    as (w' & Hrun & Hdb & Hhd & Hp).
  exists w'. split; [exact Hrun|]. split; [|split; [exact Hhd|exact Hp]].
  rewrite Hdb, length_app. simpl. lia.
Defined.

(* ===================================================================== *)
(** * One file for each commit that has a diff                            *)
(* ===================================================================== *)

Section FileCount.
Variable git_diff : files → files → option string.
Variable version : string.
Variable db : list commit.
Hypothesis version_name : version ≠ "generic".

Lemma written_in_cons g c cs :
  written_in git_diff db g (c :: cs) =
    ((if decide (generic_commit c = g ∧
                 truthy (diff_of git_diff db c) = true) then 1 else 0)
     + written_in git_diff db g cs)%nat.
Proof. unfold written_in. rewrite filter_cons. by case_decide. Qed.

Lemma export_files_size g cs : ∀ ig iv p,
  forallb (exportable git_diff db) cs = true →
  count_in g cs ≤ sel g ig iv →
  (∀ name, is_Some (dir_files p (partition_dir version g) !! name) →
           sel g ig iv < Fmt.index_of name) →
  size (dir_files (export_files git_diff version db cs ig iv p)
          (partition_dir version g)) =
  (size (dir_files p (partition_dir version g))
   + written_in git_diff db g cs)%nat.
Proof.
  induction cs as [|c cs IH]; intros ig iv p Hall Hcnt Hinv.
  { simpl. unfold written_in. simpl. lia. }
  simpl in Hall. apply andb_true_iff in Hall as [Hex Hall].
  simpl export_files.
  set (g' := generic_commit c).
  set (p' := match commit_meta c, diff_of git_diff db c with
             | Ok m, Some (String y d) =>
                 write_in (partition_dir version g')
                   (patch_name (if g' then ig else iv) c)
                   (patch_text c m (String y d)) p
             | _, _ => p
             end).
  set (ig' := if g' then ig - 1 else ig).
  set (iv' := if g' then iv else iv - 1).
  rewrite count_in_cons in Hcnt. fold g' in Hcnt.
  pose proof (count_in_nonneg g cs) as Hnn.
  assert (Hsel' : sel g ig' iv' =
                  sel g ig iv - (if decide (g' = g) then 1 else 0)).
  { unfold sel, ig', iv'. destruct g, g'; case_decide; try done; lia. }
  assert (Hmeta : ∃ m, commit_meta c = Ok m).
  { unfold exportable in Hex. destruct (commit_meta c); [by eexists|done]. }
  destruct Hmeta as [m Hm].
  assert (Hstep :
    (g' = g ∧ truthy (diff_of git_diff db c) = true ∧
     dir_files p' (partition_dir version g) =
       <[patch_name (sel g ig iv) c :=
           patch_text c m (default "" (diff_of git_diff db c))]>
         (dir_files p (partition_dir version g))) ∨
    (¬ (g' = g ∧ truthy (diff_of git_diff db c) = true) ∧
     dir_files p' (partition_dir version g) =
       dir_files p (partition_dir version g))).
  { unfold p'. rewrite Hm.
    destruct (diff_of git_diff db c) as [[|y0 d]|] eqn:Hd.
    1,3: right; split; [by intros [_ ?]|done].
    destruct (decide (g' = g)) as [Heq|Hne].
    - left. split; [done|]. split; [done|].
      rewrite Heq, dir_files_write_in. done.
    - right. split; [by intros [? _]|].
      apply dir_files_write_in_ne. intros Hd'.
      by apply (partition_dir_inj version version_name) in Hd'. }
  rewrite IH; [|done|rewrite Hsel'; lia|].
  - rewrite written_in_cons. fold g'.
    destruct Hstep as [(Heq & Ht & ->)|[Hno ->]].
    + rewrite decide_True by done.
      rewrite map_size_insert_None; [lia|].
      apply eq_None_not_Some. intros Hs. apply Hinv in Hs.
      unfold patch_name in Hs. rewrite decide_True in Hcnt by done.
      rewrite FmtFacts.index_of_fmt04 in Hs by lia. lia.
    + rewrite decide_False by done. lia.
  - intros n Hn. rewrite Hsel'.
    destruct Hstep as [(Heq & Ht & Hp')|[Hno Hp']]; rewrite Hp' in Hn.
    + rewrite decide_True in Hcnt |- * by done.
      destruct (decide (patch_name (sel g ig iv) c = n)) as [<-|Hne].
      * unfold patch_name. rewrite FmtFacts.index_of_fmt04 by lia. lia.
      * rewrite lookup_insert_ne in Hn by done. apply Hinv in Hn. lia.
    + apply Hinv in Hn. case_decide; lia.
Qed.

End FileCount.

Section FileCountSpec.
Variable git_diff : files → files → option string.

Lemma export_queue_size version w h g :
  version ≠ "generic" →
  dir_ready w = true →
  dir_free (default ∅ (patches w)) "generic" = true →
  dir_free (default ∅ (patches w)) version = true →
  head (repo w) = Some h →
  let db := odb (repo w) in
  let cs := visited (walk (length db) db h) in
  forallb (exportable git_diff db) cs = true →
  ∃ w', export_queue git_diff version w = (Ok tt, w') ∧
        size (listing w' (partition_dir version g)) =
          written_in git_diff db g cs.
Proof.
  intros Hv Hr Hg Hfv Hh db cs Hall.
  eexists. split; [by apply export_queue_spec|].
  rewrite listing_set_patches. fold db cs.
  rewrite (export_files_size git_diff version db Hv g cs); [| done | | ].
  - rewrite dir_files_emptied by done. by rewrite map_size_empty.
  - by destruct g.
  - intros n [? Hn]. rewrite dir_files_emptied in Hn by done.
    by rewrite lookup_empty in Hn.
Qed.

End FileCountSpec.

(** X14. In an export that goes through, each visited commit with a non-empty
    diff gets a file of its own: the number of files in the [generic]
    subdirectory, and in the subdirectory of the version, is the number of
    commits of that partition whose diff is not empty. No commit
    overwrites the file of another one, even when titles are equal. *)
Theorem export_one_file_per_commit (git_diff : files → files → option string)
    (version : string) (w : world) (h : nat) :
  version ≠ "generic" →
  dir_ready w = true →
  dir_free (default ∅ (patches w)) "generic" = true →
  dir_free (default ∅ (patches w)) version = true →
  head (repo w) = Some h →
  let db := odb (repo w) in
  let cs := visited (walk (length db) db h) in
  forallb (exportable git_diff db) cs = true →
  ∃ w', export_queue git_diff version w = (Ok tt, w') ∧
        size (listing w' "generic") = written_in git_diff db true cs ∧
        size (listing w' version) = written_in git_diff db false cs.
Proof.
  intros Hv Hr Hg Hfv Hh db cs Hall.
  destruct (export_queue_size git_diff version w h true Hv Hr Hg Hfv Hh Hall)
    as (w1 & Hrun1 & Hs1).
  destruct (export_queue_size git_diff version w h false Hv Hr Hg Hfv Hh Hall)
    as (w2 & Hrun2 & Hs2).
  exists w1. split; [done|]. split; [done|].
  rewrite Hrun1 in Hrun2. by injection Hrun2 as <-.
Qed.

Lemma export_one_file_per_commit_witness :
  ∃ w', export_queue Example.diff_a_txt "1.2.3" Example.crowded = (Ok tt, w') ∧
        size (listing w' "generic") = 1%nat ∧
        size (listing w' "1.2.3") = 1%nat.
Proof.
  destruct (export_one_file_per_commit Example.diff_a_txt "1.2.3"
              Example.crowded 2%nat)
    as (w' & Hrun & Hg & Hv); [done|vm_compute; reflexivity..|].
  exists w'. split; [exact Hrun|]. split.
  - rewrite Hg. vm_compute. reflexivity.
  - rewrite Hv. vm_compute. reflexivity.
Defined.

(* ===================================================================== *)
(** * The partition of an imported patch                                  *)
(* ===================================================================== *)

Module DecodeFacts.
Import Str StrFacts Deb822 CodecFacts MetaFacts.

Lemma cut_mem sep c s a b :
  cut sep s = Some (a, b) → mem c s = false →
  mem c a = false ∧ mem c b = false.
Proof.
  revert a. induction s as [|x s IH]; intros a Hc Hm; simpl in *; [done|].
  apply orb_false_iff in Hm as [Hx Hs].
  destruct (Ascii.eqb x sep).
  - injection Hc as <- <-. done.
  - destruct (cut sep s) as [[a' b']|]; [|done]. injection Hc as <- <-.
    destruct (IH a' eq_refl Hs) as [Ha Hb]. simpl. by rewrite Hx, Ha.
Qed.

Lemma lstrip_mem c s : mem c s = false → mem c (lstrip s) = false.
Proof.
  induction s as [|x s IH]; simpl; [done|]. intros Hm.
  destruct (is_blank x); [|done].
  apply orb_false_iff in Hm as [_ Hs]. by apply IH.
Qed.

Lemma starts_blank_lstrip s : starts_blank (lstrip s) = false.
Proof.
  induction s as [|x s IH]; simpl; [done|].
  destruct (is_blank x) eqn:Hx; [done|]. by simpl.
Qed.

Lemma one_line_ok v : mem nl v = false → starts_blank v = false → value_ok v = true.
Proof.
  intros Hn Hb. unfold value_ok. rewrite split_on_no_sep by done.
  simpl. by rewrite Hb.
Qed.

Lemma split_field_ok l k v :
  mem nl l = false → split_field l = Some (k, v) →
  key_ok k = true ∧ value_ok v = true.
Proof.
  unfold split_field. intros Hn Hs.
  destruct (cut ":" l) as [[k0 v0]|] eqn:Hc; [|done].
  destruct (key_ok k0) eqn:Hk; [|done]. injection Hs as <- <-.
  split; [done|]. destruct (cut_mem _ nl _ _ _ Hc Hn) as [_ Hv].
  apply one_line_ok; [by apply lstrip_mem|apply starts_blank_lstrip].
Qed.

Lemma continued_ok c l :
  value_ok c = true → starts_blank l = true → mem nl l = false →
  value_ok (c +:+ NL +:+ l) = true.
Proof.
  unfold value_ok. intros Hc Hb Hn.
  change (c +:+ NL +:+ l) with (c +:+ String nl l).
  rewrite split_on_app, (split_on_no_sep _ _ Hn).
  destruct (split_on nl c) as [|l0 conts]; [done|]. simpl.
  apply andb_true_iff in Hc as [-> Hconts]. simpl.
  rewrite forallb_app, Hconts. simpl. by rewrite Hb.
Qed.

Lemma flush_valid cur (m : meta) : field_of cur → valid m → valid (flush cur m).
Proof.
  destruct cur as [[k c]|]; simpl; [|done]. intros [Hk Hc] Hv.
  by apply valid_set.
Qed.

Lemma parse_lines_valid ls : ∀ (m : meta) cur m',
  Forall (λ l, mem nl l = false) ls →
  valid m → field_of cur →
  parse_lines ls m cur = Ok m' → valid m'.
Proof.
  induction ls as [|l ls IH]; intros m cur m' Hls Hv Hcur Hp; simpl in Hp.
  - injection Hp as <-. by apply flush_valid.
  - apply Forall_cons in Hls as [Hl Hls].
    destruct (decide (l = "")); [injection Hp as <-; by apply flush_valid|].
    destruct (starts_blank l) eqn:Hb.
    + destruct cur as [[k c]|]; [|done]. destruct Hcur as [Hk Hc].
      apply (IH _ _ _ Hls Hv) in Hp; [done|].
      split; [done|]. by apply continued_ok.
    + destruct (split_field l) as [[k v]|] eqn:Hs; [|done].
      apply (IH _ _ _ Hls) in Hp; [done|by apply flush_valid|].
      by apply (split_field_ok l).
Qed.

(** What [decode] returns is a valid mapping. *)
Lemma decode_valid text (m : meta) : decode text = Ok m → valid m.
Proof.
  unfold decode. apply parse_lines_valid; [|by split; [constructor|]|done].
  apply Forall_forall. intros l Hl. by apply (split_on_mem nl text).
Qed.

Lemma find_author_key_cases (m : meta) key :
  find_author_key m = Some key → key = "Author" ∨ key = "From".
Proof.
  unfold find_author_key. simpl.
  destruct (has "From" m); [intros [= <-]; by right|].
  destruct (has "Author" m); [intros [= <-]; by left|done].
Qed.

Lemma resolve_author_generic (m : meta) a e m' :
  resolve_author m = Ok (a, e, m') → is_meta_generic m' = is_meta_generic m.
Proof.
  unfold resolve_author.
  destruct (find_author_key m) as [key|] eqn:Hk.
  - destruct (Re.rmatch _ _) as [[|a' [|e' [|]]]|]; try done.
    intros [= <- <- <-]. unfold is_meta_generic.
    apply find_author_key_cases in Hk.
    rewrite ExportFacts.has_del_ne, ExportFacts.get_del_ne;
      [done|by destruct Hk as [-> | ->]..].
  - by intros [= <- <- <-].
Qed.

End DecodeFacts.

Section Partition.
Variable patch_cmd : string → files → Z * files.

Lemma apply_patch_partition d name content w w' :
  _apply_patch patch_cmd d name content w = (Ok tt, w') →
  Str.mem Str.nl name = false →
  ∃ k m, odb (repo w') = odb (repo w) ++ [k] ∧
         Deb822.decode content = Ok m ∧
         generic_commit k =
           bool_decide (d = "generic") || Deb822.is_meta_generic m.
Proof.
  intros Hrun Hname.
  apply apply_patch_inv in Hrun
    as (i & title & m & a & e & m' & h & Hn & Hd & Ha & Hh & ->).
  eexists _, m. split; [done|]. split; [done|].
  assert (Str.mem Str.nl title = false) as Htitle.
  { simpl in Hn. destruct (Str.cut "-" name) as [[x y]|] eqn:Hc; [|done].
    injection Hn as <- <-. by destruct (DecodeFacts.cut_mem _ Str.nl _ _ _ Hc Hname). }
  pose proof (MetaFacts.resolve_author_valid _ _ _ _ Ha
                (DecodeFacts.decode_valid _ _ Hd)) as Hv'.
  unfold generic_commit. rewrite commit_meta_message; [|done|].
  - case_decide as Hdir.
    + by rewrite MetaFacts.generic_set, bool_decide_eq_true_2.
    + rewrite bool_decide_eq_false_2 by done. simpl.
      by apply DecodeFacts.resolve_author_generic in Ha.
  - case_decide; [|done]. by apply MetaFacts.valid_set.
Qed.

End Partition.

(** X15. The partition of an imported patch: the commit [_apply_patch] makes
    of a patch file is generic when the file comes from the [generic]
    subdirectory, and also when it comes from the subdirectory of a
    version and its own metadata say [Generic: yes]; otherwise it belongs
    to the version. The next export writes it to the subdirectory of that
    partition. The file name has no newline. *)
Theorem imported_patch_partition (patch_cmd : string → files → Z * files)
    (d name content : string) (w w' : world) :
  _apply_patch patch_cmd d name content w = (Ok tt, w') →
  Str.mem Str.nl name = false →
  ∃ k m, odb (repo w') = odb (repo w) ++ [k] ∧
         Deb822.decode content = Ok m ∧
         generic_commit k =
           bool_decide (d = "generic") || Deb822.is_meta_generic m.
Proof. apply apply_patch_partition. Qed.

Lemma imported_patch_partition_witness :
  ∃ k m,
    odb (repo (_apply_patch Example.patch_last_line "1.2.3" "0001-fix-foo"
                 Sample2.marked_file Example.opened).2) =
      odb (repo Example.opened) ++ [k] ∧
    Deb822.decode Sample2.marked_file = Ok m ∧
    generic_commit k = true.
Proof.
  destruct (imported_patch_partition Example.patch_last_line "1.2.3"
              "0001-fix-foo" Sample2.marked_file Example.opened
              (_apply_patch Example.patch_last_line "1.2.3" "0001-fix-foo"
                 Sample2.marked_file Example.opened).2)
    as (k & m & Hdb & Hd & Hg); [vm_compute; reflexivity|reflexivity|].
  exists k, m. split; [exact Hdb|]. split; [exact Hd|].
  rewrite Hg. assert (Ok m = Ok [("Description", "fix foo"); ("Generic", "yes")])
    as [= ->] by (rewrite <- Hd; vm_compute; reflexivity).
  reflexivity.
Defined.

(* ===================================================================== *)
(** * The order of the exported names                                     *)
(* ===================================================================== *)

Module OrderFacts.
Import Str StrFacts Fmt FmtFacts.

Lemma length_zeros k : String.length (repeat_char "0" k) = k.
Proof. induction k as [|k IH]; simpl; [done|]. by rewrite IH. Qed.

Lemma length_dec_go fuel : ∀ n acc k,
  (1 ≤ k)%nat → (n < 10 ^ k)%nat →
  (String.length (dec_go fuel n acc) ≤ k + String.length acc)%nat.
Proof.
  induction fuel as [|f IH]; intros n acc k Hk Hn; [simpl; lia|].
  rewrite dec_go_S. destruct (n / 10 =? 0)%nat eqn:Hq.
  - simpl. lia.
  - apply Nat.eqb_neq in Hq.
    destruct k as [|[|k]]; [lia| |].
    + exfalso. apply Hq. apply Nat.div_small. simpl in Hn. lia.
    + specialize (IH (n / 10)%nat (String (digit (n mod 10)) acc) (S k)).
      simpl String.length in IH. etrans; [apply IH|]; [lia| |lia].
      apply Nat.Div0.div_lt_upper_bound.
      change (10 ^ S (S k))%nat with (10 * 10 ^ S k)%nat in Hn. lia.
Qed.

Lemma length_fmt04 i : 0 ≤ i < 10000 → String.length (fmt04 i) = 4%nat.
Proof.
  intros Hi. unfold fmt04.
  destruct (i <? 0) eqn:Hneg; [apply Z.ltb_lt in Hneg; lia|].
  unfold pad0. rewrite ReFacts.slength_app, length_zeros.
  pose proof (length_dec_go (S (Z.to_nat i)) (Z.to_nat i) "" 4) as H.
  unfold str_of_nat. change (String.length "") with 0%nat in H.
  assert (10 ^ 4 = Z.to_nat 10000)%nat as E by (vm_compute; reflexivity).
  assert (Z.to_nat i < 10 ^ 4)%nat as Hlt by (rewrite E; lia).
  specialize (H ltac:(lia) Hlt). lia.
Qed.

Lemma read_fmt04 i : 0 ≤ i → read_go (fmt04 i) 0 = Z.to_nat i.
Proof.
  intros Hi. unfold fmt04.
  destruct (i <? 0) eqn:Hneg; [apply Z.ltb_lt in Hneg; lia|].
  unfold pad0. rewrite read_zeros. unfold str_of_nat.
  by rewrite read_dec_go by lia.
Qed.

(** The number a string of digits writes after the number [a]. *)
Lemma read_go_all s : ∀ a,
  all is_digit s = true →
  read_go s a = (a * 10 ^ String.length s + read_go s 0)%nat ∧
  (read_go s 0 < 10 ^ String.length s)%nat.
Proof.
  induction s as [|c s IH]; intros a Hs.
  - simpl. lia.
  - simpl in Hs. apply andb_true_iff in Hs as [Hc Hs].
    rewrite !read_go_cons, Hc.
    destruct (IH (10 * a + (nat_of_ascii c - 48))%nat Hs) as [-> _].
    destruct (IH (10 * 0 + (nat_of_ascii c - 48))%nat Hs) as [-> Hb].
    assert (nat_of_ascii c - 48 < 10)%nat as Hd.
    { unfold is_digit in Hc. apply andb_true_iff in Hc as [_ H2].
      apply Nat.leb_le in H2. lia. }
    change (10 ^ String.length (String c s))%nat
      with (10 * 10 ^ String.length s)%nat.
    split; nia.
Qed.

Lemma digit_compare_gt x y :
  Ascii.compare x y = Gt → (nat_of_ascii y < nat_of_ascii x)%nat.
Proof.
  unfold Ascii.compare. intros H. apply N.compare_gt_iff in H.
  unfold nat_of_ascii. lia.
Qed.

(** Two strings of digits of the same length compare as the numbers they
    write, whatever follows them. *)
Lemma lex_digits a : ∀ b ra rb,
  all is_digit a = true → all is_digit b = true →
  String.length a = String.length b →
  (read_go a 0 < read_go b 0)%nat →
  String.compare (a +:+ ra) (b +:+ rb) = Lt.
Proof.
  induction a as [|x a IH]; intros [|y b] ra rb Ha Hb Hlen Hlt;
    simpl in Hlen; try done.
  { simpl in Hlt. lia. }
  simpl in Ha, Hb.
  apply andb_true_iff in Ha as [Hx Ha]. apply andb_true_iff in Hb as [Hy Hb].
  rewrite !sapp_cons. cbn [String.compare].
  rewrite !read_go_cons, Hx, Hy in Hlt.
  destruct (read_go_all a (10 * 0 + (nat_of_ascii x - 48))%nat Ha) as [Ea Ba].
  destruct (read_go_all b (10 * 0 + (nat_of_ascii y - 48))%nat Hb) as [Eb Bb].
  rewrite Ea, Eb in Hlt. injection Hlen as Hlen. rewrite Hlen in *.
  destruct (Ascii.compare x y) eqn:Hc.
  - apply Ascii.compare_eq_iff in Hc as ->. apply IH; try done. lia.
  - done.
  - exfalso. apply digit_compare_gt in Hc.
    unfold is_digit in Hx, Hy.
    apply andb_true_iff in Hx as [Hx1 _]. apply andb_true_iff in Hy as [Hy1 _].
    apply Nat.leb_le in Hx1, Hy1. nia.
Qed.

Lemma string_lt_le a b :
  String.compare a b = Lt → String.le a b ∧ ¬ String.le b a.
Proof.
  intros H. unfold String.le, String.leb. rewrite H. split; [done|].
  rewrite String.compare_antisym, H. simpl. tauto.
Qed.

Lemma patch_names_ordered i j t1 t2 :
  0 ≤ i → i < j → j < 10000 →
  String.compare (fmt04 i +:+ "-" +:+ t1) (fmt04 j +:+ "-" +:+ t2) = Lt.
Proof.
  intros Hi Hij Hj. apply lex_digits.
  - apply BackFacts.digits_fmt04. lia.
  - apply BackFacts.digits_fmt04. lia.
  - rewrite !length_fmt04 by lia. done.
  - rewrite !read_fmt04 by lia. lia.
Qed.

End OrderFacts.

(** X16. The names [export_queue] gives to the patches of one subdirectory
    sort as their indices, as long as the indices stay below 10000:
    [sorted(patches_subdir.iterdir())] of [_import_patches_subdir] then
    applies the exported patches oldest commit first, whatever their
    titles. With five digits the order breaks: the patch of index 10000
    sorts before the patch of index 9999. *)
Theorem exported_names_sort_by_index (i j : Z) (c1 c2 : commit) :
  0 ≤ i → i < j → j < 10000 →
  String.le (patch_name i c1) (patch_name j c2) ∧
  ¬ String.le (patch_name j c2) (patch_name i c1) ∧
  String.le (patch_name 10000 c2) (patch_name 9999 c1) ∧
  ¬ String.le (patch_name 9999 c1) (patch_name 10000 c2).
Proof.
  intros Hi Hij Hj.
  destruct (OrderFacts.string_lt_le _ _
              (OrderFacts.patch_names_ordered i j (commit_title c1)
                 (commit_title c2) Hi Hij Hj)) as [H1 H2].
  split; [exact H1|]. split; [exact H2|].
  apply OrderFacts.string_lt_le. unfold patch_name.
  assert (Fmt.fmt04 10000 = "10000") as -> by (vm_compute; reflexivity).
  assert (Fmt.fmt04 9999 = "9999") as -> by (vm_compute; reflexivity).
  reflexivity.
Qed.

Lemma exported_names_sort_by_index_witness :
  String.le (patch_name 9 Example.edited_head) (patch_name 10 Example.root) ∧
  String.le (patch_name 10000 Example.root) (patch_name 9999 Example.edited_head).
Proof.
  destruct (exported_names_sort_by_index 9 10 Example.edited_head Example.root)
    as (H1 & _ & H3 & _); [lia|lia|lia|].
  split; [exact H1|exact H3].
Defined.

(* ===================================================================== *)
(** * What an import reads after an export                                *)
(* ===================================================================== *)

Section SortedEntries.

Lemma name_le_trans a b c : name_le a b → name_le b c → name_le a c.
Proof. unfold name_le. intros. by etrans. Qed.

Lemma name_le_total a b : name_le a b ∨ name_le b a.
Proof. unfold name_le. apply (total String.le). Qed.

Lemma name_lt_le a b : name_lt a b → name_le a b.
Proof.
  unfold name_lt, name_le. intros H.
  by apply (OrderFacts.string_lt_le _ _ H).
Qed.

Lemma name_lt_irrefl a : ¬ name_lt a a.
Proof.
  unfold name_lt. intros H.
  pose proof (String.compare_antisym a.1 a.1) as E. rewrite H in E.
  discriminate E.
Qed.

Lemma sorted_NoDup (l : list (string * string)) :
  StronglySorted name_lt l → NoDup (l.*1).
Proof.
  induction 1 as [|x l Hl IH Hx]; csimpl; constructor; [|done].
  intros Hin. apply list_elem_of_fmap in Hin as (y & Hy & Hin).
  rewrite Forall_forall in Hx. specialize (Hx y Hin).
  unfold name_lt in Hx. rewrite <- Hy in Hx.
  by apply (name_lt_irrefl x).
Qed.

Lemma sorted_weaken (l : list (string * string)) :
  StronglySorted name_lt l → StronglySorted name_le l.
Proof.
  induction 1 as [|x l Hl IH Hx]; constructor; [done|].
  eapply Forall_impl; [exact Hx|]. intros y. apply name_lt_le.
Qed.

(** A list of entries with strictly increasing names is what
    [sorted_entries] returns for the directory that holds them. *)
Lemma sorted_entries_sorted (l : list (string * string)) :
  StronglySorted name_lt l → sorted_entries (list_to_map l) = l.
Proof.
  intros Hl. pose proof (sorted_NoDup l Hl) as Hnd. unfold sorted_entries.
  assert (Transitive name_le) as Htr by (intros a b c; apply name_le_trans).
  assert (Total name_le) as Htot by (intros a b; apply name_le_total).
  assert (merge_sort name_le (map_to_list (list_to_map l : files)) ≡ₚ l) as Hperm.
  { rewrite merge_sort_Permutation. by apply map_to_list_to_map. }
  apply (StronglySorted_unique_strong name_le).
  - intros [n1 t1] [n2 t2] H1 H2 H12 H21.
    rewrite Hperm in H1.
    assert (n1 = n2) as -> by (by apply (anti_symm String.le)).
    f_equal.
    pose proof (elem_of_list_to_map_1 (M := gmap string) l n2 t1 Hnd H1) as E1.
    pose proof (elem_of_list_to_map_1 (M := gmap string) l n2 t2 Hnd H2) as E2.
    congruence.
  - by apply StronglySorted_merge_sort.
  - by apply sorted_weaken.
  - done.
Qed.

End SortedEntries.

Section ReadOrder.
Variable git_diff : files → files → option string.
Variable version : string.
Variable db : list commit.
Hypothesis version_name : version ≠ "generic".

Lemma export_entry_name idx c n t :
  (n, t) ∈ export_entry git_diff db idx c → n = patch_name idx c.
Proof.
  unfold export_entry. destruct (commit_meta c); [|by intros ?%elem_of_nil].
  destruct (diff_of git_diff db c) as [[|x d]|]; try by intros ?%elem_of_nil.
  by intros [= -> _]%list_elem_of_singleton.
Qed.

Lemma export_list_name g cs n t :
  (n, t) ∈ export_list git_diff db g cs →
  ∃ idx c, n = patch_name idx c ∧ 1 ≤ idx ≤ count_in g cs.
Proof.
  induction cs as [|c cs IH]; simpl; [by intros ?%elem_of_nil|].
  pose proof (count_in_nonneg g cs) as Hnn.
  intros [Hin|Hin]%elem_of_app.
  - case_decide as Hg; [|by apply elem_of_nil in Hin].
    apply export_entry_name in Hin. eexists _, c. split; [done|].
    rewrite count_in_cons, decide_True by done. lia.
  - destruct (IH Hin) as (idx & c' & -> & Hidx). exists idx, c'.
    split; [done|]. rewrite count_in_cons. case_decide; lia.
Qed.

Lemma export_entry_sorted idx c :
  StronglySorted name_lt (export_entry git_diff db idx c).
Proof.
  unfold export_entry. destruct (commit_meta c); [|constructor].
  destruct (diff_of git_diff db c) as [[|x d]|]; try constructor.
  - constructor.
  - constructor.
Qed.

(** The files of a partition, oldest commit first, have strictly
    increasing names. *)
Lemma export_list_sorted g cs :
  count_in g cs < 10000 →
  StronglySorted name_lt (reverse (export_list git_diff db g cs)).
Proof.
  induction cs as [|c cs IH]; intros Hk; [constructor|].
  simpl export_list. rewrite reverse_app.
  pose proof (count_in_nonneg g cs) as Hnn.
  rewrite count_in_cons in Hk.
  apply StronglySorted_app_2.
  - intros [n1 t1] [n2 t2] H1 H2. rewrite elem_of_reverse in H1, H2.
    case_decide as Hg; [|by apply elem_of_nil in H2].
    apply export_entry_name in H2 as ->.
    apply export_list_name in H1 as (idx & c' & -> & Hidx).
    unfold name_lt, patch_name. simpl.
    apply OrderFacts.patch_names_ordered;
      rewrite ?count_in_cons, ?decide_True by done; lia.
  - apply IH. case_decide; lia.
  - case_decide; [|constructor].
    assert (∀ l : list (string * string),
              StronglySorted name_lt l → (length l ≤ 1)%nat →
              StronglySorted name_lt (reverse l)) as Hone.
    { intros [|x [|y l]] Hl Hlen; simpl in *; try done; lia. }
    apply Hone; [apply export_entry_sorted|].
    unfold export_entry. destruct (commit_meta c); [|simpl; lia].
    destruct (diff_of git_diff db c) as [[|x d]|]; simpl; lia.
Qed.

(** The subdirectory of a partition after the second loop. *)
Lemma export_files_list g cs : ∀ ig iv p,
  sel g ig iv = count_in g cs →
  dir_files (export_files git_diff version db cs ig iv p)
            (partition_dir version g) =
  list_to_map (reverse (export_list git_diff db g cs))
    ∪ dir_files p (partition_dir version g).
Proof.
  induction cs as [|c cs IH]; intros ig iv p Hsel.
  { simpl. by rewrite (left_id ∅ (∪)). }
  simpl export_files. simpl export_list.
  set (g' := generic_commit c).
  set (p' := match commit_meta c, diff_of git_diff db c with
             | Ok m, Some (String y d) =>
                 write_in (partition_dir version g')
                   (patch_name (if g' then ig else iv) c)
                   (patch_text c m (String y d)) p
             | _, _ => p
             end).
  set (ig' := if g' then ig - 1 else ig).
  set (iv' := if g' then iv else iv - 1).
  rewrite count_in_cons in Hsel. fold g' in Hsel.
  assert (Hsel' : sel g ig' iv' = count_in g cs).
  { unfold sel, ig', iv' in *. destruct g, g'; case_decide; try done; lia. }
  rewrite (IH ig' iv' p' Hsel').
  rewrite reverse_app, list_to_map_app, <- (assoc_L (∪)). f_equal.
  unfold p', export_entry. fold g'.
  destruct (decide (g' = g)) as [Heq|Hne].
  - assert ((if g' then ig else iv) = count_in g (c :: cs)) as ->.
    { rewrite count_in_cons. fold g'. rewrite decide_True by done.
      rewrite <- Hsel. unfold sel. by rewrite Heq. }
    destruct (commit_meta c) as [m|].
    2:{ by rewrite reverse_nil, list_to_map_nil, (left_id ∅ (∪)). }
    destruct (diff_of git_diff db c) as [[|y d]|].
    1,3: by rewrite reverse_nil, list_to_map_nil, (left_id ∅ (∪)).
    rewrite Heq, dir_files_write_in, reverse_singleton.
    rewrite list_to_map_cons, list_to_map_nil.
    by rewrite insert_union_singleton_l, insert_empty.
  - rewrite reverse_nil, list_to_map_nil, (left_id ∅ (∪)).
    destruct (commit_meta c) as [m|]; [|done].
    destruct (diff_of git_diff db c) as [[|y d]|]; try done.
    apply dir_files_write_in_ne. intros Hd.
    by apply (partition_dir_inj version version_name) in Hd.
Qed.

End ReadOrder.

Section ReadOrderSpec.
Variable git_diff : files → files → option string.

Lemma export_queue_sorted version w h g :
  version ≠ "generic" →
  dir_ready w = true →
  dir_free (default ∅ (patches w)) "generic" = true →
  dir_free (default ∅ (patches w)) version = true →
  head (repo w) = Some h →
  let db := odb (repo w) in
  let cs := visited (walk (length db) db h) in
  forallb (exportable git_diff db) cs = true →
  count_in g cs < 10000 →
  ∃ w', export_queue git_diff version w = (Ok tt, w') ∧
        sorted_entries (listing w' (partition_dir version g)) =
          reverse (export_list git_diff db g cs).
Proof.
  intros Hv Hr Hg Hfv Hh db cs Hall Hk.
  eexists. split; [by apply export_queue_spec|].
  rewrite listing_set_patches. fold db cs.
  rewrite (export_files_list git_diff version db Hv g cs) by (by destruct g).
  rewrite dir_files_emptied by done. rewrite (right_id ∅ (∪)).
  apply sorted_entries_sorted. by apply export_list_sorted.
Qed.

End ReadOrderSpec.

(** X17. What an import reads after an export: when [export_queue] goes
    through and a partition has fewer than 10000 commits, the files of its
    subdirectory, in the order [sorted(patches_subdir.iterdir())] gives
    them to [_import_patches_subdir], are the patch files of the visited
    commits of that partition that have a non-empty diff, oldest commit
    first. *)
Theorem export_read_back_in_order (git_diff : files → files → option string)
    (version : string) (w : world) (h : nat) (g : bool) :
  version ≠ "generic" →
  dir_ready w = true →
  dir_free (default ∅ (patches w)) "generic" = true →
  dir_free (default ∅ (patches w)) version = true →
  head (repo w) = Some h →
  let db := odb (repo w) in
  let cs := visited (walk (length db) db h) in
  forallb (exportable git_diff db) cs = true →
  count_in g cs < 10000 →
  ∃ w', export_queue git_diff version w = (Ok tt, w') ∧
        sorted_entries (listing w' (partition_dir version g)) =
          reverse (export_list git_diff db g cs).
Proof. apply export_queue_sorted. Qed.

Lemma export_read_back_in_order_witness :
  ∃ w', export_queue Example.diff_a_txt "1.2.3" Example.crowded = (Ok tt, w') ∧
        (sorted_entries (listing w' "generic")).*1 = ["0001-fix-foo"].
Proof.
  destruct (export_read_back_in_order Example.diff_a_txt "1.2.3"
              Example.crowded 2%nat true)
    as (w' & Hrun & Hs); [done|vm_compute; reflexivity..|].
  exists w'. split; [exact Hrun|].
  simpl partition_dir in Hs. rewrite Hs. vm_compute. reflexivity.
Defined.

(* ===================================================================== *)
(** * Exporting a history and importing it again                          *)
(* ===================================================================== *)

Section ExportImport.
Variable git_diff : files → files → option string.
Variable patch_cmd : string → files → Z * files.

Lemma count_in_le_length g cs : count_in g cs ≤ Z.of_nat (length cs).
Proof.
  unfold count_in. pose proof (length_filter (λ c, generic_commit c = g) cs).
  lia.
Qed.

Lemma queue_of_listing w d :
  queue_of w d = in_dir d <$> sorted_entries (listing w d).
Proof.
  unfold queue_of, listing.
  destruct (entry w d) as [[?|es]|]; try done;
    by rewrite sorted_entries_empty.
Qed.

Lemma reimportable_spec c m :
  reimportable c = true → commit_meta c = Ok m →
  ∃ a e, author c = Signature a e ∧
         a ≠ "" ∧ e ≠ "" ∧ Str.starts_blank a = false ∧
         Str.mem Str.nl a = false ∧ Str.mem Str.nl e = false ∧
         Str.mem "<" e = false ∧ Deb822.has "From" m = false.
Proof.
  unfold reimportable. intros H Hm. rewrite Hm in H.
  destruct (author c) as [a e]. simpl in H.
  repeat (apply andb_true_iff in H as [H ?]).
  exists a, e. split; [done|].
  repeat split; try (by apply negb_true_iff);
    by eapply bool_decide_eq_true_1.
Qed.

Lemma commit_meta_valid c m : commit_meta c = Ok m → Deb822.valid m.
Proof.
  unfold commit_meta.
  destruct (Str.split_max Str.nl 2 (message c)) as [|? [|? [|body [|]]]];
    try done.
  apply DecodeFacts.decode_valid.
Qed.

(** One exported file, applied again. *)
Lemma apply_exported_restores d idx c m D w h :
  0 ≤ idx → reimportable c = true → commit_meta c = Ok m →
  head (repo w) = Some h →
  ∃ k w',
    _apply_patch patch_cmd d (patch_name idx c) (patch_text c m D) w
      = (Ok tt, w') ∧
    odb (repo w') = odb (repo w) ++ [k] ∧
    head (repo w') = Some (length (odb (repo w))) ∧
    patches w' = patches w ∧
    restores d c k.
Proof.
  intros Hi Hre Hm Hh.
  destruct (reimportable_spec c m Hre Hm)
    as (a & e & Ha & Hna & Hne & Hb & Hla & Hle & Hlt & Hfrom).
  pose proof (commit_meta_valid c m Hm) as Hv.
  eexists _, _. split.
  { by apply (apply_exported patch_cmd d idx c m D a e w h). }
  unfold applied, committed. simpl.
  split; [done|]. split; [done|]. split; [done|].
  split; [by rewrite Ha|].
  split; [apply commit_title_message, ExportFacts.commit_title_nl|].
  exists m. split; [done|].
  apply commit_meta_message; [apply ExportFacts.commit_title_nl|].
  by apply ExportFacts.reimported_valid.
Qed.

(** The exported files of a partition, applied oldest first. *)
Lemma apply_export_list d db g cs : ∀ w h,
  forallb (exportable git_diff db) cs = true →
  forallb reimportable cs = true →
  head (repo w) = Some h →
  ∃ w' new h',
    for_each (apply_file patch_cmd)
      (in_dir d <$> reverse (export_list git_diff db g cs)) w = (Ok tt, w') ∧
    odb (repo w') = odb (repo w) ++ new ∧
    head (repo w') = Some h' ∧
    patches w' = patches w ∧
    Forall2 (restores d) (written_commits git_diff db g cs) new.
Proof.
  induction cs as [|c cs IH]; intros w h Hex Hre Hh.
  { exists w, [], h. split; [done|]. rewrite app_nil_r.
    split; [done|]. split; [done|]. split; [done|]. constructor. }
  simpl in Hex, Hre.
  apply andb_true_iff in Hex as [Hexc Hex].
  apply andb_true_iff in Hre as [Hrec Hre].
  destruct (IH w h Hex Hre Hh) as (w1 & new1 & h1 & Hrun1 & Hdb1 & Hh1 & Hp1 & Hall1).
  simpl export_list. rewrite reverse_app, fmap_app.
  rewrite (for_each_app _ _ _ _ _ Hrun1).
  unfold written_commits. rewrite filter_cons.
  assert (∃ m, commit_meta c = Ok m) as [m Hm].
  { unfold exportable in Hexc. destruct (commit_meta c); [by eexists|done]. }
  pose proof (count_in_nonneg g cs) as Hnn.
  destruct (decide (generic_commit c = g)) as [Hg|Hg].
  - unfold export_entry. rewrite Hm.
    destruct (diff_of git_diff db c) as [[|x D]|] eqn:Hd.
    + rewrite decide_False by (by intros [_ ?]).
      exists w1, new1, h1. by rewrite Hp1.
    + rewrite decide_True by done.
      destruct (apply_exported_restores d (count_in g (c :: cs)) c m
                  (String x D) w1 h1) as (k & w2 & Hrun2 & Hdb2 & Hh2 & Hp2 & Hk);
        [rewrite count_in_cons; case_decide; lia|done..|].
      exists w2, (new1 ++ [k]), (length (odb (repo w1))).
      split.
      { rewrite reverse_singleton. simpl. unfold apply_file, in_dir. simpl.
        by rewrite (bind_ok _ _ _ _ _ Hrun2). }
      split; [by rewrite Hdb2, Hdb1, app_assoc|].
      split; [done|]. split; [by rewrite Hp2, Hp1|].
      rewrite reverse_cons. apply Forall2_app; [done|].
      by constructor.
    + rewrite decide_False by (by intros [_ ?]).
      exists w1, new1, h1. by rewrite Hp1.
  - rewrite decide_False by (by intros [? _]).
    exists w1, new1, h1. by rewrite Hp1.
Qed.

Lemma import_after_export version w h w2 h2 :
  version ≠ "generic" →
  dir_ready w = true →
  dir_free (default ∅ (patches w)) "generic" = true →
  dir_free (default ∅ (patches w)) version = true →
  head (repo w) = Some h →
  let db := odb (repo w) in
  let cs := visited (walk (length db) db h) in
  forallb (exportable git_diff db) cs = true →
  forallb reimportable cs = true →
  Z.of_nat (length cs) < 10000 →
  ∃ w',
    export_queue git_diff version w = (Ok tt, w') ∧
    (patches w2 = patches w' → head (repo w2) = Some h2 →
     ∃ w3 new_g new_v,
       import_patches patch_cmd version w2 = (Ok tt, w3) ∧
       odb (repo w3) = odb (repo w2) ++ new_g ++ new_v ∧
       Forall2 (restores "generic")
         (written_commits git_diff db true cs) new_g ∧
       Forall2 (restores version)
         (written_commits git_diff db false cs) new_v).
Proof.
  intros Hv Hr Hg Hfv Hh db cs Hall Hre Hlen.
  pose proof (count_in_le_length true cs) as Hct.
  pose proof (count_in_le_length false cs) as Hcf.
  destruct (export_queue_sorted git_diff version w h true Hv Hr Hg Hfv Hh Hall)
    as (w' & Hrun & Hsg); [fold db cs; lia|].
  destruct (export_queue_sorted git_diff version w h false Hv Hr Hg Hfv Hh Hall)
    as (w'' & Hrun' & Hsv); [fold db cs; lia|].
  rewrite Hrun in Hrun'. injection Hrun' as <-.
  fold db cs in Hsg, Hsv. simpl partition_dir in Hsg, Hsv.
  exists w'. split; [done|]. intros Hp2 Hh2.
  (* the entries the import finds *)
  assert (Hfree : ∀ d, d = "generic" ∨ d = version →
                       ∀ x, entry w' d ≠ Some (File x)).
  { intros d Hd x He.
    rewrite (export_queue_spec git_diff version w h Hr Hg Hfv Hh Hall) in Hrun.
    injection Hrun as <-. unfold entry in He. simpl in He.
    assert (dir_free (export_files git_diff version db cs (count_in true cs)
                        (count_in false cs) (emptied version w)) d = true) as Hf.
    { apply dir_free_export_files. unfold emptied.
      do 2 apply dir_free_cleared. by destruct Hd as [-> | ->]. }
    unfold dir_free in Hf. fold db cs in He. by rewrite He in Hf. }
  assert (Hentry : ∀ w0 d, patches w0 = patches w' → entry w0 d = entry w' d).
  { intros w0 d Hp. unfold entry. by rewrite Hp. }
  assert (Hqueue : ∀ w0 d, patches w0 = patches w' → queue_of w0 d = queue_of w' d).
  { intros w0 d Hp. unfold queue_of. by rewrite (Hentry w0 d Hp). }
  destruct (apply_export_list "generic" db true cs w2 h2 Hall Hre Hh2)
    as (w3 & new_g & h3 & Hrun_g & Hdb_g & Hh3 & Hp3 & Hall_g).
  destruct (apply_export_list version db false cs w3 h3 Hall Hre Hh3)
    as (w4 & new_v & h4 & Hrun_v & Hdb_v & Hh4 & Hp4 & Hall_v).
  exists w4, new_g, new_v.
  split; [|split; [by rewrite Hdb_v, Hdb_g, app_assoc|done]].
  unfold import_patches. simpl for_each.
  assert (_import_patches_subdir patch_cmd "generic" w2 = (Ok tt, w3)) as H1.
  { rewrite import_subdir_queue, (Hentry w2 _ Hp2), (Hqueue w2 _ Hp2).
    rewrite queue_of_listing, Hsg.
    destruct (entry w' "generic") as [[x|es]|] eqn:He; try done.
    by destruct (Hfree "generic" (or_introl eq_refl) x). }
  assert (patches w3 = patches w') as Hp3' by (by rewrite Hp3).
  assert (_import_patches_subdir patch_cmd version w3 = (Ok tt, w4)) as H2.
  { rewrite import_subdir_queue, (Hentry w3 _ Hp3'), (Hqueue w3 _ Hp3').
    rewrite queue_of_listing, Hsv.
    destruct (entry w' version) as [[x|es]|] eqn:He; try done.
    by destruct (Hfree version (or_intror eq_refl) x). }
  rewrite (bind_ok _ _ _ _ _ H1). by rewrite (bind_ok _ _ _ _ _ H2).
Qed.

End ExportImport.

(** X18. The round trip from a history to patch files and back: when
    [export_queue] goes through on a history of fewer than 10000 visited
    commits whose authors can be written and read back, then
    [import_patches] on the exported directory, in any repository with a
    head, goes through and appends one commit for each exported commit
    that has a non-empty diff: first those of the generic partition, then
    those of the version, each partition oldest commit first. Each new
    commit has the author and the title of the commit it comes from, and
    its metadata without the field [Author], marked generic exactly in the
    generic partition. Commits of the two partitions that were interleaved
    in the history are regrouped. *)
Theorem export_then_import (git_diff : files → files → option string)
    (patch_cmd : string → files → Z * files)
    (version : string) (w w2 : world) (h h2 : nat) :
  version ≠ "generic" →
  dir_ready w = true →
  dir_free (default ∅ (patches w)) "generic" = true →
  dir_free (default ∅ (patches w)) version = true →
  head (repo w) = Some h →
  let db := odb (repo w) in
  let cs := visited (walk (length db) db h) in
  forallb (exportable git_diff db) cs = true →
  forallb reimportable cs = true →
  Z.of_nat (length cs) < 10000 →
  ∃ w',
    export_queue git_diff version w = (Ok tt, w') ∧
    (patches w2 = patches w' → head (repo w2) = Some h2 →
     ∃ w3 new_g new_v,
       import_patches patch_cmd version w2 = (Ok tt, w3) ∧
       odb (repo w3) = odb (repo w2) ++ new_g ++ new_v ∧
       Forall2 (restores "generic")
         (written_commits git_diff db true cs) new_g ∧
       Forall2 (restores version)
         (written_commits git_diff db false cs) new_v).
Proof. apply import_after_export. Qed.

Lemma export_then_import_witness :
  ∃ w' w3 new_g new_v,
    export_queue Example.diff_a_txt "1.2.3" Example.crowded = (Ok tt, w') ∧
    import_patches Example.patch_last_line "1.2.3" w' = (Ok tt, w3) ∧
    odb (repo w3) = odb (repo w') ++ new_g ++ new_v ∧
    length new_g = 1%nat ∧ length new_v = 1%nat.
Proof.
  destruct (export_then_import Example.diff_a_txt Example.patch_last_line
              "1.2.3" Example.crowded
              (export_queue Example.diff_a_txt "1.2.3" Example.crowded).2
              2%nat 2%nat)
    as (w' & Hrun & Himp); [done|vm_compute; reflexivity..|].
  rewrite Hrun in Himp. simpl snd in Himp.
  destruct (Himp eq_refl) as (w3 & new_g & new_v & Hrun2 & Hdb & Hg & Hv).
  { rewrite (preserves_repo_export_queue Example.diff_a_txt "1.2.3" Example.crowded _ w' Hrun).
    vm_compute. reflexivity. }
  exists w', w3, new_g, new_v.
  split; [exact Hrun|]. split; [exact Hrun2|]. split; [exact Hdb|].
  apply Forall2_length in Hg, Hv. rewrite <- Hg, <- Hv.
  split; vm_compute; reflexivity.
Defined.

(* ===================================================================== *)
(** * No uncommitted change after an import                               *)
(* ===================================================================== *)

Section Settles.
Variable patch_cmd : string → files → Z * files.









End Settles.



(* ===================================================================== *)
(** * The version named like the generic subdirectory                     *)
(* ===================================================================== *)

Section GenericVersion.
Variable patch_cmd : string → files → Z * files.

Lemma length_sorted_entries es : length (sorted_entries es) = size es.
Proof.
  unfold sorted_entries. rewrite merge_sort_Permutation.
  by rewrite length_map_to_list.
Qed.

Lemma length_queue_of w d : length (queue_of w d) = size (listing w d).
Proof.
  rewrite queue_of_listing. by rewrite length_fmap, length_sorted_entries.
Qed.

Lemma import_count version w w' h :
  import_patches patch_cmd version w = (Ok tt, w') →
  head (repo w) = Some h →
  length (odb (repo w')) =
    (length (odb (repo w)) + size (listing w "generic")
     + size (listing w version))%nat.
Proof.
  intros Hrun Hh. apply import_patches_queue in Hrun.
  destruct (for_each_apply_inv patch_cmd _ _ _ h Hrun Hh)
    as (new & Hdb & Hall & _).
  apply Forall2_length in Hall. rewrite Hdb, length_app, <- Hall.
  unfold import_queue. rewrite length_app, !length_queue_of. lia.
Qed.

End GenericVersion.

(** X19. A successful [import_patches] creates as many commits as there are
    files in the [generic] subdirectory and in the subdirectory of the
    version together. The version is not checked against the name
    [generic]: with the version [generic] the same subdirectory is read
    twice and every patch of it is committed twice. *)
Theorem import_counts_files (patch_cmd : string → files → Z * files)
    (version : string) (w w' : world) (h : nat) :
  import_patches patch_cmd version w = (Ok tt, w') →
  head (repo w) = Some h →
  length (odb (repo w')) =
    (length (odb (repo w)) + size (listing w "generic")
     + size (listing w version))%nat ∧
  (version = "generic" →
   length (odb (repo w')) =
     (length (odb (repo w)) + 2 * size (listing w "generic"))%nat).
Proof.
  intros Hrun Hh.
  pose proof (import_count patch_cmd version w w' h Hrun Hh) as Hn.
  split; [done|]. intros ->. lia.
Qed.

Lemma import_counts_files_witness :
  length (odb (repo (import_patches Example.patch_last_line "generic"
                       Example.queued).2)) = 5%nat.
Proof.
  assert (Hrun : import_patches Example.patch_last_line "generic" Example.queued
                 = (Ok tt, (import_patches Example.patch_last_line "generic"
                              Example.queued).2))
    by (vm_compute; reflexivity).
  destruct (import_counts_files Example.patch_last_line "generic"
              Example.queued _ 0%nat Hrun eq_refl) as [_ H2].
  rewrite (H2 eq_refl). vm_compute. reflexivity.
Defined.
